(** * DraftMate engine: placeholder resolution and template assignment

    A shallow embedding of [engine/resolver.py], [engine/preview.py],
    [engine/generator.py] and the eligibility helpers of
    [engine/__main__.py], followed by the properties of the engine.

    Modelling conventions.
    - A Python [str] is a [string]; the text handled here is ASCII, so
      [str.lower] acts on the letters A-Z and [str.strip] removes the ASCII
      white space characters.
    - A row ([dict] with string keys and values, insertion ordered) is an
      association list; its keys are pairwise distinct, which the theorems
      that need it state as [NoDup].
    - The override map, the derived placeholder map and the firm rotation
      counters are finite maps ([gmap]).
    - A template is a record with the four fields of the data model.
    - The mutation of [firm_counts] is explicit state passing: a function
      that updates the counters returns the new map. Module [Heap] gives
      the same functions over a store of objects, where [firm_counts] and
      [out] are references to a dictionary and a list that are made by
      the call and updated in place; the two are proved to agree.
    - The file names of [email_app.py] are texts of any characters: there
      a text is the list of its code points, and [str.isalnum] and the
      white space of [str.strip] are parameters.
    - The mail sink is outside the engine: [generate_emails] returns its
      count together with the list of drafts handed to the sink, each
      hand-over taken to succeed. *)

From Stdlib Require Import String Ascii List Arith Lia Bool.
From stdpp Require Import base option list gmap strings fin_maps.

Local Open Scope string_scope.
Local Open Scope list_scope.

(** ** Python string primitives *)

Module PyStr.

(** White space as [str.strip()] and [str.split()] see it (ASCII part). *)
Definition is_space (c : ascii) : bool :=
  let n := nat_of_ascii c in
  (Nat.leb 9 n && Nat.leb n 13) || (Nat.leb 28 n && Nat.leb n 32).

Definition lower_char (c : ascii) : ascii :=
  let n := nat_of_ascii c in
  if Nat.leb 65 n && Nat.leb n 90 then ascii_of_nat (n + 32) else c.

(** [s.lower()] *)
Fixpoint lower (s : string) : string :=
  match s with
  | EmptyString => EmptyString
  | String c r => String (lower_char c) (lower r)
  end.

(** [s.lstrip(chars)], with the set of characters given as a predicate. *)
Fixpoint lstrip_by (p : ascii -> bool) (s : string) : string :=
  match s with
  | EmptyString => EmptyString
  | String c r => if p c then lstrip_by p r else s
  end.

(** [s.rstrip(chars)] *)
Fixpoint rstrip_by (p : ascii -> bool) (s : string) : string :=
  match s with
  | EmptyString => EmptyString
  | String c r =>
      match rstrip_by p r with
      | EmptyString => if p c then EmptyString else String c EmptyString
      | r' => String c r'
      end
  end.

(** [s.strip()] *)
Definition strip (s : string) : string := rstrip_by is_space (lstrip_by is_space s).

(** Membership of a character in the argument of [lstrip]/[rstrip]. *)
Fixpoint char_in (chars : string) (c : ascii) : bool :=
  match chars with
  | EmptyString => false
  | String d r => Ascii.eqb c d || char_in r c
  end.

(** [s.startswith(p)] *)
Fixpoint starts_with (p s : string) : bool :=
  match p, s with
  | EmptyString, _ => true
  | String a p', String b s' => Ascii.eqb a b && starts_with p' s'
  | String _ _, EmptyString => false
  end.

(** [sub in s] *)
Fixpoint contains (sub s : string) : bool :=
  starts_with sub s ||
  match s with
  | EmptyString => false
  | String _ r => contains sub r
  end.

(** [s.replace(old, new)] for a non-empty [old]: the occurrences are
    taken from left to right and do not overlap. [skip] counts the
    characters of a match that are still to be dropped. *)
Fixpoint replace_from (skip : nat) (old new s : string) : string :=
  match s with
  | EmptyString => EmptyString
  | String c r =>
      match skip with
      | S k => replace_from k old new r
      | O =>
          if starts_with old s
          then new +:+ replace_from (String.length old - 1) old new r
          else String c (replace_from 0 old new r)
      end
  end.

Definition replace (old new s : string) : string := replace_from 0 old new s.

(** Truth value of a string: non-empty. *)
Definition truthy (s : string) : bool :=
  match s with EmptyString => false | _ => true end.

(** [s.split()]: the maximal runs of non-space characters. *)
Fixpoint split_ws_from (cur : string) (s : string) : list string :=
  match s with
  | EmptyString => if truthy cur then [cur] else []
  | String c r =>
      if is_space c
      then ((if truthy cur then [cur] else []) ++ split_ws_from EmptyString r)%list
      else split_ws_from (cur +:+ String c EmptyString) r
  end.

Definition split_ws (s : string) : list string := split_ws_from EmptyString s.

(** [s.split(sep, 1)] for a one-character separator that occurs in [s]:
    the text before the first occurrence and the text after it. *)
Fixpoint split_once (sep : ascii) (s : string) : string * string :=
  match s with
  | EmptyString => (EmptyString, EmptyString)
  | String c r =>
      if Ascii.eqb c sep then (EmptyString, r)
      else let '(a, b) := split_once sep r in (String c a, b)
  end.

Definition has_char (c : ascii) (s : string) : bool :=
  contains (String c EmptyString) s.

End PyStr.

Import PyStr.

(** ** Dictionaries with insertion order (rows) *)

Abbreviation Row := (list (string * string)).

(** [row.get(key, "")] *)
Fixpoint row_get (row : Row) (key : string) : string :=
  match row with
  | [] => ""
  | (k, v) :: rest => if String.eqb k key then v else row_get rest key
  end.

(** [key in row] *)
Definition row_has (row : Row) (key : string) : bool :=
  existsb (fun kv => String.eqb (fst kv) key) row.

Definition str_in (x : string) (l : list string) : bool :=
  existsb (String.eqb x) l.

(** ** engine/resolver.py: PlaceholderResolver *)

Module Resolver.

(** The attributes that [__init__] sets. *)
Record PlaceholderResolver := mkResolver {
  headers : list string;
  row : Row;
  _full_name_header : option string;
  _company_header : option string;
  _school_header : option string;
  _email_header : option string;
  _derived : gmap string string
}.

Definition COMPANY_OR_FIRM_SUBSTRS : list string := ["company"; "firm"].
Definition SCHOOL_SUBSTRS : list string := ["school"; "college"; "university"; "uni"].
Definition EMAIL_SUBSTR : string := "email".

(** [_first_exact_header] *)
Fixpoint _first_exact_header (hs : list string) (candidates : list string)
  : option string :=
  match hs with
  | [] => None
  | h :: rest =>
      if str_in h candidates then Some h else _first_exact_header rest candidates
  end.

(** [_first_contains_header]; an empty [exclude_substrings] excludes
    nothing. *)
Fixpoint _first_contains_header (hs : list string)
    (substrings exclude_substrings : list string) : option string :=
  match hs with
  | [] => None
  | h :: rest =>
      let hl := lower h in
      if existsb (fun sub => contains sub hl) substrings then
        if existsb (fun ex => contains ex hl) exclude_substrings
        then _first_contains_header rest substrings exclude_substrings
        else Some h
      else _first_contains_header rest substrings exclude_substrings
  end.

(** [self.row.get(h, "").strip() if h else ""] *)
Definition header_value (r : Row) (h : option string) : string :=
  match h with
  | Some h => strip (row_get r h)
  | None => ""
  end.

Section WithParseName.

(** The injected [parse_name_fn]. *)
Variable parse_name_fn : string -> string * string.

(** [_build_derived_defaults] *)
Definition _build_derived_defaults (hs : list string) (r : Row)
    (full_name_header company_header school_header : option string)
  : gmap string string :=
  let full_name_val0 := header_value r full_name_header in
  let '(first0, last0) := parse_name_fn full_name_val0 in
  let firm_val := header_value r company_header in
  let school_val := header_value r school_header in
  let '(full_name_val, first, last) :=
    if negb (truthy full_name_val0) && str_in "name" hs then
      let fallback := strip (row_get r "name") in
      if truthy fallback then
        if negb (truthy first0) && negb (truthy last0)
        then let '(f, l) := parse_name_fn fallback in (fallback, f, l)
        else (fallback, first0, last0)
      else (full_name_val0, first0, last0)
    else (full_name_val0, first0, last0) in
  let derived : gmap string string :=
    <["school" := school_val]>
    (<["firm name" := firm_val]>
    (<["firm" := firm_val]>
    (<["full name" := full_name_val]>
    (<["last name" := last]>
    (<["first name" := first]> ∅))))) in
  let prefix_header := find (fun h => String.eqb h "prefix") hs in
  match prefix_header with
  | Some ph =>
      let prefix_val := strip (row_get r ph) in
      if truthy prefix_val then
        if truthy last
        then <["first name" := prefix_val +:+ ". " +:+ last]> derived
        else <["first name" := prefix_val +:+ "."]> derived
      else
        if truthy first then <["first name" := first]> derived else derived
  | None =>
      if truthy first then <["first name" := first]> derived else derived
  end.

(** [__init__] *)
Definition new (headers_lower_ordered : list string) (row_dict_lower : Row)
  : PlaceholderResolver :=
  let hs := headers_lower_ordered in
  let full_name_header := _first_exact_header hs ["full name"; "name"] in
  let company_header :=
    match _first_exact_header hs
            ["firm"; "company"; "firm name"; "company name"; "business"] with
    | Some h => Some h
    | None => _first_contains_header hs COMPANY_OR_FIRM_SUBSTRS ["email"]
    end in
  let school_header := _first_contains_header hs SCHOOL_SUBSTRS [] in
  let email_header := _first_contains_header hs [EMAIL_SUBSTR] [] in
  {| headers := hs;
     row := row_dict_lower;
     _full_name_header := full_name_header;
     _company_header := company_header;
     _school_header := school_header;
     _email_header := email_header;
     _derived :=
       _build_derived_defaults hs row_dict_lower
         full_name_header company_header school_header |}.

End WithParseName.

(** [_resolve_token] *)
Definition _resolve_token (self : PlaceholderResolver) (token_text : string)
  : string :=
  let key := lower (strip token_text) in
  match _derived self !! key with
  | Some v => v
  | None =>
      match find (fun h => String.eqb h key) (headers self) with
      | Some h => strip (row_get (row self) h)
      | None => ""
      end
  end.

Definition is_brace (c : ascii) : bool :=
  Ascii.eqb c "{"%char || Ascii.eqb c "}"%char.

(** The longest run of characters other than braces at the start of a
    text, and what follows it: the part [[^{}]+] of the pattern. *)
Fixpoint span_no_brace (s : string) : string * string :=
  match s with
  | EmptyString => (EmptyString, EmptyString)
  | String c r =>
      if is_brace c then (EmptyString, s)
      else let '(a, b) := span_no_brace r in (String c a, b)
  end.

(** A match of [\{([^{}]+)\}] at the start of [String "{" s]: group 1
    and the text after the match. *)
Definition match_token (s : string) : option (string * string) :=
  match span_no_brace s with
  | (String c tok, String "}"%char after) => Some (String c tok, after)
  | _ => None
  end.

(** [pattern.sub(f, s)]: the matches are found from left to right; the
    scan continues after a match, on the source text. The fuel bounds
    the number of positions visited. *)
Fixpoint sub_tokens (fuel : nat) (f : string -> string) (s : string) : string :=
  match fuel with
  | O => s
  | S n =>
      match s with
      | EmptyString => EmptyString
      | String c r =>
          if Ascii.eqb c "{"%char then
            match match_token r with
            | Some (tok, after) => f tok +:+ sub_tokens n f after
            | None => String c (sub_tokens n f r)
            end
          else String c (sub_tokens n f r)
      end
  end.

(** [resolve_text] *)
Definition resolve_text (self : PlaceholderResolver) (text : string) : string :=
  if negb (truthy text) || negb (has_char "{"%char text) then text
  else sub_tokens (String.length text) (_resolve_token self) text.

(** [get_email] *)
Definition get_email (self : PlaceholderResolver) : string :=
  match _email_header self with
  | Some h => strip (row_get (row self) h)
  | None => strip (row_get (row self) "email")
  end.

Definition derived_get (self : PlaceholderResolver) (key : string) : string :=
  default "" (_derived self !! key).

(** [get_firm], [get_first_last], [get_full_name] *)
Definition get_firm (self : PlaceholderResolver) : string :=
  derived_get self "firm".

Definition get_first_last (self : PlaceholderResolver) : string * string :=
  (derived_get self "first name", derived_get self "last name").

Definition get_full_name (self : PlaceholderResolver) : string :=
  derived_get self "full name".

End Resolver.

(** ** engine/preview.py *)

(** A template of the data model. *)
Record Template := mkTemplate {
  t_id : string;
  t_name : string;
  t_text : string;
  t_manual_only : bool
}.

(** An entry of the preview table; [template_id] is [None] when no
    template was chosen. *)
Record PreviewEntry := mkEntry {
  p_name : string;
  p_email : string;
  p_email_norm : string;
  p_firm : string;
  p_template_name : string;
  p_template_id : option string;
  p_is_manual : bool;
  p_is_eligible : bool
}.

(** The en dash shown for an unassigned recipient (three bytes in UTF-8). *)
Definition NO_TEMPLATE_NAME : string := "–".

Module Preview.

Import Resolver.

(** [_template_by_id] *)
Definition _template_by_id (templates : list Template) (tid : string)
  : option Template :=
  find (fun t => String.eqb (t_id t) tid) templates.

(** [_rotatable_templates] *)
Definition _rotatable_templates (templates : list Template) : list Template :=
  List.filter (fun t => negb (t_manual_only t)) templates.

Section WithCallbacks.

Variable parse_name_fn : string -> string * string.

(** The normalized email of a row: [(get_email() or "").lower().strip()]. *)
Definition email_norm_of (headers_lower : list string) (r : Row) : string :=
  strip (lower (get_email (new parse_name_fn headers_lower r))).

(** The firm key of a row: [get_firm() or ""]. *)
Definition firm_of (headers_lower : list string) (r : Row) : string :=
  get_firm (new parse_name_fn headers_lower r).

(** [choose_template_for_row]: the chosen template, the manual flag
    and the rotation counters after the call. *)
Definition choose_template_for_row (r : Row) (headers_lower : list string)
    (templates : list Template)
    (recipient_template_overrides : gmap string string)
    (firm_counts : gmap string nat)
  : option Template * bool * gmap string nat :=
  let resolver := new parse_name_fn headers_lower r in
  let email := strip (lower (get_email resolver)) in
  let firm := get_firm resolver in
  let rotation :=
    let rot := _rotatable_templates templates in
    match rot with
    | [] => (None, false, firm_counts)
    | _ =>
        let firm_key := firm in
        let n := default 0 (firm_counts !! firm_key) + 1 in
        let firm_counts' := <[firm_key := n]> firm_counts in
        let idx := (n - 1) mod length rot in
        (rot !! idx, false, firm_counts')
    end in
  if truthy email then
    match recipient_template_overrides !! email with
    | Some tid =>
        match _template_by_id templates tid with
        | Some t => (Some t, true, firm_counts)
        | None => rotation
        end
    | None => rotation
    end
  else rotation.

Variable is_generate_true_fn : Row -> bool.
Variable is_email_valid_fn : string -> bool.

(** [eligible] of the loop body. *)
Definition eligible_of (headers_lower : list string) (r : Row) : bool :=
  is_generate_true_fn r &&
  is_email_valid_fn (get_email (new parse_name_fn headers_lower r)).

(** The state of the loop of [build_preview_rows]. *)
Record PassState := mkPass {
  ps_out : list PreviewEntry;
  ps_firm_counts : gmap string nat
}.

(** One iteration of the loop. *)
Definition preview_step (headers_lower : list string) (templates : list Template)
    (recipient_template_overrides : gmap string string) (only_recipients : bool)
    (st : PassState) (r : Row) : PassState :=
  let resolver := new parse_name_fn headers_lower r in
  let email_display := get_email resolver in
  let email_norm := strip (lower email_display) in
  let eligible := eligible_of headers_lower r in
  if only_recipients && negb eligible then st
  else
    let firm := get_firm resolver in
    let '(first, last) := get_first_last resolver in
    let full_name := get_full_name resolver in
    let prefix_val := strip (row_get r "prefix") in
    let name_display :=
      if truthy prefix_val then first +:+ " (" +:+ full_name +:+ ")"
      else strip (first +:+ (if truthy last then " " +:+ last else "")) in
    let '(chosen, is_manual, firm_counts) :=
      if eligible then
        choose_template_for_row r headers_lower templates
          recipient_template_overrides (ps_firm_counts st)
      else (None, false, ps_firm_counts st) in
    let '(tpl_name, tpl_id, is_manual) :=
      match chosen with
      | Some t => (t_name t, Some (t_id t), is_manual)
      | None => (NO_TEMPLATE_NAME, None, false)
      end in
    {| ps_out :=
         ps_out st ++
         [ {| p_name := name_display;
              p_email := email_display;
              p_email_norm := email_norm;
              p_firm := firm;
              p_template_name := tpl_name;
              p_template_id := tpl_id;
              p_is_manual := is_manual;
              p_is_eligible := eligible |} ];
       ps_firm_counts := firm_counts |}.

(** The loop, from any state. *)
Definition preview_pass (headers_lower : list string) (templates : list Template)
    (recipient_template_overrides : gmap string string) (only_recipients : bool)
    (st : PassState) (rows : list Row) : PassState :=
  fold_left
    (preview_step headers_lower templates recipient_template_overrides
       only_recipients)
    rows st.

(** [build_preview_rows]: [out] and [firm_counts] start empty. *)
Definition build_preview_rows (rows : list Row) (headers_lower : list string)
    (templates : list Template)
    (recipient_template_overrides : gmap string string)
    (only_recipients : bool) : list PreviewEntry :=
  ps_out
    (preview_pass headers_lower templates recipient_template_overrides
       only_recipients {| ps_out := []; ps_firm_counts := ∅ |} rows).

End WithCallbacks.

End Preview.

(** ** engine/generator.py *)

(** What the mail sink receives for one draft. *)
Record Draft := mkDraft {
  d_to : string;
  d_subject : string;
  d_body : string;
  d_resume_path : option string
}.

Module Generator.

Import Resolver Preview.

Definition NL : string := String (ascii_of_nat 10) EmptyString.

(** [_wrap_in_html] *)
Definition _wrap_in_html (text : string) : string :=
  let text := strip text in
  let html_content := strip (replace NL "<br>" (replace "  " "<br><br>" text)) in
  let html_content :=
    rstrip_by (char_in "<br>") (lstrip_by (char_in "<br>") html_content) in
  strip ("<html><body style='margin:0;padding:0;font-family:Arial,sans-serif;'>"
         +:+ html_content +:+ "</body></html>").

(** [templates_by_id = {t["id"]: t for t in templates}] *)
Definition templates_by_id (templates : list Template) : gmap string Template :=
  fold_left (fun m t => <[t_id t := t]> m) templates ∅.

Section WithCallbacks.

Variable parse_name_fn : string -> string * string.
Variable is_generate_true_fn : Row -> bool.
Variable is_email_valid_fn : string -> bool.

(** [_build_rows_by_email] *)
Definition _build_rows_by_email (rows : list Row) (headers_lower : list string)
  : gmap string Row :=
  fold_left
    (fun result r =>
       let email := strip (lower (get_email (new parse_name_fn headers_lower r))) in
       if truthy email then <[email := r]> result else result)
    rows ∅.

(** The state of the loop of [generate_emails]: the count and the
    drafts handed to the mail sink so far. *)
Definition GenState : Type := nat * list Draft.

(** One iteration of the loop over the preview entries. *)
Definition generate_step (headers_lower : list string)
    (rows_by_email : gmap string Row) (by_id : gmap string Template)
    (subject_template : string) (resume_path : option string) (dry_run : bool)
    (st : GenState) (p : PreviewEntry) : GenState :=
  let '(count, drafts) := st in
  let email_display := p_email p in
  let email_norm :=
    if truthy (p_email_norm p) then p_email_norm p
    else strip (lower email_display) in
  match p_template_id p with
  | None => st
  | Some tid =>
      if negb (truthy email_norm) || negb (truthy tid) then st
      else
        match rows_by_email !! email_norm with
        | None | Some [] => st
        | Some r =>
            match by_id !! tid with
            | None => st
            | Some tpl =>
                let resolver := new parse_name_fn headers_lower r in
                let subject := resolve_text resolver subject_template in
                let body_plain := resolve_text resolver (t_text tpl) in
                let body := _wrap_in_html body_plain in
                if dry_run then (count + 1, drafts)
                else
                  (count + 1,
                   (drafts ++
                    [ {| d_to := if truthy email_display then email_display
                                 else email_norm;
                         d_subject := subject;
                         d_body := body;
                         d_resume_path := resume_path |} ])%list)
            end
        end
  end.

(** [generate_emails]: the returned count, and the drafts created. *)
Definition generate_emails (rows : list Row) (headers_lower : list string)
    (templates : list Template)
    (recipient_template_overrides : gmap string string)
    (subject_template : string) (resume_path : option string) (dry_run : bool)
  : GenState :=
  let preview_rows :=
    build_preview_rows parse_name_fn is_generate_true_fn is_email_valid_fn
      rows headers_lower templates recipient_template_overrides true in
  let rows_by_email := _build_rows_by_email rows headers_lower in
  let by_id := templates_by_id templates in
  fold_left
    (generate_step headers_lower rows_by_email by_id subject_template
       resume_path dry_run)
    preview_rows (0, []).

End WithCallbacks.

End Generator.

(** ** engine/__main__.py: the callbacks of the command line *)

Module Cli.

(** [_parse_name]. The resolver only passes trimmed text, so a text
    made of white space alone (for which [parts] is empty) does not
    reach the last two lines. *)
Definition _parse_name (full_name : string) : string * string :=
  if negb (truthy full_name) then ("", "")
  else
    let full_name := strip full_name in
    if has_char ","%char full_name then
      let '(last, first) := split_once ","%char full_name in
      (strip first, strip last)
    else
      match split_ws full_name with
      | [] => ("", "")
      | [p] => (p, "")
      | p :: rest => (p, List.last rest "")
      end.

(** [_parse_bool] *)
Definition _parse_bool (val : string) : bool :=
  str_in (lower (strip val)) ["1"; "true"; "yes"; "y"].

(** [lower_keys = {k.lower(): k for k in row.keys()}] *)
Definition lower_keys (r : Row) : gmap string string :=
  fold_left (fun m kv => <[lower (fst kv) := fst kv]> m) r ∅.

(** [_is_generate_true] *)
Definition _is_generate_true (r : Row) : bool :=
  let lk := lower_keys r in
  match lk !! "generate" with
  | Some real_key => _parse_bool (row_get r real_key)
  | None =>
      match lk !! "gen" with
      | Some real_key => _parse_bool (row_get r real_key)
      | None => true
      end
  end.

(** A character of the class [[^@\s]]. *)
Definition addr_char (c : ascii) : bool :=
  negb (Ascii.eqb c "@"%char) && negb (is_space c).

Fixpoint all_chars (p : ascii -> bool) (s : string) : bool :=
  match s with
  | EmptyString => true
  | String c r => p c && all_chars p r
  end.

Fixpoint span_chars (p : ascii -> bool) (s : string) : string * string :=
  match s with
  | EmptyString => (EmptyString, EmptyString)
  | String c r =>
      if p c then let '(a, b) := span_chars p r in (String c a, b)
      else (EmptyString, s)
  end.

(** A dot with at least one character before it and one after it. *)
Fixpoint has_inner_dot_from (s : string) : bool :=
  match s with
  | String c ((String _ _) as r) => Ascii.eqb c "."%char || has_inner_dot_from r
  | _ => false
  end.

Definition has_inner_dot (s : string) : bool :=
  match s with
  | String _ r => has_inner_dot_from r
  | EmptyString => false
  end.

(** [_is_email_valid]: the pattern [^[^@\s]+@[^@\s]+\.[^@\s]+$] on the
    trimmed text. *)
Definition _is_email_valid (email : string) : bool :=
  if negb (truthy email) then false
  else
    let email := strip email in
    if negb (truthy email) || negb (has_char "@"%char email) then false
    else
      match span_chars addr_char email with
      | (String _ _, String "@"%char dom) =>
          all_chars addr_char dom && has_inner_dot dom
      | _ => false
      end.

End Cli.

(** ** Vocabulary of the statements *)

(** The substitution pass with the fuel that [resolve_text] gives it. *)
Definition sub_all (f : string -> string) (s : string) : string :=
  Resolver.sub_tokens (String.length s) f s.

(** The keys of the derived placeholder map. *)
Definition DERIVED_KEYS : list string :=
  ["first name"; "last name"; "full name"; "firm"; "firm name"; "school"].

Section PreviewVocabulary.

Variable parse_name_fn : string -> string * string.
Variable is_generate_true_fn : Row -> bool.
Variable is_email_valid_fn : string -> bool.

Variable headers_lower : list string.
Variable templates : list Template.
Variable overrides : gmap string string.

(** The manual override that applies to a row: its normalized email is
    non-empty, it is a key of the override map, and the mapped id is the
    id of a current template. *)
Definition override_of (r : Row) : option Template :=
  let email := Preview.email_norm_of parse_name_fn headers_lower r in
  if truthy email then
    match overrides !! email with
    | Some tid => Preview._template_by_id templates tid
    | None => None
    end
  else None.

(** The rotation branch of [choose_template_for_row] for a firm key. *)
Definition rotate (firm_key : string) (firm_counts : gmap string nat)
  : option Template * bool * gmap string nat :=
  let rot := Preview._rotatable_templates templates in
  match rot with
  | [] => (None, false, firm_counts)
  | _ =>
      let n := default 0 (firm_counts !! firm_key) + 1 in
      (rot !! ((n - 1) mod length rot), false, <[firm_key := n]> firm_counts)
  end.

(** The entry that the loop body builds for a row, given the outcome of
    the template choice. *)
Definition entry_for (r : Row) (chosen : option Template) (is_manual : bool)
    (eligible : bool) : PreviewEntry :=
  let resolver := Resolver.new parse_name_fn headers_lower r in
  let first := fst (Resolver.get_first_last resolver) in
  let last := snd (Resolver.get_first_last resolver) in
  {| p_name :=
       if truthy (strip (row_get r "prefix"))
       then first +:+ " (" +:+ Resolver.get_full_name resolver +:+ ")"
       else strip (first +:+ (if truthy last then " " +:+ last else ""));
     p_email := Resolver.get_email resolver;
     p_email_norm := strip (lower (Resolver.get_email resolver));
     p_firm := Resolver.get_firm resolver;
     p_template_name :=
       match chosen with Some t => t_name t | None => NO_TEMPLATE_NAME end;
     p_template_id :=
       match chosen with Some t => Some (t_id t) | None => None end;
     p_is_manual := match chosen with Some _ => is_manual | None => false end;
     p_is_eligible := eligible |}.

(** An eligible row of a given firm key. *)
Definition eligible_at (firm_key : string) (r : Row) : bool :=
  Preview.eligible_of parse_name_fn is_generate_true_fn is_email_valid_fn
    headers_lower r
  && String.eqb (Preview.firm_of parse_name_fn headers_lower r) firm_key.

(** The number of eligible rows of a firm key in a list of rows. *)
Definition firm_rank (firm_key : string) (rows : list Row) : nat :=
  length (List.filter (eligible_at firm_key) rows).

(** The pass of [build_preview_rows] from empty output and the given
    counters. *)
Definition pass_from (only_recipients : bool) (firm_counts : gmap string nat)
    (rows : list Row) : Preview.PassState :=
  Preview.preview_pass parse_name_fn is_generate_true_fn is_email_valid_fn
    headers_lower templates overrides only_recipients
    {| Preview.ps_out := []; Preview.ps_firm_counts := firm_counts |} rows.

End PreviewVocabulary.

(** An entry with a template. *)
Definition has_template (e : PreviewEntry) : bool :=
  match p_template_id e with Some _ => true | None => false end.

Section GeneratorVocabulary.

Variable parse_name_fn : string -> string * string.
Variable is_generate_true_fn : Row -> bool.
Variable is_email_valid_fn : string -> bool.
Variable headers_lower : list string.
Variable templates : list Template.

(** An entry that passes the guard of the generation loop: its
    normalized email and its template id are both non-empty texts. *)
Definition generates (e : PreviewEntry) : bool :=
  truthy (p_email_norm e) &&
  match p_template_id e with Some tid => truthy tid | None => false end.

(** The draft for a preview entry: addressed to the displayed email, the
    subject and the text of the template that has the id of the entry
    resolved on the row registered for the normalized email of the entry. *)
Definition draft_for (rows : list Row) (subject : string)
    (resume : option string) (e : PreviewEntry) : option Draft :=
  match p_template_id e with
  | None => None
  | Some tid =>
      match Preview._template_by_id templates tid,
            Generator._build_rows_by_email parse_name_fn rows headers_lower
              !! p_email_norm e with
      | Some tpl, Some r =>
          let resolver := Resolver.new parse_name_fn headers_lower r in
          Some {| d_to := p_email e;
                  d_subject := Resolver.resolve_text resolver subject;
                  d_body :=
                    Generator._wrap_in_html
                      (Resolver.resolve_text resolver (t_text tpl));
                  d_resume_path := resume |}
      | _, _ => None
      end
  end.

(** An entry that the preview pass builds for an eligible row of [rows],
    with a template of [templates] if it has one. *)
Definition from_preview (rows : list Row) (e : PreviewEntry) : Prop :=
  exists r ch m,
    In r rows /\
    Preview.eligible_of parse_name_fn is_generate_true_fn is_email_valid_fn
      headers_lower r = true /\
    (forall t, ch = Some t -> In t templates) /\
    e = entry_for parse_name_fn headers_lower r ch m true.

End GeneratorVocabulary.

(** The wrapping as the specification words it: the break markers at
    the two ends are removed as whole markers, and no other character of
    the body is dropped. It is what [_wrap_in_html] is compared with. *)
Fixpoint lstrip_marker (s : string) : string :=
  match s with
  | String "<"%char (String "b"%char (String "r"%char (String ">"%char r))) =>
      lstrip_marker r
  | _ => s
  end.

Fixpoint rstrip_marker (s : string) : string :=
  match s with
  | EmptyString => EmptyString
  | String c r =>
      let s' := String c (rstrip_marker r) in
      if String.eqb s' "<br>" then EmptyString else s'
  end.

Definition wrap_in_html_as_specified (text : string) : string :=
  let text := strip text in
  let html_content :=
    strip (replace Generator.NL "<br>" (replace "  " "<br><br>" text)) in
  let html_content := rstrip_marker (lstrip_marker html_content) in
  strip ("<html><body style='margin:0;padding:0;font-family:Arial,sans-serif;'>"
         +:+ html_content +:+ "</body></html>").

(** ** Sample data *)

Module Sample.

Definition hs : list string := ["name"; "firm"; "email"; "generate"; "notes"].

Definition mkrow (name firm email generate notes : string) : Row :=
  [("name", name); ("firm", firm); ("email", email); ("generate", generate);
   ("notes", notes)].

Definition jane : Row := mkrow "Jane Doe" "Acme" "Jane@Acme.com" "true" "met at {firm}".
Definition bob : Row := mkrow "Lee, Bob" "Acme" "bob@acme.com" "yes" "".
Definition cara : Row := mkrow "Cara Diaz" "Acme" "cara@acme.com" "1" "".
Definition dan : Row := mkrow "Dan" "Acme" "dan@acme.com" "Y" "".
Definition eve : Row := mkrow "Eve Moss" "Initech" "eve@initech.io" "true" "".
Definition zed : Row := mkrow "Zed Ray" "Acme" "zed@acme.com" "no" "".

Definition tA : Template := mkTemplate "id-a" "A" "Hi {first name}," false.
Definition tB : Template := mkTemplate "id-b" "B" "Hello {First Name} of {firm}" false.
Definition tC : Template := mkTemplate "id-c" "C" "Dear {full name}" false.
Definition tM : Template := mkTemplate "id-m" "M" "By hand for {first name}" true.

(** An override that names a template which is no longer there. *)
Definition stale : gmap string string := {[ "jane@acme.com" := "id-deleted" ]}.

(** An override that names the manual-only template. *)
Definition manual : gmap string string := {[ "jane@acme.com" := "id-m" ]}.

(** A template whose identifier is the empty text. *)
Definition tE : Template := mkTemplate "" "E" "Hi {first name}" false.

(** A row without an email, and a validity callback that accepts it. *)
Definition anon : Row := mkrow "Ann Onym" "Acme" "" "true" "".
Definition accept_all (email : string) : bool := true.

End Sample.

(** ** engine/generator.py: the text handed to AppleScript *)

Module Applescript.

Definition BACKSLASH : string := String (ascii_of_nat 92) EmptyString.
Definition DQUOTE : string := String (ascii_of_nat 34) EmptyString.

(** [_escape_applescript] *)
Definition _escape_applescript (s : string) : string :=
  if negb (truthy s) then ""
  else replace DQUOTE (BACKSLASH +:+ DQUOTE)
         (replace BACKSLASH (BACKSLASH +:+ BACKSLASH) s).

(** What one character becomes under the two replacements. *)
Definition escape_char (c : ascii) : string :=
  if Ascii.eqb c (ascii_of_nat 92) then BACKSLASH +:+ BACKSLASH
  else if Ascii.eqb c (ascii_of_nat 34) then BACKSLASH +:+ DQUOTE
  else String c EmptyString.

Fixpoint escape_chars (s : string) : string :=
  match s with
  | EmptyString => EmptyString
  | String c r => escape_char c +:+ escape_chars r
  end.

(** A text in which every backslash starts one of the pairs backslash
    backslash and backslash quote, and no quote stands outside such a
    pair: between two quotes it is one AppleScript string literal. *)
Fixpoint well_escaped (s : string) : bool :=
  match s with
  | EmptyString => true
  | String c r =>
      if Ascii.eqb c (ascii_of_nat 92) then
        match r with
        | EmptyString => false
        | String d r' =>
            (Ascii.eqb d (ascii_of_nat 92) || Ascii.eqb d (ascii_of_nat 34))
            && well_escaped r'
        end
      else if Ascii.eqb c (ascii_of_nat 34) then false
      else well_escaped r
  end.

(** The text that a well escaped literal stands for. *)
Fixpoint unescaped (s : string) : string :=
  match s with
  | EmptyString => EmptyString
  | String c r =>
      if Ascii.eqb c (ascii_of_nat 92) then
        match r with
        | EmptyString => EmptyString
        | String d r' => String d (unescaped r')
        end
      else String c (unescaped r)
  end.

End Applescript.

(** ** email_app.py: the callbacks and the override bookkeeping of the
    desktop application *)

Module App.

(** [_parse_name]: the same text as in [engine/__main__.py]. *)
Definition _parse_name (full_name : string) : string * string :=
  Cli._parse_name full_name.

(** [_parse_bool]: the same text as in [engine/__main__.py]. *)
Definition _parse_bool (val : string) : bool := Cli._parse_bool val.

(** [_is_generate_true]: [self._parse_bool(row.get("generate", ""))] *)
Definition _is_generate_true (r : Row) : bool :=
  _parse_bool (row_get r "generate").

(** The text without its last character. *)
Fixpoint drop_last (s : string) : string :=
  match s with
  | EmptyString => EmptyString
  | String c EmptyString => EmptyString
  | String c r => String c (drop_last r)
  end.

Fixpoint last_char (s : string) : option ascii :=
  match s with
  | EmptyString => None
  | String c EmptyString => Some c
  | String _ r => last_char r
  end.

(** [EMAIL_RE.match(s)] for the pattern [^[^@\s]+@[^@\s]+\.[^@\s]+$] when
    the end of the pattern is the end of [s]. *)
Definition email_re_to_end (s : string) : bool :=
  match Cli.span_chars Cli.addr_char s with
  | (String _ _, String "@"%char dom) =>
      Cli.all_chars Cli.addr_char dom && Cli.has_inner_dot dom
  | _ => false
  end.

(** [EMAIL_RE.match(s)]: [$] is the end of the text, or the place before
    a line feed that ends the text. *)
Definition email_re_match (s : string) : bool :=
  email_re_to_end s ||
  match last_char s with
  | Some c => Ascii.eqb c (ascii_of_nat 10) && email_re_to_end (drop_last s)
  | None => false
  end.

(** [_is_email_valid]: [bool(email and EMAIL_RE.match(email))] *)
Definition _is_email_valid (email : string) : bool :=
  truthy email && email_re_match email.

(** The filter of [_read_eligible_rows], on the rows that
    [_read_all_rows] returns. *)
Definition _read_eligible_rows (headers_lower : list string) (rows : list Row)
  : list Row :=
  List.filter
    (fun r =>
       _is_generate_true r &&
       _is_email_valid
         (Resolver.get_email (Resolver.new _parse_name headers_lower r)))
    rows.

(** [valid_ids = {t.get("id") for t in self.templates}] *)
Definition valid_ids (templates : list Template) : gset string :=
  list_to_set (map t_id templates).

(** [dead] of [_prune_recipient_overrides] *)
Definition dead_emails (templates : list Template)
    (overrides : gmap string string) : list string :=
  map fst
    (List.filter (fun kv => negb (bool_decide (snd kv ∈ valid_ids templates)))
       (map_to_list overrides)).

(** [_prune_recipient_overrides]: the override map after the call. *)
Definition _prune_recipient_overrides (templates : list Template)
    (overrides : gmap string string) : gmap string string :=
  fold_left (fun m email => delete email m) (dead_emails templates overrides)
    overrides.

End App.

(** ** email_app.py: the file name of an exported template

    [_safe_filename] tests the characters of a name with [str.isalnum]
    and trims the result with [str.strip], which Python defines on
    every Unicode character. Here a text is the list of its code points,
    and the two tests are taken as they come, [isalnum] for
    [ch.isalnum()] and [isspace] for the characters that [strip()]
    removes; [max_len] is an integer, and [base[:max_len]] counts from
    the end when it is negative. *)

Module FileName.

(** The code points of an ASCII text. *)
Definition of_string (s : string) : list N :=
  map N_of_ascii (list_ascii_of_string s).

(** [ch in t] for a character [ch]. *)
Definition in_text (ch : N) (t : list N) : bool := existsb (N.eqb ch) t.

(** [t.lstrip(chars)] and [t.rstrip(chars)], for the characters that
    satisfy [p]. *)
Fixpoint lstrip (p : N -> bool) (t : list N) : list N :=
  match t with
  | [] => []
  | c :: r => if p c then lstrip p r else t
  end.

Fixpoint rstrip (p : N -> bool) (t : list N) : list N :=
  match t with
  | [] => []
  | c :: r =>
      match rstrip p r with
      | [] => if p c then [] else [c]
      | r' => c :: r'
      end
  end.

(** [t[:n]] for an integer [n]: the first [n] characters, or all but
    the last [-n] when [n] is negative. *)
Definition slice_to (n : Z) (t : list N) : list N :=
  if (0 <=? n)%Z then firstn (Z.to_nat n) t
  else firstn (length t - Z.to_nat (- n)) t.

Definition TEMPLATE : list N := Eval cbv in of_string "template".
Definition KEPT : list N := Eval cbv in of_string " -_.".
Definition UNDERSCORE : N := 95%N.
Definition DOT : N := 46%N.

Section WithPredicates.

Variable isalnum : N -> bool.
Variable isspace : N -> bool.

(** A character that [_safe_filename] keeps. *)
Definition is_kept (ch : N) : bool := isalnum ch || in_text ch KEPT.

(** [_safe_filename] *)
Definition _safe_filename (name : list N) (max_len : Z) : list N :=
  let name := match name with [] => TEMPLATE | _ => name end in
  let base := map (fun ch => if is_kept ch then ch else UNDERSCORE) name in
  let base := rstrip isspace (lstrip isspace base) in
  let base := rstrip (N.eqb DOT) (lstrip (N.eqb DOT) base) in
  let base := match base with [] => TEMPLATE | _ => base end in
  if (Z.of_nat (length base) >? max_len)%Z then slice_to max_len base else base.

End WithPredicates.

(** Two tests for the examples: the letters and digits of ASCII with the
    letters of the Latin-1 block, and the white space of ASCII. *)
Definition sample_isalnum (c : N) : bool :=
  ((48 <=? c) && (c <=? 57) || (65 <=? c) && (c <=? 90)
   || (97 <=? c) && (c <=? 122)
   || (192 <=? c) && (c <=? 255) && negb (c =? 215) && negb (c =? 247))%N.

Definition sample_isspace (c : N) : bool :=
  ((9 <=? c) && (c <=? 13) || (28 <=? c) && (c <=? 32))%N.

(** "résumé" *)
Definition resume_name : list N := [114; 233; 115; 117; 109; 233]%N.

End FileName.

(** ** More vocabulary *)

(** A header that one of the texts occurs in, without regard to case. *)
Definition header_contains (subs : list string) (h : string) : bool :=
  existsb (fun sub => contains sub (lower h)) subs.

Fixpoint no_space (s : string) : bool :=
  match s with
  | EmptyString => true
  | String c r => negb (is_space c) && no_space r
  end.

(** More sample data. *)
Module Sample2.

Definition hs : list string :=
  ["prefix"; "full name"; "firm email"; "firm name"; "university"; "generate"].

Definition smith : Row :=
  [("prefix", "Dr"); ("full name", "Smith, Ada"); ("firm email", "Ada@Uni.edu");
   ("firm name", "Acme"); ("university", "MIT"); ("generate", "yes")].

Definition twice : list Row :=
  [Sample.mkrow "Old Name" "Acme" "x@acme.com" "no" "";
   Sample.mkrow "New Name" "Initech" "X@Acme.com" "true" ""].

Definition mixed : gmap string string :=
  {[ "jane@acme.com" := "id-deleted"; "bob@acme.com" := "id-m" ]}.

End Sample2.

(** ** engine/data_sources.py: the normalization of a row *)

Module DataSources.

(** [d[key] = value] on a dictionary kept in insertion order. *)
Fixpoint dict_set (d : Row) (key value : string) : Row :=
  match d with
  | [] => [(key, value)]
  | (k, v) :: rest =>
      if String.eqb k key then (key, value) :: rest
      else (k, v) :: dict_set rest key value
  end.

(** [{str(k).strip().lower(): str(v).strip() for k, v in row.items()}],
    for the items of a record whose keys and values are texts. *)
Definition normalize_row (items : list (string * string)) : Row :=
  fold_left
    (fun norm kv => dict_set norm (lower (strip (fst kv))) (strip (snd kv)))
    items [].

(** [[str(h).strip().lower() for h in reader.fieldnames]] *)
Definition normalize_headers (fieldnames : list string) : list string :=
  map (fun h => lower (strip h)) fieldnames.

End DataSources.

Section CounterVocabulary.

Variable parse_name_fn : string -> string * string.
Variable is_generate_true_fn : Row -> bool.
Variable is_email_valid_fn : string -> bool.
Variable headers_lower : list string.
Variable templates : list Template.
Variable overrides : gmap string string.

(** An eligible row of a firm key to which no override applies. *)
Definition rotated_at (firm_key : string) (r : Row) : bool :=
  eligible_at parse_name_fn is_generate_true_fn is_email_valid_fn headers_lower
    firm_key r
  && match override_of parse_name_fn headers_lower templates overrides r with
     | Some _ => false
     | None => true
     end.

End CounterVocabulary.

(** ** engine/preview.py over a store of objects

    [build_preview_rows] creates two objects on each call, the list [out]
    and the dictionary [firm_counts], and hands the dictionary to
    [choose_template_for_row], which updates it in place. Here the
    objects live in a store that outlasts the calls: what a call leaves
    behind is there when the next call runs, and a function that kept its
    counters in an object made before the call would find them again. A
    reference is the index of an object in the store; a new object gets
    the next index. The row, the header list, the templates and the
    overrides are only read, and are passed as values. *)

Module Heap.

Import Resolver.

Inductive Obj : Type :=
| ODict (d : gmap string nat)
| OList (l : list PreviewEntry).

(** [{}] or [[]]: a new object, and its reference. *)
Definition alloc (sigma : list Obj) (o : Obj) : nat * list Obj :=
  (length sigma, sigma ++ [o]).

(** [d.get(k)] on the dictionary behind a reference. *)
Definition dict_get (sigma : list Obj) (ref : nat) (k : string) : option nat :=
  match sigma !! ref with
  | Some (ODict d) => d !! k
  | _ => None
  end.

(** [d[k] = v]: the dictionary behind the reference is updated in
    place; every holder of the reference sees the new entry. *)
Definition dict_set (sigma : list Obj) (ref : nat) (k : string) (v : nat)
  : list Obj :=
  match sigma !! ref with
  | Some (ODict d) => <[ref := ODict (<[k := v]> d)]> sigma
  | _ => sigma
  end.

(** [l.append(e)] on the list behind a reference. *)
Definition list_append (sigma : list Obj) (ref : nat) (e : PreviewEntry)
  : list Obj :=
  match sigma !! ref with
  | Some (OList l) => <[ref := OList (l ++ [e])]> sigma
  | _ => sigma
  end.

(** The entries of the list behind a reference. *)
Definition list_read (sigma : list Obj) (ref : nat) : list PreviewEntry :=
  match sigma !! ref with
  | Some (OList l) => l
  | _ => []
  end.

Section WithCallbacks.

Variable parse_name_fn : string -> string * string.

(** [choose_template_for_row]: [firm_counts] is a reference; the
    store after the call is returned with the result. *)
Definition choose_template_for_row (r : Row) (headers_lower : list string)
    (templates : list Template)
    (recipient_template_overrides : gmap string string)
    (firm_counts : nat) (sigma : list Obj)
  : option Template * bool * list Obj :=
  let resolver := new parse_name_fn headers_lower r in
  let email := strip (lower (get_email resolver)) in
  let firm := get_firm resolver in
  let rotation :=
    let rot := Preview._rotatable_templates templates in
    match rot with
    | [] => (None, false, sigma)
    | _ =>
        let firm_key := firm in
        let sigma' :=
          dict_set sigma firm_counts firm_key
            (default 0 (dict_get sigma firm_counts firm_key) + 1) in
        let idx :=
          (default 0 (dict_get sigma' firm_counts firm_key) - 1)
          mod length rot in
        (rot !! idx, false, sigma')
    end in
  if truthy email then
    match recipient_template_overrides !! email with
    | Some tid =>
        match Preview._template_by_id templates tid with
        | Some t => (Some t, true, sigma)
        | None => rotation
        end
    | None => rotation
    end
  else rotation.

Variable is_generate_true_fn : Row -> bool.
Variable is_email_valid_fn : string -> bool.

(** One iteration of the loop of [build_preview_rows]; [out] and
    [firm_counts] are the references of the two objects of the call. *)
Definition preview_step (headers_lower : list string) (templates : list Template)
    (recipient_template_overrides : gmap string string) (only_recipients : bool)
    (out firm_counts : nat) (sigma : list Obj) (r : Row) : list Obj :=
  let resolver := new parse_name_fn headers_lower r in
  let email_display := get_email resolver in
  let email_norm := strip (lower email_display) in
  let eligible := is_generate_true_fn r && is_email_valid_fn email_display in
  if only_recipients && negb eligible then sigma
  else
    let firm := get_firm resolver in
    let '(first, last) := get_first_last resolver in
    let full_name := get_full_name resolver in
    let prefix_val := strip (row_get r "prefix") in
    let name_display :=
      if truthy prefix_val then first +:+ " (" +:+ full_name +:+ ")"
      else strip (first +:+ (if truthy last then " " +:+ last else "")) in
    let '(chosen, is_manual, sigma) :=
      if eligible then
        choose_template_for_row r headers_lower templates
          recipient_template_overrides firm_counts sigma
      else (None, false, sigma) in
    let '(tpl_name, tpl_id, is_manual) :=
      match chosen with
      | Some t => (t_name t, Some (t_id t), is_manual)
      | None => (NO_TEMPLATE_NAME, None, false)
      end in
    list_append sigma out
      {| p_name := name_display;
         p_email := email_display;
         p_email_norm := email_norm;
         p_firm := firm;
         p_template_name := tpl_name;
         p_template_id := tpl_id;
         p_is_manual := is_manual;
         p_is_eligible := eligible |}.

(** [build_preview_rows]: [out = []] and [firm_counts = {}] are two new
    objects; the reference of [out] is returned with the store that the
    call leaves. *)
Definition build_preview_rows (rows : list Row) (headers_lower : list string)
    (templates : list Template)
    (recipient_template_overrides : gmap string string)
    (only_recipients : bool) (sigma : list Obj) : nat * list Obj :=
  let '(out, sigma) := alloc sigma (OList []) in
  let '(firm_counts, sigma) := alloc sigma (ODict ∅) in
  (out,
   fold_left
     (preview_step headers_lower templates recipient_template_overrides
        only_recipients out firm_counts)
     rows sigma).

(** [generate_emails]: the preview is built by a call of
    [build_preview_rows] in the store of the moment, and the loop runs
    over the list that this call returns. *)
Definition generate_emails (rows : list Row) (headers_lower : list string)
    (templates : list Template)
    (recipient_template_overrides : gmap string string)
    (subject_template : string) (resume_path : option string) (dry_run : bool)
    (sigma : list Obj) : Generator.GenState * list Obj :=
  let '(preview_rows, sigma) :=
    build_preview_rows rows headers_lower templates
      recipient_template_overrides true sigma in
  let rows_by_email :=
    Generator._build_rows_by_email parse_name_fn rows headers_lower in
  let by_id := Generator.templates_by_id templates in
  (fold_left
     (Generator.generate_step parse_name_fn headers_lower rows_by_email by_id
        subject_template resume_path dry_run)
     (list_read sigma preview_rows) (0, []),
   sigma).

End WithCallbacks.

End Heap.

(** * Properties *)

(** ** Strings *)

Section StringFacts.

Lemma sapp_cons (c : ascii) (a b : string) :
  String c a +:+ b = String c (a +:+ b).
Proof. reflexivity. Qed.

Lemma sapp_nil_l (s : string) : "" +:+ s = s.
Proof. reflexivity. Qed.

Lemma sapp_nil_r (s : string) : s +:+ "" = s.
Proof.
  induction s as [|c s IH]; [reflexivity | now rewrite sapp_cons, IH].
Qed.

Lemma sapp_assoc (a b c : string) : (a +:+ b) +:+ c = a +:+ (b +:+ c).
Proof.
  induction a as [|x a IH]; [reflexivity | now rewrite !sapp_cons, IH].
Qed.

Lemma slength_app (a b : string) :
  String.length (a +:+ b) = String.length a + String.length b.
Proof.
  induction a as [|x a IH]; [reflexivity | rewrite sapp_cons; simpl; now rewrite IH].
Qed.

Lemma truthy_false (s : string) : truthy s = false <-> s = "".
Proof. destruct s; simpl; split; congruence. Qed.

Lemma truthy_true (s : string) : truthy s = true <-> s <> "".
Proof. destruct s; simpl; split; congruence. Qed.

Lemma has_char_cons (c d : ascii) (s : string) :
  has_char c (String d s) = Ascii.eqb c d || has_char c s.
Proof.
  unfold has_char. simpl. now rewrite andb_true_r.
Qed.

Lemma has_char_nil (c : ascii) : has_char c "" = false.
Proof. reflexivity. Qed.

Lemma has_char_app (c : ascii) (a b : string) :
  has_char c (a +:+ b) = has_char c a || has_char c b.
Proof.
  induction a as [|x a IH].
  - now rewrite sapp_nil_l, has_char_nil.
  - rewrite sapp_cons, !has_char_cons, IH. now rewrite orb_assoc.
Qed.

Lemma str_in_In (x : string) (l : list string) : str_in x l = true <-> In x l.
Proof.
  unfold str_in. rewrite existsb_exists. split.
  - intros (y & Hy & E). apply String.eqb_eq in E. now subst.
  - intros H. exists x. split; [assumption | apply String.eqb_refl].
Qed.

Lemma lower_nil_iff (s : string) : lower s = "" <-> s = "".
Proof. destruct s; simpl; split; congruence. Qed.

Lemma is_space_lower_char (c : ascii) : is_space (lower_char c) = is_space c.
Proof. destruct c as [[] [] [] [] [] [] [] []]; reflexivity. Qed.

Lemma lower_lstrip (s : string) :
  lower (lstrip_by is_space s) = lstrip_by is_space (lower s).
Proof.
  induction s as [|c s IH]; simpl; [reflexivity|].
  rewrite is_space_lower_char. destruct (is_space c); [exact IH | reflexivity].
Qed.

Lemma lower_rstrip (s : string) :
  lower (rstrip_by is_space s) = rstrip_by is_space (lower s).
Proof.
  induction s as [|c s IH]; simpl; [reflexivity|].
  rewrite <- IH, is_space_lower_char.
  destruct (rstrip_by is_space s); simpl; [destruct (is_space c)|]; reflexivity.
Qed.

Lemma lower_strip (s : string) : lower (strip s) = strip (lower s).
Proof. unfold strip. now rewrite lower_rstrip, lower_lstrip. Qed.

Lemma rstrip_idem (p : ascii -> bool) (s : string) :
  rstrip_by p (rstrip_by p s) = rstrip_by p s.
Proof.
  induction s as [|c s IH]; simpl; [reflexivity|].
  destruct (rstrip_by p s) as [|d r] eqn:E.
  - destruct (p c) eqn:Ec; simpl; [reflexivity | now rewrite Ec].
  - change (rstrip_by p (String c (String d r)))
      with (match rstrip_by p (String d r) with
            | EmptyString => if p c then EmptyString else String c EmptyString
            | r' => String c r'
            end).
    now rewrite IH.
Qed.

Lemma rstrip_head (p : ascii -> bool) (c : ascii) (s : string) :
  p c = false -> exists r, rstrip_by p (String c s) = String c r.
Proof.
  intros Hc. simpl. destruct (rstrip_by p s).
  - rewrite Hc. now exists "".
  - eauto.
Qed.

Lemma lstrip_head (p : ascii -> bool) (s : string) :
  lstrip_by p s = "" \/ exists c r, lstrip_by p s = String c r /\ p c = false.
Proof.
  induction s as [|c s IH]; simpl; [now left|].
  destruct (p c) eqn:E; [exact IH | right; eauto].
Qed.

Lemma lstrip_fixed (p : ascii -> bool) (c : ascii) (s : string) :
  p c = false -> lstrip_by p (String c s) = String c s.
Proof. intros H. simpl. now rewrite H. Qed.

(** A trimmed text is left as it is by [strip]. *)
Lemma strip_idem (s : string) : strip (strip s) = strip s.
Proof.
  unfold strip.
  destruct (lstrip_head is_space s) as [E | (c & r & E & Hc)]; rewrite E.
  - reflexivity.
  - destruct (rstrip_head is_space c r Hc) as (r' & Er). rewrite Er.
    rewrite (lstrip_fixed _ _ _ Hc), <- Er. apply rstrip_idem.
Qed.

(** The normal form of a trimmed email is empty only for the empty email. *)
Lemma norm_of_strip (v : string) :
  strip (lower (strip v)) = lower (strip v).
Proof. now rewrite <- lower_strip, strip_idem. Qed.

End StringFacts.

(** ** The substitution pass of [resolve_text] *)

Section SubstitutionFacts.

Import Resolver.

Variable f : string -> string.

Lemma span_no_brace_length (s a b : string) :
  span_no_brace s = (a, b) ->
  String.length s = String.length a + String.length b.
Proof.
  revert a b. induction s as [|c s IH]; intros a b; simpl.
  - intros [= <- <-]. reflexivity.
  - destruct (is_brace c).
    + intros [= <- <-]. reflexivity.
    + destruct (span_no_brace s) as [a' b'] eqn:E. intros [= <- <-].
      simpl. now rewrite (IH a' b').
Qed.

Lemma match_token_shorter (s tok after : string) :
  match_token s = Some (tok, after) ->
  String.length after < String.length s.
Proof.
  unfold match_token. destruct (span_no_brace s) as [a b] eqn:E.
  apply span_no_brace_length in E.
  destruct a as [|c a]; [discriminate|].
  destruct b as [|d b]; [discriminate|].
  destruct (Ascii.eqb_spec d "}"%char) as [->|Hd].
  - intros [= <- <-]. rewrite E. simpl. lia.
  - destruct d as [[] [] [] [] [] [] [] []]; try discriminate. now elim Hd.
Qed.

Lemma span_no_brace_token (tok post : string) (c : ascii) :
  has_char "{"%char tok = false -> has_char "}"%char tok = false ->
  is_brace c = true ->
  span_no_brace (tok +:+ String c post) = (tok, String c post).
Proof.
  intros Ho Hc Hb. induction tok as [|x tok IH].
  - rewrite sapp_nil_l. simpl. now rewrite Hb.
  - rewrite has_char_cons in Ho, Hc.
    apply orb_false_iff in Ho as [Ho1 Ho2], Hc as [Hc1 Hc2].
    rewrite sapp_cons. simpl. unfold is_brace at 1.
    rewrite Ascii.eqb_sym, Ho1, Ascii.eqb_sym, Hc1. simpl.
    now rewrite (IH Ho2 Hc2).
Qed.

(** A non-empty text without braces that is closed by "}" is a token. *)
Lemma match_token_token (tok post : string) :
  tok <> "" ->
  has_char "{"%char tok = false -> has_char "}"%char tok = false ->
  match_token (tok +:+ String "}"%char post) = Some (tok, post).
Proof.
  intros Hne Ho Hc. unfold match_token.
  rewrite (span_no_brace_token tok post "}"%char Ho Hc eq_refl).
  destruct tok; [contradiction | reflexivity].
Qed.

(** Fuel beyond the length of the text changes nothing. *)
Lemma sub_tokens_fuel (n m : nat) (s : string) :
  String.length s <= n -> String.length s <= m ->
  sub_tokens n f s = sub_tokens m f s.
Proof.
  revert m s. induction n as [|n IH]; intros m s Hn Hm.
  - destruct s; [|simpl in Hn; lia]. destruct m; reflexivity.
  - destruct s as [|c r]; [destruct m; reflexivity|].
    destruct m as [|m]; [simpl in Hm; lia|].
    simpl in Hn, Hm. simpl.
    destruct (Ascii.eqb c "{"%char).
    + destruct (match_token r) as [[tok after]|] eqn:E.
      * apply match_token_shorter in E.
        rewrite (IH m after); [reflexivity | lia | lia].
      * rewrite (IH m r); [reflexivity | lia | lia].
    + rewrite (IH m r); [reflexivity | lia | lia].
Qed.

Lemma sub_all_nil : sub_all f "" = "".
Proof. reflexivity. Qed.

Lemma sub_all_other (c : ascii) (r : string) :
  Ascii.eqb c "{"%char = false -> sub_all f (String c r) = String c (sub_all f r).
Proof. intros H. unfold sub_all. simpl. now rewrite H. Qed.

Lemma sub_all_match (r tok after : string) :
  match_token r = Some (tok, after) ->
  sub_all f (String "{"%char r) = f tok +:+ sub_all f after.
Proof.
  intros H. unfold sub_all. simpl. rewrite H.
  apply match_token_shorter in H.
  rewrite (sub_tokens_fuel (String.length r) (String.length after)); [reflexivity | lia | lia].
Qed.

Lemma sub_all_no_match (r : string) :
  match_token r = None ->
  sub_all f (String "{"%char r) = String "{"%char (sub_all f r).
Proof. intros H. unfold sub_all. simpl. now rewrite H. Qed.

(** Text without an opening brace is copied. *)
Lemma sub_all_no_open (s : string) :
  has_char "{"%char s = false -> sub_all f s = s.
Proof.
  induction s as [|c s IH]; intros H; [reflexivity|].
  rewrite has_char_cons in H. apply orb_false_iff in H as [H1 H2].
  rewrite sub_all_other by now rewrite Ascii.eqb_sym.
  now rewrite IH.
Qed.

(** Text before the first opening brace is copied. *)
Lemma sub_all_prefix (pre s : string) :
  has_char "{"%char pre = false -> sub_all f (pre +:+ s) = pre +:+ sub_all f s.
Proof.
  induction pre as [|c pre IH]; intros H; [reflexivity|].
  rewrite has_char_cons in H. apply orb_false_iff in H as [H1 H2].
  rewrite !sapp_cons, sub_all_other by now rewrite Ascii.eqb_sym.
  now rewrite IH.
Qed.

(** A token is replaced by its value, and the scan goes on after it. *)
Lemma sub_all_token (pre tok post : string) :
  has_char "{"%char pre = false ->
  tok <> "" ->
  has_char "{"%char tok = false -> has_char "}"%char tok = false ->
  sub_all f (pre +:+ "{" +:+ tok +:+ "}" +:+ post)
  = pre +:+ f tok +:+ sub_all f post.
Proof.
  intros Hpre Hne Ho Hc.
  rewrite sub_all_prefix by assumption. f_equal.
  change ("{" +:+ tok +:+ "}" +:+ post)
    with (String "{"%char (tok +:+ String "}"%char post)).
  apply sub_all_match. now apply match_token_token.
Qed.

(** The run found by [span_no_brace] is a prefix of the text and holds
    no brace. *)
Lemma span_no_brace_sound (s a b : string) :
  span_no_brace s = (a, b) ->
  s = a +:+ b /\ has_char "{"%char a = false /\ has_char "}"%char a = false.
Proof.
  revert a b. induction s as [|c s IH]; intros a b; simpl.
  - intros [= <- <-]. now rewrite has_char_nil.
  - destruct (is_brace c) eqn:Eb.
    + intros [= <- <-]. now rewrite has_char_nil.
    + destruct (span_no_brace s) as [a' b'] eqn:E. intros [= <- <-].
      destruct (IH a' b' eq_refl) as (-> & Ho & Hc).
      unfold is_brace in Eb. apply orb_false_iff in Eb as [Eo Ec].
      rewrite sapp_cons, !has_char_cons, Ho, Hc.
      rewrite (Ascii.eqb_sym "{"%char c), (Ascii.eqb_sym "}"%char c), Eo, Ec.
      now split.
Qed.

(** A match is a non-empty run without braces, closed by "}". *)
Lemma match_token_sound (s tok after : string) :
  match_token s = Some (tok, after) ->
  s = tok +:+ String "}"%char after /\ tok <> "" /\
  has_char "{"%char tok = false /\ has_char "}"%char tok = false.
Proof.
  unfold match_token. destruct (span_no_brace s) as [a b] eqn:E.
  apply span_no_brace_sound in E as (-> & Ho & Hc).
  destruct a as [|c a]; [discriminate|].
  destruct b as [|d b]; [discriminate|].
  destruct (Ascii.eqb_spec d "}"%char) as [->|Hd].
  - intros [= <- <-]. repeat split; try assumption. discriminate.
  - destruct d as [[] [] [] [] [] [] [] []]; try discriminate. now elim Hd.
Qed.

(** An opening brace ends the run: the run of a text followed by "{" is
    the run of the text. *)
Lemma span_no_brace_app_open (p rest : string) :
  span_no_brace (p +:+ String "{"%char rest)
  = (fst (span_no_brace p), snd (span_no_brace p) +:+ String "{"%char rest).
Proof.
  induction p as [|c p IH].
  - rewrite sapp_nil_l. reflexivity.
  - rewrite sapp_cons. simpl. destruct (is_brace c); [reflexivity|].
    rewrite IH. now destruct (span_no_brace p).
Qed.

(** A match that starts before an opening brace ends before it. *)
Lemma match_token_app_open (p rest : string) :
  match_token (p +:+ String "{"%char rest)
  = match match_token p with
    | Some (tok, after) => Some (tok, after +:+ String "{"%char rest)
    | None => None
    end.
Proof.
  unfold match_token. rewrite span_no_brace_app_open.
  destruct (span_no_brace p) as [a b]. cbn [fst snd].
  destruct a as [|c a]; [reflexivity|].
  destruct b as [|d b]; [reflexivity|].
  rewrite sapp_cons.
  destruct d as [[] [] [] [] [] [] [] []]; reflexivity.
Qed.

(** The scan of a text that is followed by an opening brace is the scan
    of the text alone: a brace that opens no token before it does not stop
    the scan, and no match crosses the opening brace. *)
Lemma sub_all_app_open (pre rest : string) :
  sub_all f (pre +:+ String "{"%char rest)
  = sub_all f pre +:+ sub_all f (String "{"%char rest).
Proof.
  remember (String.length pre) as n eqn:Hn.
  assert (Hle : String.length pre <= n) by lia. clear Hn.
  revert pre Hle. induction n as [|n IH]; intros pre Hle.
  - destruct pre; [reflexivity | simpl in Hle; lia].
  - destruct pre as [|c p]; [reflexivity|]. simpl in Hle.
    rewrite sapp_cons.
    destruct (Ascii.eqb_spec c "{"%char) as [->|Hc].
    + destruct (match_token p) as [[tok after]|] eqn:E.
      * rewrite (sub_all_match (p +:+ String "{"%char rest) tok
                   (after +:+ String "{"%char rest))
          by (rewrite match_token_app_open, E; reflexivity).
        rewrite (sub_all_match p tok after E).
        apply match_token_shorter in E.
        rewrite IH by lia. now rewrite sapp_assoc.
      * rewrite (sub_all_no_match (p +:+ String "{"%char rest))
          by (rewrite match_token_app_open, E; reflexivity).
        rewrite (sub_all_no_match p E), sapp_cons.
        now rewrite IH by lia.
    + apply Ascii.eqb_neq in Hc.
      rewrite !sub_all_other, sapp_cons by assumption.
      now rewrite IH by lia.
Qed.

(** A token is replaced by its value wherever it stands, also after
    braces that open or close no token. *)
Lemma sub_all_token_anywhere (pre tok post : string) :
  tok <> "" ->
  has_char "{"%char tok = false -> has_char "}"%char tok = false ->
  sub_all f (pre +:+ "{" +:+ tok +:+ "}" +:+ post)
  = sub_all f pre +:+ f tok +:+ sub_all f post.
Proof.
  intros Hne Ho Hc.
  change ("{" +:+ tok +:+ "}" +:+ post)
    with (String "{"%char (tok +:+ String "}"%char post)).
  rewrite sub_all_app_open. f_equal.
  apply sub_all_match. now apply match_token_token.
Qed.

(** A text in which no token stands is copied. *)
Lemma sub_all_no_token (text : string) :
  (forall a t b, t <> "" ->
     has_char "{"%char t = false -> has_char "}"%char t = false ->
     text <> a +:+ "{" +:+ t +:+ "}" +:+ b) ->
  sub_all f text = text.
Proof.
  induction text as [|c r IH]; intros Hno; [reflexivity|].
  assert (Hr : sub_all f r = r).
  { apply IH. intros a t b Hne Ho Hc ->.
    now apply (Hno (String c a) t b Hne Ho Hc). }
  destruct (Ascii.eqb_spec c "{"%char) as [->|Hc].
  - destruct (match_token r) as [[tok after]|] eqn:E.
    + apply match_token_sound in E as (-> & Hne & Ho & Hc).
      now elim (Hno "" tok after Hne Ho Hc).
    + now rewrite (sub_all_no_match r E), Hr.
  - apply Ascii.eqb_neq in Hc. now rewrite sub_all_other, Hr.
Qed.

End SubstitutionFacts.

Lemma resolve_text_sub_all (self : Resolver.PlaceholderResolver) (text : string) :
  Resolver.resolve_text self text = sub_all (Resolver._resolve_token self) text.
Proof.
  unfold Resolver.resolve_text.
  destruct text as [|c r]; [reflexivity|]. simpl truthy. simpl negb at 1.
  rewrite orb_false_l.
  destruct (has_char "{"%char (String c r)) eqn:E; simpl; [reflexivity|].
  symmetry. now apply sub_all_no_open.
Qed.

(** ** The resolver *)

Section ResolverFacts.

Import Resolver.

Variable parse_name_fn : string -> string * string.

(** The derived map has the six placeholder names as its keys, whatever
    the row holds. *)
Lemma derived_dom (hs : list string) (r : Row) (a b c : option string) :
  dom (_build_derived_defaults parse_name_fn hs r a b c)
  = list_to_set DERIVED_KEYS.
Proof.
  unfold _build_derived_defaults, DERIVED_KEYS.
  repeat case_match; rewrite ?dom_insert_L, dom_empty_L; set_solver.
Qed.

Lemma derived_keys (hs : list string) (r : Row) (key : string) :
  is_Some (_derived (new parse_name_fn hs r) !! key) <-> In key DERIVED_KEYS.
Proof.
  unfold new. cbn [_derived].
  rewrite <- elem_of_dom, derived_dom, elem_of_list_to_set.
  apply list_elem_of_In.
Qed.

Lemma find_eqb_Some (hs : list string) (key h : string) :
  find (fun h => String.eqb h key) hs = Some h -> h = key /\ In h hs.
Proof.
  intros H. apply find_some in H as [Hin E].
  apply String.eqb_eq in E. now split.
Qed.

Lemma find_eqb_In (hs : list string) (key : string) :
  In key hs -> find (fun h => String.eqb h key) hs = Some key.
Proof.
  induction hs as [|h hs IH]; [contradiction|]. simpl.
  destruct (String.eqb_spec h key) as [->|Hne]; [reflexivity|].
  intros [E|Hin]; [contradiction | now apply IH].
Qed.

Lemma find_eqb_None (hs : list string) (key : string) :
  (forall h, In h hs -> h <> key) ->
  find (fun h => String.eqb h key) hs = None.
Proof.
  intros H. destruct (find _ hs) as [h|] eqn:E; [|reflexivity].
  apply find_eqb_Some in E as [-> Hin]. now elim (H key).
Qed.

End ResolverFacts.

(** C5. Every token of a text is resolved by priority: the derived
    placeholder map first, looked up with the trimmed, lower-cased token
    (its keys are the six placeholder names); else the header of the
    header list that the token matches without regard to case, whose
    trimmed row value is substituted; else the empty text. The function is
    total: a token that resolves to nothing is not an error. This holds
    for every token of the text, wherever it stands: whatever text [pre]
    comes before "{tok}", braces that open or close no token included,
    the token is replaced by its value, and the texts before and after
    it are resolved on their own; a text in which no token stands is
    returned as it is. The two facts fix [resolve_text] on every text. *)
Theorem C5_resolution_priority
    (parse_name_fn : string -> string * string)
    (hs : list string) (r : Row) (tok : string) :
  let self := Resolver.new parse_name_fn hs r in
  let key := lower (strip tok) in
  (is_Some (Resolver._derived self !! key) <-> In key DERIVED_KEYS) /\
  (forall tok', lower (strip tok') = key ->
                Resolver._resolve_token self tok' = Resolver._resolve_token self tok) /\
  (forall v, Resolver._derived self !! key = Some v ->
             Resolver._resolve_token self tok = v) /\
  (Resolver._derived self !! key = None ->
   forall h, In h hs -> lower h = h -> lower (strip tok) = lower h ->
             Resolver._resolve_token self tok = strip (row_get r h)) /\
  (Resolver._derived self !! key = None ->
   (forall h, In h hs -> h <> key) ->
   Resolver._resolve_token self tok = "") /\
  (forall pre post,
     has_char "{"%char pre = false -> tok <> "" ->
     has_char "{"%char tok = false -> has_char "}"%char tok = false ->
     Resolver.resolve_text self (pre +:+ "{" +:+ tok +:+ "}" +:+ post)
     = pre +:+ Resolver._resolve_token self tok +:+ Resolver.resolve_text self post) /\
  (forall pre post,
     tok <> "" ->
     has_char "{"%char tok = false -> has_char "}"%char tok = false ->
     Resolver.resolve_text self (pre +:+ "{" +:+ tok +:+ "}" +:+ post)
     = Resolver.resolve_text self pre +:+ Resolver._resolve_token self tok
       +:+ Resolver.resolve_text self post) /\
  (forall text,
     (forall a t b, t <> "" ->
        has_char "{"%char t = false -> has_char "}"%char t = false ->
        text <> a +:+ "{" +:+ t +:+ "}" +:+ b) ->
     Resolver.resolve_text self text = text).
Proof.
  intros self key. split; [apply derived_keys|].
  split; [|split; [|split; [|split; [|split; [|split]]]]].
  - intros tok' Hk. unfold Resolver._resolve_token. fold key. now rewrite Hk.
  - intros v Hv. unfold Resolver._resolve_token. fold key. now rewrite Hv.
  - intros Hd h Hin Hlow Hk. unfold Resolver._resolve_token. fold key.
    rewrite Hd. rewrite Hlow in Hk. fold key in Hk. subst h.
    change (Resolver.headers self) with hs.
    now rewrite (find_eqb_In hs key Hin).
  - intros Hd Hno. unfold Resolver._resolve_token. fold key. rewrite Hd.
    change (Resolver.headers self) with hs.
    now rewrite (find_eqb_None hs key Hno).
  - intros pre post Hpre Hne Ho Hc.
    rewrite !resolve_text_sub_all. now apply sub_all_token.
  - intros pre post Hne Ho Hc.
    rewrite !resolve_text_sub_all. now apply sub_all_token_anywhere.
  - intros text Hno.
    rewrite resolve_text_sub_all. now apply sub_all_no_token.
Qed.

(** C7. When the resolved text holds no opening brace, resolving it again
    changes nothing. The substitution is one pass: the text before a token
    is kept as it is, the value of the token is inserted as it is, and the
    scan goes on in the source text after the token. *)
Theorem C7_resolve_text_idempotent
    (self : Resolver.PlaceholderResolver) (text : string)
    (Hout : has_char "{"%char (Resolver.resolve_text self text) = false) :
  Resolver.resolve_text self (Resolver.resolve_text self text)
  = Resolver.resolve_text self text /\
  (forall pre tok post,
     text = pre +:+ "{" +:+ tok +:+ "}" +:+ post ->
     has_char "{"%char pre = false -> tok <> "" ->
     has_char "{"%char tok = false -> has_char "}"%char tok = false ->
     Resolver.resolve_text self text
     = pre +:+ Resolver._resolve_token self tok +:+ Resolver.resolve_text self post) /\
  (has_char "{"%char text = false -> Resolver.resolve_text self text = text).
Proof.
  split; [|split].
  - rewrite (resolve_text_sub_all self (Resolver.resolve_text self text)).
    now apply sub_all_no_open.
  - intros pre tok post -> Hpre Hne Ho Hc.
    rewrite !resolve_text_sub_all. now apply sub_all_token.
  - intros H. rewrite resolve_text_sub_all. now apply sub_all_no_open.
Qed.

(** ** Template choice and the preview pass *)

Section PreviewFacts.

Import Preview.

Variable parse_name_fn : string -> string * string.
Variable is_generate_true_fn : Row -> bool.
Variable is_email_valid_fn : string -> bool.
Variable headers_lower : list string.
Variable templates : list Template.
Variable overrides : gmap string string.

Local Abbreviation choose :=
  (fun r fc => choose_template_for_row parse_name_fn r headers_lower templates
                 overrides fc).
Local Abbreviation step only :=
  (preview_step parse_name_fn is_generate_true_fn is_email_valid_fn
     headers_lower templates overrides only).
Local Abbreviation pass only :=
  (preview_pass parse_name_fn is_generate_true_fn is_email_valid_fn
     headers_lower templates overrides only).
Local Abbreviation eligible :=
  (eligible_of parse_name_fn is_generate_true_fn is_email_valid_fn headers_lower).
Local Abbreviation firm := (firm_of parse_name_fn headers_lower).
Local Abbreviation override := (override_of parse_name_fn headers_lower templates overrides).
Local Abbreviation entry := (entry_for parse_name_fn headers_lower).
Local Abbreviation rank := (firm_rank parse_name_fn is_generate_true_fn is_email_valid_fn
                    headers_lower).
Local Abbreviation rot := (_rotatable_templates templates).

(** [choose_template_for_row] is the override when one applies, and the
    rotation otherwise. *)
Lemma choose_spec (r : Row) (fc : gmap string nat) :
  choose r fc
  = match override r with
    | Some t => (Some t, true, fc)
    | None => rotate templates (firm r) fc
    end.
Proof.
  unfold choose_template_for_row, override_of, rotate, email_norm_of, firm_of.
  cbv zeta.
  destruct (truthy _); [|reflexivity].
  destruct (overrides !! _) as [tid|]; [|reflexivity].
  destruct (_template_by_id templates tid); reflexivity.
Qed.

Lemma rotate_nonempty (f : string) (fc : gmap string nat) :
  rot <> [] ->
  exists t,
    rot !! (default 0 (fc !! f) mod length rot) = Some t /\
    rotate templates f fc = (Some t, false, <[f := default 0 (fc !! f) + 1]> fc).
Proof.
  intros Hne. unfold rotate.
  destruct rot as [|t0 l] eqn:E; [contradiction|].
  set (n := default 0 (fc !! f)).
  replace (n + 1 - 1) with n by lia.
  destruct ((t0 :: l) !! (n mod length (t0 :: l))) as [t|] eqn:El.
  - exists t. split; reflexivity.
  - apply lookup_ge_None in El.
    pose proof (Nat.mod_upper_bound n (length (t0 :: l))) as Hb.
    simpl in Hb, El. lia.
Qed.

Lemma rotate_empty (f : string) (fc : gmap string nat) :
  rot = [] -> rotate templates f fc = (None, false, fc).
Proof. intros E. unfold rotate. now rewrite E. Qed.

(** The loop body on an eligible row. *)
Lemma step_eligible (only : bool) (st : PassState) (r : Row)
    (ch : option Template) (m : bool) (fc' : gmap string nat) :
  eligible r = true ->
  choose r (ps_firm_counts st) = (ch, m, fc') ->
  step only st r
  = {| ps_out := ps_out st ++ [entry r ch m true]; ps_firm_counts := fc' |}.
Proof.
  intros He Hc. unfold preview_step. cbv zeta. rewrite He.
  rewrite andb_false_r. rewrite Hc. unfold entry_for.
  unfold Resolver.get_first_last. cbn [fst snd].
  destruct ch; reflexivity.
Qed.

(** The loop body on a row that is not eligible. *)
Lemma step_ineligible (only : bool) (st : PassState) (r : Row) :
  eligible r = false ->
  step only st r
  = if only then st
    else {| ps_out := ps_out st ++ [entry r None false false];
            ps_firm_counts := ps_firm_counts st |}.
Proof.
  intros He. unfold preview_step. cbv zeta. rewrite He.
  destruct only; [reflexivity|]. reflexivity.
Qed.

Local Abbreviation from only :=
  (pass_from parse_name_fn is_generate_true_fn is_email_valid_fn headers_lower
     templates overrides only).
Local Abbreviation build rows only :=
  (build_preview_rows parse_name_fn is_generate_true_fn is_email_valid_fn rows
     headers_lower templates overrides only).

Lemma pass_nil (only : bool) (st : PassState) : pass only st [] = st.
Proof. reflexivity. Qed.

Lemma pass_cons (only : bool) (st : PassState) (r : Row) (rows : list Row) :
  pass only st (r :: rows) = pass only (step only st r) rows.
Proof. reflexivity. Qed.

Lemma pass_app (only : bool) (st : PassState) (a b : list Row) :
  pass only st (a ++ b) = pass only (pass only st a) b.
Proof. unfold preview_pass. apply fold_left_app. Qed.

(** The loop body appends to the output and reads nothing but the
    counters from the state. *)
Lemma step_frame (only : bool) (st : PassState) (r : Row) :
  step only st r
  = let st1 := step only {| ps_out := []; ps_firm_counts := ps_firm_counts st |} r in
    {| ps_out := ps_out st ++ ps_out st1; ps_firm_counts := ps_firm_counts st1 |}.
Proof.
  destruct (eligible r) eqn:He.
  - destruct (choose r (ps_firm_counts st)) as [[ch m] fc'] eqn:Hc.
    rewrite (step_eligible only st r ch m fc' He Hc).
    rewrite (step_eligible only
               {| ps_out := []; ps_firm_counts := ps_firm_counts st |}
               r ch m fc' He Hc).
    reflexivity.
  - rewrite !(step_ineligible only _ r He). destruct only; simpl.
    + rewrite app_nil_r. now destruct st.
    + reflexivity.
Qed.

(** The same for a whole pass. *)
Lemma pass_frame (only : bool) (rows : list Row) (st : PassState) :
  pass only st rows
  = {| ps_out := ps_out st ++ ps_out (from only (ps_firm_counts st) rows);
       ps_firm_counts := ps_firm_counts (from only (ps_firm_counts st) rows) |}.
Proof.
  unfold pass_from. revert st. induction rows as [|r rows IH]; intros st.
  - rewrite !pass_nil. simpl. rewrite app_nil_r. now destruct st.
  - rewrite !pass_cons. rewrite (step_frame only st r). cbv zeta.
    set (st1 := step only {| ps_out := []; ps_firm_counts := ps_firm_counts st |} r).
    rewrite IH. rewrite (IH st1). simpl. now rewrite app_assoc.
Qed.

Lemma build_eq (only : bool) (rows : list Row) :
  build rows only = ps_out (from only ∅ rows).
Proof. reflexivity. Qed.

(** The output for [pre ++ post] is the output for [pre] followed by the
    output of the pass over [post] from the counters left by [pre]. *)
Lemma build_app (only : bool) (pre post : list Row) :
  build (pre ++ post) only
  = build pre only
    ++ ps_out (from only (ps_firm_counts (from only ∅ pre)) post).
Proof.
  rewrite !build_eq. unfold pass_from at 1. rewrite pass_app.
  rewrite pass_frame. reflexivity.
Qed.

Lemma from_cons (only : bool) (fc : gmap string nat) (r : Row) (rows : list Row) :
  from only fc (r :: rows)
  = let st1 := step only {| ps_out := []; ps_firm_counts := fc |} r in
    {| ps_out := ps_out st1 ++ ps_out (from only (ps_firm_counts st1) rows);
       ps_firm_counts := ps_firm_counts (from only (ps_firm_counts st1) rows) |}.
Proof.
  unfold pass_from at 1. rewrite pass_cons. now rewrite pass_frame.
Qed.

Lemma from_app_counts (only : bool) (fc : gmap string nat) (a b : list Row) :
  ps_firm_counts (from only fc (a ++ b))
  = ps_firm_counts (from only (ps_firm_counts (from only fc a)) b).
Proof.
  unfold pass_from at 1. rewrite pass_app, pass_frame. reflexivity.
Qed.

Lemma template_by_id_Some (tid : string) (t : Template) :
  _template_by_id templates tid = Some t -> In t templates /\ t_id t = tid.
Proof.
  unfold _template_by_id. intros H. apply find_some in H as [Hin E].
  apply String.eqb_eq in E. now split.
Qed.

Lemma override_applies (r : Row) (tid : string) (t : Template) :
  email_norm_of parse_name_fn headers_lower r <> "" ->
  overrides !! email_norm_of parse_name_fn headers_lower r = Some tid ->
  _template_by_id templates tid = Some t ->
  override r = Some t.
Proof.
  intros He Hk Hf. unfold override_of. cbv zeta.
  apply truthy_true in He. now rewrite He, Hk.
Qed.

Lemma override_stale (r : Row) (tid : string) :
  overrides !! email_norm_of parse_name_fn headers_lower r = Some tid ->
  _template_by_id templates tid = None ->
  override r = None.
Proof.
  intros Hk Hf. unfold override_of. cbv zeta. rewrite Hk, Hf.
  now destruct (truthy _).
Qed.

(** C4. A row whose non-empty normalized email is a key of the override
    map, mapped to the id of a current template, gets that template with
    the manual flag set, also when the template is manual-only and so is
    not among the templates that rotation can choose. *)
Theorem C4_override_wins (r : Row) (fc : gmap string nat)
    (tid : string) (t : Template)
    (Hemail : email_norm_of parse_name_fn headers_lower r <> "")
    (Hkey : overrides !! email_norm_of parse_name_fn headers_lower r = Some tid)
    (Hfound : _template_by_id templates tid = Some t) :
  fst (choose r fc) = (Some t, true) /\
  In t templates /\ t_id t = tid /\
  (t_manual_only t = true -> ~ In t (_rotatable_templates templates)).
Proof.
  split; [|split; [|split]].
  - rewrite choose_spec, (override_applies r tid t Hemail Hkey Hfound).
    reflexivity.
  - now apply (template_by_id_Some tid t).
  - now apply (template_by_id_Some tid t).
  - intros Hm Hin. unfold _rotatable_templates in Hin.
    apply filter_In in Hin as [_ Hn]. rewrite Hm in Hn. discriminate.
Qed.

(** C10. A row that is resolved by a manual override leaves the firm
    counters as they were: the call returns the map it was given, the loop
    body keeps the counters, and the rows after it get the entries that
    they would get if the overridden row were not in the list. *)
Theorem C10_override_keeps_counters (r : Row) (tid : string) (t : Template)
    (Hemail : email_norm_of parse_name_fn headers_lower r <> "")
    (Hkey : overrides !! email_norm_of parse_name_fn headers_lower r = Some tid)
    (Hfound : _template_by_id templates tid = Some t) :
  (forall fc, snd (choose r fc) = fc) /\
  (forall only st, ps_firm_counts (step only st r) = ps_firm_counts st) /\
  (forall only pre post,
     drop (length (build (pre ++ [r]) only)) (build (pre ++ r :: post) only)
     = drop (length (build pre only)) (build (pre ++ post) only)).
Proof.
  pose proof (override_applies r tid t Hemail Hkey Hfound) as Ho.
  assert (Hstep : forall only st, ps_firm_counts (step only st r) = ps_firm_counts st).
  { intros only st. destruct (eligible r) eqn:He.
    - rewrite (step_eligible only st r (Some t) true (ps_firm_counts st) He);
        [reflexivity|].
      now rewrite choose_spec, Ho.
    - rewrite (step_ineligible only st r He). now destruct only. }
  split; [|split].
  - intros fc. now rewrite choose_spec, Ho.
  - exact Hstep.
  - intros only pre post.
    replace (pre ++ r :: post) with ((pre ++ [r]) ++ post)
      by now rewrite <- app_assoc.
    rewrite (build_app only (pre ++ [r]) post), (build_app only pre post).
    rewrite !drop_app_length. rewrite from_app_counts.
    replace (ps_firm_counts (from only (ps_firm_counts (from only ∅ pre)) [r]))
      with (ps_firm_counts (from only ∅ pre)); [reflexivity|].
    unfold pass_from at 2. rewrite pass_cons, pass_nil. now rewrite Hstep.
Qed.

Lemma rank_cons (f : string) (r : Row) (rows : list Row) :
  rank f (r :: rows)
  = (if eligible_at parse_name_fn is_generate_true_fn is_email_valid_fn
          headers_lower f r then 1 else 0) + rank f rows.
Proof. unfold firm_rank. simpl. now destruct (eligible_at _ _ _ _ _ _). Qed.

Lemma eligible_at_spec (f : string) (r : Row) :
  eligible_at parse_name_fn is_generate_true_fn is_email_valid_fn headers_lower f r
  = eligible r && String.eqb (firm r) f.
Proof. reflexivity. Qed.

(** The loop body on an eligible row that has no override, when some
    template can rotate: the row takes the next template of its firm and
    the counter of the firm goes up by one. *)
Lemma step_rotates (only : bool) (st : PassState) (r : Row) :
  rot <> [] -> eligible r = true -> override r = None ->
  exists t,
    rot !! (default 0 (ps_firm_counts st !! firm r) mod length rot) = Some t /\
    step only st r
    = {| ps_out := ps_out st ++ [entry r (Some t) false true];
         ps_firm_counts :=
           <[firm r := default 0 (ps_firm_counts st !! firm r) + 1]>
             (ps_firm_counts st) |}.
Proof.
  intros Hrot He Ho.
  destruct (rotate_nonempty (firm r) (ps_firm_counts st) Hrot) as (t & Ht & Hr).
  exists t. split; [exact Ht|].
  apply step_eligible; [exact He|]. now rewrite choose_spec, Ho.
Qed.

(** After a pass without applicable overrides, the counter of a firm key
    has grown by the number of eligible rows of that firm key. *)
Lemma counts_rotation (only : bool) (rows : list Row) :
  rot <> [] ->
  (forall r, In r rows -> eligible r = true -> override r = None) ->
  forall (fc : gmap string nat) (f : string),
    default 0 (ps_firm_counts (from only fc rows) !! f)
    = default 0 (fc !! f) + rank f rows.
Proof.
  intros Hrot. induction rows as [|r rows IH]; intros Hno fc f.
  - unfold pass_from, firm_rank. simpl. lia.
  - rewrite from_cons. cbv zeta. cbn [ps_firm_counts].
    rewrite IH by (intros r' Hin; apply Hno; now right).
    rewrite rank_cons, eligible_at_spec.
    destruct (eligible r) eqn:He.
    + destruct (step_rotates only {| ps_out := []; ps_firm_counts := fc |} r
                  Hrot He (Hno r (or_introl eq_refl) He)) as (t & _ & ->).
      cbn [ps_firm_counts andb].
      destruct (String.eqb_spec (firm r) f) as [<-|Hne].
      * rewrite lookup_insert_eq. simpl. lia.
      * rewrite lookup_insert_ne by assumption. lia.
    + rewrite (step_ineligible only _ r He). simpl.
      destruct only; simpl; lia.
Qed.

(** The output for a list of rows that ends with an eligible row. *)
Lemma build_snoc_rotates (only : bool) (pre : list Row) (r : Row) :
  rot <> [] ->
  (forall r', In r' pre -> eligible r' = true -> override r' = None) ->
  eligible r = true -> override r = None ->
  exists t,
    rot !! (rank (firm r) pre mod length rot) = Some t /\
    build (pre ++ [r]) only = build pre only ++ [entry r (Some t) false true].
Proof.
  intros Hrot Hno_pre He Hno_r.
  rewrite build_app, from_cons. cbv zeta.
  set (c := ps_firm_counts (from only ∅ pre)).
  destruct (step_rotates only {| ps_out := []; ps_firm_counts := c |} r
              Hrot He Hno_r) as (t & Ht & ->).
  cbn [ps_out ps_firm_counts] in *.
  exists t. split; [|reflexivity].
  subst c. rewrite (counts_rotation only pre Hrot Hno_pre ∅ (firm r)) in Ht.
  now rewrite lookup_empty in Ht.
Qed.

(** C3. In a pass without applicable overrides and with a non-empty
    rotatable list, an eligible row that is preceded by N-1 eligible rows
    of its firm key (the empty firm text is a key like any other) gets the
    template at index (N-1) mod the length of the rotatable list; the
    counter of a firm key ends as the number of its eligible rows; a row
    that is not eligible keeps every counter and gets no template. In
    particular, three rotating templates A, B, C and four eligible rows of
    one firm give A, B, C, A in row order. *)
Theorem C3_round_robin (only : bool) (rows : list Row)
    (Hrot : (_rotatable_templates templates) <> [])
    (Hno : forall r, In r rows -> eligible r = true -> override r = None) :
  (forall pre r post,
     rows = pre ++ r :: post -> eligible r = true ->
     exists t rest,
       (_rotatable_templates templates) !! (rank (firm r) pre mod length (_rotatable_templates templates)) = Some t /\
       build rows only = build pre only ++ entry r (Some t) false true :: rest) /\
  (forall f, default 0 (ps_firm_counts (from only ∅ rows) !! f) = rank f rows) /\
  (forall st r,
     eligible r = false ->
     ps_firm_counts (step only st r) = ps_firm_counts st /\
     (step only st r = st \/
      ps_out (step only st r) = ps_out st ++ [entry r None false false])) /\
  (forall A B C r1 r2 r3 r4,
     templates = [A; B; C] ->
     t_manual_only A = false -> t_manual_only B = false ->
     t_manual_only C = false ->
     rows = [r1; r2; r3; r4] ->
     eligible r1 = true -> eligible r2 = true ->
     eligible r3 = true -> eligible r4 = true ->
     firm r2 = firm r1 -> firm r3 = firm r1 -> firm r4 = firm r1 ->
     map p_template_id (build rows only)
     = [Some (t_id A); Some (t_id B); Some (t_id C); Some (t_id A)]).
Proof.
  assert (Hpos : forall pre r post,
     rows = pre ++ r :: post -> eligible r = true ->
     exists t rest,
       rot !! (rank (firm r) pre mod length rot) = Some t /\
       build rows only = build pre only ++ entry r (Some t) false true :: rest).
  { intros pre r post -> He.
    assert (Hno_pre : forall r', In r' pre -> eligible r' = true -> override r' = None).
    { intros r' Hin. apply Hno, in_or_app. now left. }
    assert (Hno_r : override r = None).
    { apply Hno; [|exact He]. apply in_or_app. right. now left. }
    destruct (build_snoc_rotates only pre r Hrot Hno_pre He Hno_r) as (t & Ht & Hb).
    exists t. eexists. split; [exact Ht|].
    replace (pre ++ r :: post) with ((pre ++ [r]) ++ post)
      by now rewrite <- app_assoc.
    rewrite build_app, Hb, <- app_assoc. reflexivity. }
  split; [exact Hpos|]. split; [|split].
  - intros f. rewrite (counts_rotation only rows Hrot Hno ∅ f).
    now rewrite lookup_empty.
  - intros st r He. rewrite (step_ineligible only st r He).
    destruct only; simpl; [now split; [|left] | now split; [|right]].
  - intros A B C r1 r2 r3 r4 Ht HA HB HC Hrows E1 E2 E3 E4 F2 F3 F4.
    assert (Hr : rot = [A; B; C]).
    { unfold _rotatable_templates. rewrite Ht. simpl. now rewrite HA, HB, HC. }
    assert (N1 : override r1 = None) by (apply Hno; [rewrite Hrows; simpl; tauto | exact E1]).
    assert (N2 : override r2 = None) by (apply Hno; [rewrite Hrows; simpl; tauto | exact E2]).
    assert (N3 : override r3 = None) by (apply Hno; [rewrite Hrows; simpl; tauto | exact E3]).
    assert (N4 : override r4 = None) by (apply Hno; [rewrite Hrows; simpl; tauto | exact E4]).
    assert (Hnil : forall r', In r' [] -> eligible r' = true -> override r' = None)
      by (intros r' []).
    destruct (build_snoc_rotates only [] r1 Hrot Hnil E1 N1) as (t1 & L1 & B1).
    assert (H1 : forall r', In r' [r1] -> eligible r' = true -> override r' = None)
      by (intros r' [<-|[]] _; exact N1).
    destruct (build_snoc_rotates only [r1] r2 Hrot H1 E2 N2) as (t2 & L2 & B2).
    assert (H2 : forall r', In r' [r1; r2] -> eligible r' = true -> override r' = None)
      by (intros r' [<-|[<-|[]]] _; assumption).
    destruct (build_snoc_rotates only [r1; r2] r3 Hrot H2 E3 N3) as (t3 & L3 & B3).
    assert (H3 : forall r', In r' [r1; r2; r3] -> eligible r' = true -> override r' = None)
      by (intros r' [<-|[<-|[<-|[]]]] _; assumption).
    destruct (build_snoc_rotates only [r1; r2; r3] r4 Hrot H3 E4 N4) as (t4 & L4 & B4).
    assert (EA : forall ri, eligible ri = true -> firm ri = firm r1 ->
                 eligible_at parse_name_fn is_generate_true_fn is_email_valid_fn
                   headers_lower (firm r1) ri = true).
    { intros ri Ei Fi. now rewrite eligible_at_spec, Ei, Fi, String.eqb_refl. }
    rewrite Hr in L1, L2, L3, L4.
    rewrite F2 in L2. rewrite F3 in L3. rewrite F4 in L4.
    unfold firm_rank in L1, L2, L3, L4. cbn [List.filter] in L1, L2, L3, L4.
    rewrite (EA r1 E1 eq_refl) in L2, L3, L4.
    rewrite (EA r2 E2 F2) in L3, L4. rewrite (EA r3 E3 F3) in L4.
    cbn in L1, L2, L3, L4.
    injection L1 as <-. injection L2 as <-. injection L3 as <-. injection L4 as <-.
    rewrite Hrows. simpl app in B1, B2, B3, B4.
    rewrite B4, B3, B2, B1. reflexivity.
Qed.

(** C1, as the code has it. A row whose normalized email is a key of the
    override map, mapped to an id that no template has, is handled as a
    row without an override: it enters the rotation. With a rotatable
    template it gets the next template of its firm, with the manual flag
    off, and the counter of the firm goes up; the preview entry shows that
    template. Only without any rotatable template is the result
    [(None, False)], the preview entry the dash with no template id, and
    the recipient left out of the generation. *)
Theorem C1_stale_override_rotates (r : Row) (tid : string)
    (Hkey : overrides !! email_norm_of parse_name_fn headers_lower r = Some tid)
    (Hstale : _template_by_id templates tid = None) :
  (forall fc, choose r fc = rotate templates (firm r) fc) /\
  (_rotatable_templates templates <> [] ->
   forall fc, exists t,
     (_rotatable_templates templates) !! (default 0 (fc !! firm r) mod length (_rotatable_templates templates)) = Some t /\
     choose r fc = (Some t, false, <[firm r := default 0 (fc !! firm r) + 1]> fc) /\
     (eligible r = true ->
      forall only st, ps_firm_counts st = fc ->
        ps_out (step only st r) = ps_out st ++ [entry r (Some t) false true])) /\
  (_rotatable_templates templates = [] ->
   (forall fc, choose r fc = (None, false, fc)) /\
   (eligible r = true ->
    forall only st,
      ps_out (step only st r) = ps_out st ++ [entry r None false true]) /\
   p_template_name (entry r None false true) = NO_TEMPLATE_NAME /\
   p_template_id (entry r None false true) = None /\
   (forall rows_by_email by_id subject resume dry_run gst,
      Generator.generate_step parse_name_fn headers_lower rows_by_email by_id
        subject resume dry_run gst (entry r None false true) = gst)).
Proof.
  pose proof (override_stale r tid Hkey Hstale) as Ho.
  assert (Hc : forall fc, choose r fc = rotate templates (firm r) fc).
  { intros fc. now rewrite choose_spec, Ho. }
  split; [exact Hc|]. split.
  - intros Hrot fc.
    destruct (rotate_nonempty (firm r) fc Hrot) as (t & Ht & Hr).
    exists t. split; [exact Ht|]. split; [now rewrite Hc|].
    intros He only st <-.
    rewrite (step_eligible only st r (Some t) false
               (<[firm r := default 0 (ps_firm_counts st !! firm r) + 1]>
                  (ps_firm_counts st)) He); [reflexivity|].
    now rewrite Hc.
  - intros Hrot.
    assert (Hn : forall fc, choose r fc = (None, false, fc)).
    { intros fc. rewrite Hc. now apply rotate_empty. }
    split; [exact Hn|]. split; [|split; [reflexivity|split; [reflexivity|]]].
    + intros He only st.
      now rewrite (step_eligible only st r None false (ps_firm_counts st) He
                     (Hn (ps_firm_counts st))).
    + intros rows_by_email by_id subject resume dry_run [count drafts].
      reflexivity.
Qed.

End PreviewFacts.

(** ** The preview over the store *)

Section StoreFacts.

Import Preview.

Variable parse_name_fn : string -> string * string.
Variable is_generate_true_fn : Row -> bool.
Variable is_email_valid_fn : string -> bool.
Variable headers_lower : list string.
Variable templates : list Template.
Variable overrides : gmap string string.

Local Abbreviation init := (mkPass [] ∅).

(** The two objects of a call stand at the end of the store that the
    call found. *)
Lemma heap_out (sigma : list Heap.Obj) (a b : Heap.Obj) :
  (sigma ++ [a; b]) !! length sigma = Some a.
Proof. induction sigma as [|o sigma IH]; [reflexivity | exact IH]. Qed.

Lemma heap_counts (sigma : list Heap.Obj) (a b : Heap.Obj) :
  (sigma ++ [a; b]) !! S (length sigma) = Some b.
Proof. induction sigma as [|o sigma IH]; [reflexivity | exact IH]. Qed.

Lemma heap_set_out (sigma : list Heap.Obj) (a b o : Heap.Obj) :
  <[length sigma := o]> (sigma ++ [a; b]) = sigma ++ [o; b].
Proof.
  induction sigma as [|x sigma IH]; [reflexivity|].
  simpl. now rewrite IH.
Qed.

Lemma heap_set_counts (sigma : list Heap.Obj) (a b o : Heap.Obj) :
  <[S (length sigma) := o]> (sigma ++ [a; b]) = sigma ++ [a; o].
Proof.
  induction sigma as [|x sigma IH]; [reflexivity|].
  simpl. f_equal. exact IH.
Qed.

Lemma heap_dict_get (sigma : list Heap.Obj) (l : list PreviewEntry)
    (d : gmap string nat) (k : string) :
  Heap.dict_get (sigma ++ [Heap.OList l; Heap.ODict d]) (S (length sigma)) k
  = d !! k.
Proof. unfold Heap.dict_get. now rewrite heap_counts. Qed.

Lemma heap_dict_set (sigma : list Heap.Obj) (l : list PreviewEntry)
    (d : gmap string nat) (k : string) (v : nat) :
  Heap.dict_set (sigma ++ [Heap.OList l; Heap.ODict d]) (S (length sigma)) k v
  = sigma ++ [Heap.OList l; Heap.ODict (<[k := v]> d)].
Proof. unfold Heap.dict_set. now rewrite heap_counts, heap_set_counts. Qed.

Lemma heap_list_append (sigma : list Heap.Obj) (l : list PreviewEntry)
    (d : gmap string nat) (e : PreviewEntry) :
  Heap.list_append (sigma ++ [Heap.OList l; Heap.ODict d]) (length sigma) e
  = sigma ++ [Heap.OList (l ++ [e]); Heap.ODict d].
Proof. unfold Heap.list_append. now rewrite heap_out, heap_set_out. Qed.

Lemma heap_list_read (sigma more : list Heap.Obj) (l : list PreviewEntry)
    (b : Heap.Obj) :
  Heap.list_read ((sigma ++ [Heap.OList l; b]) ++ more) (length sigma) = l.
Proof.
  unfold Heap.list_read.
  now rewrite (lookup_app_l_Some _ more _ _ (heap_out sigma (Heap.OList l) b)).
Qed.

Lemma heap_list_read_last (sigma : list Heap.Obj) (l : list PreviewEntry)
    (b : Heap.Obj) :
  Heap.list_read (sigma ++ [Heap.OList l; b]) (length sigma) = l.
Proof. unfold Heap.list_read. now rewrite heap_out. Qed.

(** The call on the store is the call on the counters behind the
    reference; only that object is updated. *)
Lemma heap_choose (r : Row) (sigma : list Heap.Obj) (l : list PreviewEntry)
    (d : gmap string nat) :
  Heap.choose_template_for_row parse_name_fn r headers_lower templates overrides
    (S (length sigma)) (sigma ++ [Heap.OList l; Heap.ODict d])
  = let '(t, m, d') :=
      choose_template_for_row parse_name_fn r headers_lower templates overrides d in
    (t, m, sigma ++ [Heap.OList l; Heap.ODict d']).
Proof.
  unfold Heap.choose_template_for_row, choose_template_for_row.
  rewrite heap_dict_set, !heap_dict_get, lookup_insert_eq. cbn [default].
  repeat case_match; reflexivity.
Qed.

Lemma heap_step (only : bool) (r : Row) (sigma : list Heap.Obj)
    (st : PassState) :
  Heap.preview_step parse_name_fn is_generate_true_fn is_email_valid_fn
    headers_lower templates overrides only (length sigma) (S (length sigma))
    (sigma ++ [Heap.OList (ps_out st); Heap.ODict (ps_firm_counts st)]) r
  = let st' := preview_step parse_name_fn is_generate_true_fn is_email_valid_fn
                 headers_lower templates overrides only st r in
    sigma ++ [Heap.OList (ps_out st'); Heap.ODict (ps_firm_counts st')].
Proof.
  unfold Heap.preview_step, preview_step, eligible_of. cbv zeta.
  destruct (only && negb _); [reflexivity|].
  destruct (Resolver.get_first_last _) as [first last].
  destruct (is_generate_true_fn r && is_email_valid_fn _).
  - rewrite heap_choose.
    destruct (choose_template_for_row _ _ _ _ _ _) as [[t m] d'].
    destruct t; cbn [ps_out ps_firm_counts]; now rewrite heap_list_append.
  - cbn [ps_out ps_firm_counts]. now rewrite heap_list_append.
Qed.

Lemma heap_pass (only : bool) (rows : list Row) (sigma : list Heap.Obj)
    (st : PassState) :
  fold_left
    (Heap.preview_step parse_name_fn is_generate_true_fn is_email_valid_fn
       headers_lower templates overrides only (length sigma) (S (length sigma)))
    rows (sigma ++ [Heap.OList (ps_out st); Heap.ODict (ps_firm_counts st)])
  = let st' := preview_pass parse_name_fn is_generate_true_fn is_email_valid_fn
                 headers_lower templates overrides only st rows in
    sigma ++ [Heap.OList (ps_out st'); Heap.ODict (ps_firm_counts st')].
Proof.
  revert st. induction rows as [|r rows IH]; intros st; [reflexivity|].
  cbn [fold_left]. rewrite heap_step. cbv zeta. rewrite IH. reflexivity.
Qed.

(** A call in any store: the reference returned is the first free one,
    the store is the one found with two objects more, the list of the
    pure pass and the counters that this pass leaves. *)
Lemma heap_build (only : bool) (rows : list Row) (sigma : list Heap.Obj) :
  Heap.build_preview_rows parse_name_fn is_generate_true_fn is_email_valid_fn
    rows headers_lower templates overrides only sigma
  = (length sigma,
     sigma ++
     [Heap.OList
        (build_preview_rows parse_name_fn is_generate_true_fn is_email_valid_fn
           rows headers_lower templates overrides only);
      Heap.ODict
        (ps_firm_counts
           (preview_pass parse_name_fn is_generate_true_fn is_email_valid_fn
              headers_lower templates overrides only init rows))]).
Proof.
  unfold Heap.build_preview_rows, Heap.alloc, build_preview_rows.
  rewrite length_app, Nat.add_1_r, <- app_assoc. cbn [app].
  f_equal. exact (heap_pass only rows sigma init).
Qed.

(** C6. Two calls of [build_preview_rows] on the same arguments return
    the same list, whatever store the calls run in. The calls are
    run one after the other, the second in the store that the first
    leaves, which holds the list and the firm counters of the first. Each
    call makes its own list and its own counters: the reference it
    returns was free before, no object that was in the store is changed
    (so the list of the first call is still intact after the second), and
    the list it returns is the one of the pure pass that starts from
    empty counters, which depends on the arguments alone. The preview
    inside [generate_emails] is such a call: in any store, the one left by
    a preview included, generation works on the list that the preview with
    [only_recipients] set has shown. *)
Theorem C6_preview_deterministic (rows : list Row) (only : bool)
    (subject : string) (resume : option string) (dry_run : bool)
    (sigma : list Heap.Obj) :
  let call :=
    Heap.build_preview_rows parse_name_fn is_generate_true_fn is_email_valid_fn
      rows headers_lower templates overrides only in
  let r1 := call sigma in
  let r2 := call (snd r1) in
  (sigma !! fst r1 = None /\ snd r1 !! fst r2 = None) /\
  (forall ref o, sigma !! ref = Some o -> snd r1 !! ref = Some o) /\
  (forall ref o, snd r1 !! ref = Some o -> snd r2 !! ref = Some o) /\
  Heap.list_read (snd r1) (fst r1)
  = build_preview_rows parse_name_fn is_generate_true_fn is_email_valid_fn
      rows headers_lower templates overrides only /\
  Heap.list_read (snd r2) (fst r2) = Heap.list_read (snd r1) (fst r1) /\
  Heap.list_read (snd r2) (fst r1) = Heap.list_read (snd r1) (fst r1) /\
  (forall sigma',
     fst (Heap.generate_emails parse_name_fn is_generate_true_fn
            is_email_valid_fn rows headers_lower templates overrides
            subject resume dry_run sigma')
     = fold_left
         (Generator.generate_step parse_name_fn headers_lower
            (Generator._build_rows_by_email parse_name_fn rows headers_lower)
            (Generator.templates_by_id templates) subject resume dry_run)
         (build_preview_rows parse_name_fn is_generate_true_fn
            is_email_valid_fn rows headers_lower templates overrides true)
         (0, [])) /\
  (only = true ->
   fst (Heap.generate_emails parse_name_fn is_generate_true_fn
          is_email_valid_fn rows headers_lower templates overrides
          subject resume dry_run (snd r2))
   = fold_left
       (Generator.generate_step parse_name_fn headers_lower
          (Generator._build_rows_by_email parse_name_fn rows headers_lower)
          (Generator.templates_by_id templates) subject resume dry_run)
       (Heap.list_read (snd r2) (fst r1)) (0, [])).
Proof.
  intros call r1 r2. subst r2 r1 call. rewrite !heap_build. cbn [fst snd].
  assert (Hgen : forall sigma',
     fst (Heap.generate_emails parse_name_fn is_generate_true_fn
            is_email_valid_fn rows headers_lower templates overrides
            subject resume dry_run sigma')
     = fold_left
         (Generator.generate_step parse_name_fn headers_lower
            (Generator._build_rows_by_email parse_name_fn rows headers_lower)
            (Generator.templates_by_id templates) subject resume dry_run)
         (build_preview_rows parse_name_fn is_generate_true_fn
            is_email_valid_fn rows headers_lower templates overrides true)
         (0, [])).
  { intros sigma'. unfold Heap.generate_emails. rewrite heap_build. cbn [fst].
    now rewrite heap_list_read_last. }
  split; [split|].
  - apply lookup_ge_None_2. lia.
  - apply lookup_ge_None_2. lia.
  - split; [intros ref o H; now apply lookup_app_l_Some|].
    split; [intros ref o H; now apply lookup_app_l_Some|].
    split; [apply heap_list_read_last|].
    split; [now rewrite !heap_list_read_last|].
    split; [now rewrite heap_list_read, heap_list_read_last|].
    split; [exact Hgen|].
    intros ->. now rewrite Hgen, heap_list_read.
Qed.

End StoreFacts.


(** ** Generation *)

Section GeneratorFacts.

Import Preview Generator.

Variable parse_name_fn : string -> string * string.
Variable is_generate_true_fn : Row -> bool.
Variable is_email_valid_fn : string -> bool.
Variable headers_lower : list string.
Variable templates : list Template.
Variable overrides : gmap string string.

Local Abbreviation norm := (email_norm_of parse_name_fn headers_lower).
Local Abbreviation eligible :=
  (eligible_of parse_name_fn is_generate_true_fn is_email_valid_fn headers_lower).
Local Abbreviation entry := (entry_for parse_name_fn headers_lower).
Local Abbreviation build rows only :=
  (build_preview_rows parse_name_fn is_generate_true_fn is_email_valid_fn rows
     headers_lower templates overrides only).
Local Abbreviation rows_by_email rows :=
  (_build_rows_by_email parse_name_fn rows headers_lower).

(** The dictionary of templates by id. *)
Lemma by_id_fold_other (l : list Template) (acc : gmap string Template)
    (tid : string) :
  (forall t, In t l -> t_id t <> tid) ->
  fold_left (fun m t => <[t_id t := t]> m) l acc !! tid = acc !! tid.
Proof.
  revert acc. induction l as [|a l IH]; intros acc H; [reflexivity|].
  simpl. rewrite IH by (intros t Ht; apply H; now right).
  apply lookup_insert_ne, H. now left.
Qed.

Lemma by_id_fold_some (l : list Template) (acc : gmap string Template)
    (tid : string) :
  is_Some (acc !! tid) ->
  is_Some (fold_left (fun m t => <[t_id t := t]> m) l acc !! tid).
Proof.
  revert acc. induction l as [|a l IH]; intros acc H; [exact H|].
  simpl. apply IH.
  destruct (String.eqb_spec (t_id a) tid) as [<-|Hne].
  - rewrite lookup_insert_eq. eauto.
  - now rewrite lookup_insert_ne.
Qed.

Lemma by_id_fold_In (l : list Template) (acc : gmap string Template)
    (t : Template) :
  In t l ->
  is_Some (fold_left (fun m t => <[t_id t := t]> m) l acc !! t_id t).
Proof.
  revert acc. induction l as [|a l IH]; intros acc; [contradiction|].
  intros [->|Hin]; simpl.
  - apply by_id_fold_some. rewrite lookup_insert_eq. eauto.
  - now apply IH.
Qed.

Lemma by_id_fold_unique (l : list Template) (acc : gmap string Template)
    (t : Template) :
  NoDup (map t_id l) -> In t l ->
  fold_left (fun m t => <[t_id t := t]> m) l acc !! t_id t = Some t.
Proof.
  revert acc. induction l as [|a l IH]; intros acc Hnd; [contradiction|].
  simpl in Hnd. apply NoDup_cons in Hnd as [Hna Hnd].
  intros [->|Hin]; simpl.
  - rewrite by_id_fold_other; [apply lookup_insert_eq|].
    intros t' Ht' E. apply Hna, list_elem_of_In, in_map_iff. now exists t'.
  - now apply IH.
Qed.

(** With pairwise distinct ids, [_template_by_id] finds the template. *)
Lemma find_id_unique (l : list Template) (t : Template) :
  NoDup (map t_id l) -> In t l ->
  find (fun t' => String.eqb (t_id t') (t_id t)) l = Some t.
Proof.
  induction l as [|a l IH]; [contradiction|].
  intros Hnd Hin. simpl in Hnd. apply NoDup_cons in Hnd as [Hna Hnd]. simpl.
  destruct (String.eqb_spec (t_id a) (t_id t)) as [Ea|Ea].
  - destruct Hin as [->|Hin]; [reflexivity|].
    elim Hna. apply list_elem_of_In, in_map_iff. now exists t.
  - destruct Hin as [->|Hin]; [contradiction|]. now apply IH.
Qed.

Lemma templates_by_id_In (t : Template) :
  In t templates -> is_Some (templates_by_id templates !! t_id t).
Proof. apply by_id_fold_In. Qed.

Lemma templates_by_id_unique (t : Template) :
  NoDup (map t_id templates) -> In t templates ->
  templates_by_id templates !! t_id t = Some t /\
  _template_by_id templates (t_id t) = Some t.
Proof.
  intros Hnd Hin. split.
  - now apply by_id_fold_unique.
  - now apply find_id_unique.
Qed.

(** The dictionary of rows by normalized email. *)
Local Abbreviation add_row :=
  (fun (result : gmap string Row) (r : Row) =>
     let email :=
       strip (lower (Resolver.get_email (Resolver.new parse_name_fn headers_lower r))) in
     if truthy email then <[email := r]> result else result).

Lemma norm_nil : norm [] = "".
Proof.
  unfold email_norm_of, Resolver.get_email, Resolver.new. cbn [Resolver._email_header Resolver.row].
  now destruct (Resolver._first_contains_header _ _ _).
Qed.

Lemma rbe_fold_some (l : list Row) (acc : gmap string Row) (k : string) :
  is_Some (acc !! k) -> is_Some (fold_left add_row l acc !! k).
Proof.
  revert acc. induction l as [|a l IH]; intros acc H; [exact H|].
  simpl. apply IH. destruct (truthy _); [|exact H].
  match goal with |- is_Some (<[?e := _]> _ !! _) =>
    destruct (String.eqb_spec e k) as [<-|Hne] end.
  - rewrite lookup_insert_eq. eauto.
  - now rewrite lookup_insert_ne.
Qed.

Lemma rbe_fold_complete (l : list Row) (acc : gmap string Row) (r : Row) :
  In r l -> norm r <> "" -> is_Some (fold_left add_row l acc !! norm r).
Proof.
  revert acc. induction l as [|a l IH]; intros acc; [contradiction|].
  intros [->|Hin] Hne; simpl.
  - apply rbe_fold_some. apply truthy_true in Hne.
    unfold email_norm_of in Hne |- *. rewrite Hne, lookup_insert_eq. eauto.
  - now apply IH.
Qed.

Lemma rbe_fold_sound (l : list Row) (acc : gmap string Row) :
  (forall k v, acc !! k = Some v -> norm v = k /\ k <> "") ->
  forall k v, fold_left add_row l acc !! k = Some v -> norm v = k /\ k <> "".
Proof.
  revert acc. induction l as [|a l IH]; intros acc Hacc k v; [apply Hacc|].
  simpl. apply IH. intros k' v'.
  destruct (truthy _) eqn:Et; [|apply Hacc].
  match goal with |- <[?e := _]> _ !! _ = _ -> _ =>
    destruct (String.eqb_spec e k') as [<-|Hne] end.
  - rewrite lookup_insert_eq. intros [= <-]. split; [reflexivity|].
    now apply truthy_true.
  - rewrite lookup_insert_ne by assumption. apply Hacc.
Qed.

(** A row with a non-empty normalized email is registered under it, and
    what is registered under an email is a non-empty row. *)
Lemma rows_by_email_lookup (rows : list Row) (r : Row) :
  In r rows -> norm r <> "" ->
  exists r' c l, rows_by_email rows !! norm r = Some r' /\ r' = c :: l.
Proof.
  intros Hin Hne.
  destruct (rbe_fold_complete rows ∅ r Hin Hne) as [r' Hr'].
  assert (Hs : norm r' = norm r /\ norm r <> "").
  { apply (rbe_fold_sound rows ∅); [|exact Hr'].
    intros k v Hkv. now rewrite lookup_empty in Hkv. }
  destruct r' as [|c l].
  - destruct Hs as [Hs _]. rewrite norm_nil in Hs. now elim Hne.
  - exists (c :: l), c, l. split; [exact Hr' | reflexivity].
Qed.

(** The template that [choose_template_for_row] returns is one of the
    templates. *)
Lemma choose_in (r : Row) (fc : gmap string nat) (t : Template) :
  fst (fst (choose_template_for_row parse_name_fn r headers_lower templates
              overrides fc)) = Some t ->
  In t templates.
Proof.
  rewrite choose_spec. unfold override_of. cbv zeta.
  assert (Hrot : fst (fst (rotate templates (firm_of parse_name_fn headers_lower r) fc))
                 = Some t -> In t templates).
  { unfold rotate. destruct (_rotatable_templates templates) as [|a l] eqn:E;
      [discriminate|].
    cbn [fst]. intros H. apply list_elem_of_lookup_2, list_elem_of_In in H.
    rewrite <- E in H. unfold _rotatable_templates in H.
    now apply filter_In in H. }
  destruct (truthy _); [|exact Hrot].
  destruct (overrides !! _) as [tid|]; [|exact Hrot].
  destruct (_template_by_id templates tid) as [t'|] eqn:Ef; [|exact Hrot].
  cbn [fst]. intros [= <-]. unfold _template_by_id in Ef.
  now apply find_some in Ef.
Qed.

(** Every entry of the preview of the eligible rows comes from an
    eligible row and names a template of the list, if any. *)
Lemma pass_from_preview (rows rows' : list Row) :
  (forall r, In r rows' -> In r rows) ->
  forall st,
    Forall (from_preview parse_name_fn is_generate_true_fn is_email_valid_fn
              headers_lower templates rows) (ps_out st) ->
    Forall (from_preview parse_name_fn is_generate_true_fn is_email_valid_fn
              headers_lower templates rows)
      (ps_out (preview_pass parse_name_fn is_generate_true_fn is_email_valid_fn
                 headers_lower templates overrides true st rows')).
Proof.
  induction rows' as [|r rows' IH]; intros Hsub st Hst; [exact Hst|].
  rewrite pass_cons. apply IH; [intros r' Hr'; apply Hsub; now right|].
  destruct (eligible r) eqn:He.
  - destruct (choose_template_for_row parse_name_fn r headers_lower templates
                overrides (ps_firm_counts st)) as [[ch m] fc'] eqn:Hc.
    rewrite (step_eligible _ _ _ _ _ _ true st r ch m fc' He Hc).
    cbn [ps_out]. apply Forall_app. split; [exact Hst|].
    constructor; [|constructor].
    exists r, ch, m. split; [apply Hsub; now left|]. split; [exact He|].
    split; [|reflexivity].
    intros t ->. apply (choose_in r (ps_firm_counts st)). now rewrite Hc.
  - now rewrite (step_ineligible _ _ _ _ _ _ true st r He).
Qed.

Lemma build_from_preview (rows : list Row) :
  Forall (from_preview parse_name_fn is_generate_true_fn is_email_valid_fn
            headers_lower templates rows) (build rows true).
Proof.
  unfold build_preview_rows. apply pass_from_preview; [auto|constructor].
Qed.

Local Abbreviation gen_step rows subject resume dry_run :=
  (generate_step parse_name_fn headers_lower (rows_by_email rows)
     (templates_by_id templates) subject resume dry_run).
Local Abbreviation draft rows subject resume :=
  (draft_for parse_name_fn headers_lower templates rows subject resume).
Local Abbreviation previewed rows :=
  (from_preview parse_name_fn is_generate_true_fn is_email_valid_fn
     headers_lower templates rows).

Lemma norm_nonempty_email (r : Row) :
  norm r <> "" ->
  Resolver.get_email (Resolver.new parse_name_fn headers_lower r) <> "".
Proof.
  unfold email_norm_of. intros H E. rewrite E in H. now apply H.
Qed.

Lemma email_nonempty_norm (r : Row) :
  Resolver.get_email (Resolver.new parse_name_fn headers_lower r) <> "" ->
  norm r <> "".
Proof.
  unfold email_norm_of, Resolver.get_email.
  destruct (Resolver._email_header _); rewrite norm_of_strip, lower_nil_iff; auto.
Qed.

(** The loop body of [generate_emails] on an entry of the preview, when
    the ids of the templates are pairwise distinct. *)
Lemma generate_step_spec (rows : list Row) (subject : string)
    (resume : option string) (dry_run : bool) (c : nat) (ds : list Draft)
    (e : PreviewEntry) :
  NoDup (map t_id templates) ->
  previewed rows e ->
  (generates e = false ->
   gen_step rows subject resume dry_run (c, ds) e = (c, ds)) /\
  (generates e = true ->
   exists d,
     draft rows subject resume e = Some d /\
     gen_step rows subject resume dry_run (c, ds) e
     = (c + 1, if dry_run then ds else ds ++ [d])).
Proof.
  intros Huniq (r & ch & m & Hin & He & Hch & ->).
  unfold generates, generate_step, draft_for, entry_for. cbv zeta.
  cbn [p_email p_email_norm p_template_id].
  fold (norm r).
  set (em := Resolver.get_email (Resolver.new parse_name_fn headers_lower r)).
  assert (Hnorm : (if truthy (norm r) then norm r else norm r) = norm r)
    by now destruct (truthy (norm r)).
  rewrite Hnorm.
  destruct ch as [t|]; [|split; [reflexivity | rewrite andb_false_r; discriminate]].
  destruct (truthy (norm r)) eqn:En; cbn [andb negb orb];
    [|split; [reflexivity | discriminate]].
  destruct (truthy (t_id t)) eqn:Et; cbn [negb];
    [|split; [reflexivity | discriminate]].
  split; [discriminate|]. intros _.
  apply truthy_true in En.
  destruct (rows_by_email_lookup rows r Hin En) as (r' & c0 & l & -> & ->).
  destruct (templates_by_id_unique t Huniq (Hch t eq_refl)) as [-> ->].
  pose proof (norm_nonempty_email r En) as Hem. apply truthy_true in Hem.
  fold em in Hem. rewrite Hem.
  eexists. split; [reflexivity|]. now destruct dry_run.
Qed.

(** An entry of the preview has a template exactly when it passes the
    guard of the generation loop, provided that no template has the empty
    id and that the empty email is not valid. *)
Lemma generates_has_template (rows : list Row) (e : PreviewEntry) :
  is_email_valid_fn "" = false ->
  (forall t, In t templates -> t_id t <> "") ->
  previewed rows e ->
  generates e = has_template e.
Proof.
  intros Hvalid Hids (r & ch & m & Hin & He & Hch & ->).
  unfold generates, has_template, entry_for.
  cbn [p_email_norm p_template_id].
  destruct ch as [t|]; [|apply andb_false_r].
  apply andb_true_iff. split.
  - apply truthy_true. fold (norm r). apply email_nonempty_norm.
    intros E. unfold eligible_of in He. apply andb_true_iff in He as [_ He].
    rewrite E, Hvalid in He. discriminate.
  - apply truthy_true, Hids, Hch. reflexivity.
Qed.

Lemma generate_fold (rows : list Row) (subject : string)
    (resume : option string) (dry_run : bool) :
  is_email_valid_fn "" = false ->
  (forall t, In t templates -> t_id t <> "") ->
  NoDup (map t_id templates) ->
  forall es, Forall (previewed rows) es ->
  forall c ds,
  exists made,
    Forall2 (fun e d => draft rows subject resume e = Some d)
      (List.filter has_template es) made /\
    fold_left (gen_step rows subject resume dry_run) es (c, ds)
    = (c + length (List.filter has_template es),
       if dry_run then ds else ds ++ made).
Proof.
  intros Hvalid Hids Huniq es. induction es as [|e es IH]; intros Hes c ds.
  - exists []. split; [constructor|]. simpl. rewrite Nat.add_0_r, app_nil_r.
    now destruct dry_run.
  - apply Forall_cons in Hes as [He Hes]. cbn [fold_left].
    pose proof (generates_has_template rows e Hvalid Hids He) as Hg.
    destruct (generate_step_spec rows subject resume dry_run c ds e Huniq He)
      as [Hskip Hmake].
    cbn [List.filter]. destruct (has_template e).
    + destruct (Hmake Hg) as (d & Hd & ->).
      destruct (IH Hes (c + 1) (if dry_run then ds else ds ++ [d]))
        as (made & Hmade & ->).
      exists (d :: made). split; [now constructor|].
      f_equal; [simpl; lia|]. destruct dry_run; [reflexivity|].
      now rewrite <- app_assoc.
    + rewrite (Hskip Hg). apply IH, Hes.
Qed.

(** C2, as the code has it. When the validity callback rejects the empty
    email and the templates have pairwise distinct, non-empty ids, every
    entry of the preview of the eligible rows that has a template id
    yields one draft, made from the template of that id, in the order of
    the preview, and the count that [generate_emails] returns, with or
    without [dry_run], is the number of those entries. The template of
    that id is the one that the entry names. *)
Theorem C2_preview_generation_agree (rows : list Row) (subject : string)
    (resume : option string) (dry_run : bool)
    (Hvalid : is_email_valid_fn "" = false)
    (Hids : forall t, In t templates -> t_id t <> "")
    (Huniq : NoDup (map t_id templates)) :
  let assigned := List.filter has_template (build rows true) in
  let result :=
    generate_emails parse_name_fn is_generate_true_fn is_email_valid_fn rows
      headers_lower templates overrides subject resume dry_run in
  fst result = length assigned /\
  (dry_run = true -> snd result = []) /\
  (dry_run = false ->
   Forall2 (fun e d => draft rows subject resume e = Some d)
     assigned (snd result)) /\
  Forall (fun e => exists t,
            p_template_id e = Some (t_id t) /\
            p_template_name e = t_name t /\
            _template_by_id templates (t_id t) = Some t) assigned.
Proof.
  cbv zeta. unfold generate_emails.
  destruct (generate_fold rows subject resume dry_run Hvalid Hids Huniq
              (build rows true) (build_from_preview rows) 0 [])
    as (made & Hmade & ->).
  cbn [fst snd]. split; [reflexivity|]. split; [now intros ->|].
  split; [now intros ->|].
  apply List.Forall_forall. intros e He. apply filter_In in He as [He Ht].
  pose proof (build_from_preview rows) as Hall.
  rewrite List.Forall_forall in Hall.
  destruct (Hall e He) as (r & ch & m & _ & _ & Hch & ->).
  destruct ch as [t|]; [|discriminate].
  exists t. split; [reflexivity|]. split; [reflexivity|].
  now apply templates_by_id_unique, Hch.
Qed.

End GeneratorFacts.

(** ** The callbacks of the command line *)

Section CliFacts.

Import Cli.

Local Abbreviation add_key :=
  (fun (m : gmap string string) (kv : string * string) =>
     <[lower (fst kv) := fst kv]> m).

Lemma lower_keys_other (l : Row) (acc : gmap string string) (key : string) :
  (forall k v, In (k, v) l -> lower k <> key) ->
  fold_left add_key l acc !! key = acc !! key.
Proof.
  revert acc. induction l as [|[k v] l IH]; intros acc H; [reflexivity|].
  simpl. rewrite IH by (intros k' v' Hin; apply (H k' v'); now right).
  apply lookup_insert_ne, (H k v). now left.
Qed.

(** The key registered under a lower-case name is the last key of the
    row that has this name in lower case. *)
Lemma lower_keys_last (pre post : Row) (k v key : string) :
  lower k = key ->
  (forall k' v', In (k', v') post -> lower k' <> key) ->
  lower_keys (pre ++ (k, v) :: post) !! key = Some k.
Proof.
  intros Hk Hpost. unfold lower_keys. rewrite fold_left_app. simpl.
  rewrite lower_keys_other by exact Hpost.
  rewrite Hk. apply lookup_insert_eq.
Qed.

Lemma lower_keys_none (r : Row) (key : string) :
  (forall k v, In (k, v) r -> lower k <> key) ->
  lower_keys r !! key = None.
Proof.
  intros H. unfold lower_keys. now rewrite lower_keys_other.
Qed.

(** In a dictionary, the value of a key is the value it is paired with. *)
Lemma row_get_at (pre post : Row) (k v : string) :
  NoDup (map fst (pre ++ (k, v) :: post)) ->
  row_get (pre ++ (k, v) :: post) k = v.
Proof.
  induction pre as [|[k' v'] pre IH]; intros Hnd; simpl.
  - now rewrite String.eqb_refl.
  - simpl in Hnd. apply NoDup_cons in Hnd as [Hnot Hnd].
    destruct (String.eqb_spec k' k) as [->|Hne]; [|now apply IH].
    elim Hnot. apply list_elem_of_In, in_map_iff. exists (k, v).
    split; [reflexivity|]. apply in_or_app. right. now left.
Qed.

End CliFacts.

(** C9. A row without a column named "generate" or "gen", in any
    letter case, is generate-enabled. Otherwise the column "generate", or
    else the column "gen", decides: the row is enabled when the trimmed,
    lower-cased value of that column is one of "1", "true", "yes", "y". *)
Theorem C9_generate_flag (r : Row) (Hdict : NoDup (map fst r)) :
  ((forall k v, In (k, v) r -> lower k <> "generate" /\ lower k <> "gen") ->
   Cli._is_generate_true r = true) /\
  (forall pre k v post,
     r = pre ++ (k, v) :: post -> lower k = "generate" ->
     (forall k' v', In (k', v') post -> lower k' <> "generate") ->
     Cli._is_generate_true r = Cli._parse_bool v) /\
  (forall pre k v post,
     r = pre ++ (k, v) :: post -> lower k = "gen" ->
     (forall k' v', In (k', v') post -> lower k' <> "gen") ->
     (forall k' v', In (k', v') r -> lower k' <> "generate") ->
     Cli._is_generate_true r = Cli._parse_bool v) /\
  (forall v, Cli._parse_bool v = true <->
             In (lower (strip v)) ["1"; "true"; "yes"; "y"]).
Proof.
  split; [|split; [|split]].
  - intros H. unfold Cli._is_generate_true. cbv zeta.
    rewrite !lower_keys_none; [reflexivity| |];
      intros k v Hin; now destruct (H k v Hin).
  - intros pre k v post -> Hk Hpost. unfold Cli._is_generate_true. cbv zeta.
    rewrite (lower_keys_last pre post k v "generate" Hk Hpost).
    now rewrite row_get_at.
  - intros pre k v post -> Hk Hpost Hnone. unfold Cli._is_generate_true.
    cbv zeta. rewrite (lower_keys_none _ "generate" Hnone).
    rewrite (lower_keys_last pre post k v "gen" Hk Hpost).
    now rewrite row_get_at.
  - intros v. unfold Cli._parse_bool. apply str_in_In.
Qed.

(** C8, evaluated. [_wrap_in_html] drops the letters b and r at the two
    ends of the body together with the break markers, so the body is not
    left unchanged: the specified wrapping keeps the final b of "Hi Bob"
    and the first and last letters of "regards, Amber". *)
Theorem C8_wrap_drops_letters :
  Generator._wrap_in_html "Hi Bob"
  = "<html><body style='margin:0;padding:0;font-family:Arial,sans-serif;'>Hi Bo</body></html>" /\
  wrap_in_html_as_specified "Hi Bob"
  = "<html><body style='margin:0;padding:0;font-family:Arial,sans-serif;'>Hi Bob</body></html>" /\
  Generator._wrap_in_html "regards, Amber"
  = "<html><body style='margin:0;padding:0;font-family:Arial,sans-serif;'>egards, Ambe</body></html>" /\
  wrap_in_html_as_specified "regards, Amber"
  = "<html><body style='margin:0;padding:0;font-family:Arial,sans-serif;'>regards, Amber</body></html>" /\
  Generator._wrap_in_html "Hi Bob" <> wrap_in_html_as_specified "Hi Bob".
Proof. vm_compute. repeat split; discriminate. Qed.

(** ** The properties at the sample data *)

Section Samples.

Import Sample.

Local Abbreviation choose_cli r tpls ovr fc :=
  (Preview.choose_template_for_row Cli._parse_name r hs tpls ovr fc).
Local Abbreviation build_cli rows tpls ovr only :=
  (Preview.build_preview_rows Cli._parse_name Cli._is_generate_true
     Cli._is_email_valid rows hs tpls ovr only).
Local Abbreviation generate_cli rows tpls ovr subject dry_run :=
  (Generator.generate_emails Cli._parse_name Cli._is_generate_true
     Cli._is_email_valid rows hs tpls ovr subject None dry_run).
Local Abbreviation eligible_cli :=
  (Preview.eligible_of Cli._parse_name Cli._is_generate_true Cli._is_email_valid hs).

(** C1 fails as stated: with a rotatable template, the recipient of a
    stale override is given that template by the rotation, the preview
    names it, and a draft is generated. *)
Lemma C1_stale_override_counterexample :
  stale !! Preview.email_norm_of Cli._parse_name hs jane = Some "id-deleted" /\
  Preview._template_by_id [tA; tB; tM] "id-deleted" = None /\
  eligible_cli jane = true /\
  fst (choose_cli jane [tA; tB; tM] stale ∅) = (Some tA, false) /\
  fst (choose_cli jane [tA; tB; tM] stale ∅) <> (None, false) /\
  map p_template_name (build_cli [jane] [tA; tB; tM] stale true) = ["A"] /\
  map p_template_name (build_cli [jane] [tA; tB; tM] stale true)
    <> [NO_TEMPLATE_NAME] /\
  map p_template_id (build_cli [jane] [tA; tB; tM] stale true) = [Some "id-a"] /\
  fst (generate_cli [jane] [tA; tB; tM] stale "Hello" false) = 1.
Proof. vm_compute. repeat split; discriminate. Qed.

(** C2 fails as stated: an entry of the preview with the empty text as
    template id, or with an empty email that the validity callback
    accepts, has a template id that is not null and yet yields no draft. *)
Lemma C2_agreement_counterexample :
  (map p_template_id (build_cli [jane] [tE] ∅ true) = [Some ""] /\
   length (List.filter has_template (build_cli [jane] [tE] ∅ true)) = 1 /\
   generate_cli [jane] [tE] ∅ "Hello" false = (0, []) /\
   fst (generate_cli [jane] [tE] ∅ "Hello" true) = 0) /\
  (let preview :=
     Preview.build_preview_rows Cli._parse_name Cli._is_generate_true accept_all
       [anon] hs [tA] ∅ true in
   map p_template_id preview = [Some "id-a"] /\
   length (List.filter has_template preview) = 1 /\
   Generator.generate_emails Cli._parse_name Cli._is_generate_true accept_all
     [anon] hs [tA] ∅ "Hello" None false = (0, [])).
Proof. vm_compute. repeat split. Qed.

(** The value of a token is not scanned again: the braces that a row
    value brings are kept as they are. *)
Example resolve_text_single_pass :
  Resolver.resolve_text (Resolver.new Cli._parse_name hs jane)
    "To {First Name} {last name}: {notes} {unknown}!"
  = "To Jane Doe: met at {firm} !".
Proof. vm_compute. reflexivity. Qed.

(** A brace that opens or closes no token is kept, and the tokens that
    come after it are resolved all the same. *)
Example resolve_text_stray_braces :
  Resolver.resolve_text (Resolver.new Cli._parse_name hs jane)
    "{{firm}} a { b {Firm } {} }{name}"
  = "{Acme} a { b Acme {} }Jane Doe".
Proof. vm_compute. reflexivity. Qed.

(** The counters decide the outcome of a pass: from the counters that a
    pass over the same rows leaves, the rotation goes on where it stood.
    [build_preview_rows] starts from the empty map. *)
Example carried_counters_differ :
  let st1 := pass_from Cli._parse_name Cli._is_generate_true Cli._is_email_valid
               hs [tA; tB] ∅ true ∅ [jane] in
  map p_template_name (Preview.ps_out st1) = ["A"] /\
  map p_template_name
    (Preview.ps_out
       (pass_from Cli._parse_name Cli._is_generate_true Cli._is_email_valid
          hs [tA; tB] ∅ true (Preview.ps_firm_counts st1) [jane])) = ["B"] /\
  map p_template_name (build_cli [jane] [tA; tB] ∅ true) = ["A"].
Proof. vm_compute. repeat split. Qed.

(** The same over the store. After a first call, a loop that is handed
    the reference of the counters of that call goes on where they stood;
    a second call of [build_preview_rows] makes its own counters and
    starts again, though the counters of the first call are still in
    the store, with their count. *)
Example store_counters_shared_or_fresh :
  let r1 := Heap.build_preview_rows Cli._parse_name Cli._is_generate_true
              Cli._is_email_valid [jane] hs [tA; tB] ∅ true [] in
  let counts1 := S (fst r1) in
  let shared :=
    let '(out, sigma) := Heap.alloc (snd r1) (Heap.OList []) in
    Heap.list_read
      (fold_left
         (Heap.preview_step Cli._parse_name Cli._is_generate_true
            Cli._is_email_valid hs [tA; tB] ∅ true out counts1)
         [jane] sigma)
      out in
  let r2 := Heap.build_preview_rows Cli._parse_name Cli._is_generate_true
              Cli._is_email_valid [jane] hs [tA; tB] ∅ true (snd r1) in
  map p_template_name (Heap.list_read (snd r1) (fst r1)) = ["A"] /\
  Heap.dict_get (snd r1) counts1 "Acme" = Some 1 /\
  map p_template_name shared = ["B"] /\
  map p_template_name (Heap.list_read (snd r2) (fst r2)) = ["A"] /\
  Heap.dict_get (snd r2) counts1 "Acme" = Some 1 /\
  fst r2 <> fst r1.
Proof. vm_compute. repeat split; discriminate. Qed.

(** The example of the specification: two recipients of one firm and two
    templates. *)
Example preview_two_recipients :
  map (fun e => (p_name e, p_email e, p_email_norm e, p_firm e, p_template_name e))
    (build_cli [jane; bob] [tA; tB] ∅ true)
  = [("Jane Doe", "Jane@Acme.com", "jane@acme.com", "Acme", "A");
     ("Bob Lee", "bob@acme.com", "bob@acme.com", "Acme", "B")].
Proof. vm_compute. reflexivity. Qed.

(** The theorems with hypotheses, at the sample data. *)

Lemma C1_stale_override_rotates_witness :
  (stale !! Preview.email_norm_of Cli._parse_name hs jane = Some "id-deleted" /\
   Preview._template_by_id [tA; tB; tM] "id-deleted" = None) /\
  choose_cli jane [tA; tB; tM] stale ∅
  = rotate [tA; tB; tM] (Preview.firm_of Cli._parse_name hs jane) ∅.
Proof.
  assert (Hkey : stale !! Preview.email_norm_of Cli._parse_name hs jane
                 = Some "id-deleted") by (vm_compute; reflexivity).
  assert (Hstale : Preview._template_by_id [tA; tB; tM] "id-deleted" = None)
    by (vm_compute; reflexivity).
  split; [split; assumption|].
  exact (proj1 (C1_stale_override_rotates Cli._parse_name Cli._is_generate_true
                  Cli._is_email_valid hs [tA; tB; tM] stale jane "id-deleted"
                  Hkey Hstale) ∅).
Defined.

Lemma C2_preview_generation_agree_witness :
  (Cli._is_email_valid "" = false /\
   (forall t, In t [tA; tB; tM] -> t_id t <> "") /\
   NoDup (map t_id [tA; tB; tM])) /\
  fst (generate_cli [jane; zed; bob; eve] [tA; tB; tM] manual "Hello {firm}" false)
  = length (List.filter has_template
              (build_cli [jane; zed; bob; eve] [tA; tB; tM] manual true)).
Proof.
  assert (Hvalid : Cli._is_email_valid "" = false) by reflexivity.
  assert (Hids : forall t, In t [tA; tB; tM] -> t_id t <> "").
  { intros t [<-|[<-|[<-|[]]]]; discriminate. }
  assert (Huniq : NoDup (map t_id [tA; tB; tM])).
  { apply (bool_decide_unpack _). vm_compute. exact I. }
  split; [repeat split; assumption|].
  exact (proj1 (C2_preview_generation_agree Cli._parse_name Cli._is_generate_true
                  Cli._is_email_valid hs [tA; tB; tM] manual
                  [jane; zed; bob; eve] "Hello {firm}" None false
                  Hvalid Hids Huniq)).
Defined.

Lemma C3_round_robin_witness :
  (Preview._rotatable_templates [tA; tB; tC] <> [] /\
   (forall r, In r [jane; bob; cara; dan] -> eligible_cli r = true ->
              override_of Cli._parse_name hs [tA; tB; tC] ∅ r = None)) /\
  map p_template_id (build_cli [jane; bob; cara; dan] [tA; tB; tC] ∅ true)
  = [Some "id-a"; Some "id-b"; Some "id-c"; Some "id-a"].
Proof.
  assert (Hrot : Preview._rotatable_templates [tA; tB; tC] <> [])
    by (vm_compute; discriminate).
  assert (Hno : forall r, In r [jane; bob; cara; dan] -> eligible_cli r = true ->
                  override_of Cli._parse_name hs [tA; tB; tC] ∅ r = None).
  { intros r [<-|[<-|[<-|[<-|[]]]]] _; vm_compute; reflexivity. }
  split; [split; assumption|].
  apply (proj2 (proj2 (proj2
           (C3_round_robin Cli._parse_name Cli._is_generate_true
              Cli._is_email_valid hs [tA; tB; tC] ∅ true
              [jane; bob; cara; dan] Hrot Hno)))
           tA tB tC jane bob cara dan);
    vm_compute; reflexivity.
Defined.

Lemma C4_override_wins_witness :
  (Preview.email_norm_of Cli._parse_name hs jane <> "" /\
   manual !! Preview.email_norm_of Cli._parse_name hs jane = Some "id-m" /\
   Preview._template_by_id [tA; tB; tM] "id-m" = Some tM) /\
  t_manual_only tM = true /\
  fst (choose_cli jane [tA; tB; tM] manual ∅) = (Some tM, true).
Proof.
  assert (Hemail : Preview.email_norm_of Cli._parse_name hs jane <> "")
    by (vm_compute; discriminate).
  assert (Hkey : manual !! Preview.email_norm_of Cli._parse_name hs jane
                 = Some "id-m") by (vm_compute; reflexivity).
  assert (Hfound : Preview._template_by_id [tA; tB; tM] "id-m" = Some tM)
    by (vm_compute; reflexivity).
  split; [repeat split; assumption|]. split; [reflexivity|].
  exact (proj1 (C4_override_wins Cli._parse_name hs [tA; tB; tM] manual jane ∅
                  "id-m" tM Hemail Hkey Hfound)).
Defined.

Lemma C7_resolve_text_idempotent_witness :
  has_char "{"%char
    (Resolver.resolve_text (Resolver.new Cli._parse_name hs bob)
       "Dear {first name} of {firm}{notes}")
  = false /\
  Resolver.resolve_text (Resolver.new Cli._parse_name hs bob)
    (Resolver.resolve_text (Resolver.new Cli._parse_name hs bob)
       "Dear {first name} of {firm}{notes}")
  = Resolver.resolve_text (Resolver.new Cli._parse_name hs bob)
      "Dear {first name} of {firm}{notes}".
Proof.
  assert (Hout : has_char "{"%char
                   (Resolver.resolve_text (Resolver.new Cli._parse_name hs bob)
                      "Dear {first name} of {firm}{notes}") = false)
    by (vm_compute; reflexivity).
  split; [exact Hout|].
  exact (proj1 (C7_resolve_text_idempotent (Resolver.new Cli._parse_name hs bob)
                  "Dear {first name} of {firm}{notes}" Hout)).
Defined.

Lemma C9_generate_flag_witness :
  NoDup (map fst zed) /\
  Cli._is_generate_true zed = Cli._parse_bool "no".
Proof.
  assert (Hdict : NoDup (map fst zed)).
  { apply (bool_decide_unpack _). vm_compute. exact I. }
  split; [exact Hdict|].
  apply (proj1 (proj2 (C9_generate_flag zed Hdict))
           [("name", "Zed Ray"); ("firm", "Acme"); ("email", "zed@acme.com")]
           "generate" "no" [("notes", "")]).
  - reflexivity.
  - reflexivity.
  - intros k' v' [[= <- <-]|[]]. vm_compute. discriminate.
Defined.

Lemma C10_override_keeps_counters_witness :
  (Preview.email_norm_of Cli._parse_name hs jane <> "" /\
   manual !! Preview.email_norm_of Cli._parse_name hs jane = Some "id-m" /\
   Preview._template_by_id [tA; tB; tM] "id-m" = Some tM) /\
  snd (choose_cli jane [tA; tB; tM] manual {[ "Acme" := 2 ]}) = {[ "Acme" := 2 ]}.
Proof.
  assert (Hemail : Preview.email_norm_of Cli._parse_name hs jane <> "")
    by (vm_compute; discriminate).
  assert (Hkey : manual !! Preview.email_norm_of Cli._parse_name hs jane
                 = Some "id-m") by (vm_compute; reflexivity).
  assert (Hfound : Preview._template_by_id [tA; tB; tM] "id-m" = Some tM)
    by (vm_compute; reflexivity).
  split; [repeat split; assumption|].
  exact (proj1 (C10_override_keeps_counters Cli._parse_name Cli._is_generate_true
                  Cli._is_email_valid hs [tA; tB; tM] manual jane "id-m" tM
                  Hemail Hkey Hfound) {[ "Acme" := 2 ]}).
Defined.

End Samples.

(** * Further properties of the engine *)

(** ** The preview table *)

Section PreviewMore.

Import Preview.

Variable parse_name_fn : string -> string * string.
Variable is_generate_true_fn : Row -> bool.
Variable is_email_valid_fn : string -> bool.
Variable headers_lower : list string.
Variable templates : list Template.
Variable overrides : gmap string string.

Local Abbreviation step only :=
  (preview_step parse_name_fn is_generate_true_fn is_email_valid_fn
     headers_lower templates overrides only).
Local Abbreviation eligible :=
  (eligible_of parse_name_fn is_generate_true_fn is_email_valid_fn headers_lower).
Local Abbreviation entry := (entry_for parse_name_fn headers_lower).
Local Abbreviation from only :=
  (pass_from parse_name_fn is_generate_true_fn is_email_valid_fn headers_lower
     templates overrides only).
Local Abbreviation build rows only :=
  (build_preview_rows parse_name_fn is_generate_true_fn is_email_valid_fn rows
     headers_lower templates overrides only).
Local Abbreviation email_of r :=
  (Resolver.get_email (Resolver.new parse_name_fn headers_lower r)).

(** The two outcomes of the loop body, from an empty output. *)
Lemma step_cases (only : bool) (fc : gmap string nat) (r : Row) :
  (eligible r = true /\
   exists ch m fc',
     choose_template_for_row parse_name_fn r headers_lower templates overrides fc
     = (ch, m, fc') /\
     step only {| ps_out := []; ps_firm_counts := fc |} r
     = {| ps_out := [entry r ch m true]; ps_firm_counts := fc' |}) \/
  (eligible r = false /\
   step only {| ps_out := []; ps_firm_counts := fc |} r
   = {| ps_out := if only then [] else [entry r None false false];
        ps_firm_counts := fc |}).
Proof.
  destruct (eligible r) eqn:He; [left | right]; split; try reflexivity.
  - destruct (choose_template_for_row parse_name_fn r headers_lower templates
                overrides fc) as [[ch m] fc'] eqn:Hc.
    exists ch, m, fc'. split; [reflexivity|].
    now rewrite (step_eligible _ _ _ _ _ _ only {| ps_out := []; ps_firm_counts := fc |} r ch m fc' He Hc).
  - rewrite (step_ineligible _ _ _ _ _ _ only _ r He). now destruct only.
Qed.

Lemma pass_state_eta (st : PassState) :
  {| ps_out := [] ++ ps_out st; ps_firm_counts := ps_firm_counts st |} = st.
Proof. now destruct st. Qed.

(** The flag [only_recipients] changes which rows are shown, never the
    counters. *)
Lemma modes_agree (rows : list Row) (fc : gmap string nat) :
  ps_firm_counts (from false fc rows) = ps_firm_counts (from true fc rows) /\
  List.filter p_is_eligible (ps_out (from false fc rows))
  = ps_out (from true fc rows).
Proof.
  revert fc. induction rows as [|r rows IH]; intros fc; [now split|].
  rewrite !from_cons. cbv zeta.
  destruct (step_cases false fc r) as [(He & ch & m & fc' & Hc & ->)
                                      | (He & ->)].
  - rewrite (step_eligible _ _ _ _ _ _ true {| ps_out := []; ps_firm_counts := fc |} r ch m fc' He Hc).
    cbn [ps_out ps_firm_counts]. destruct (IH fc') as [IH1 IH2].
    split; [exact IH1|]. simpl. now rewrite IH2.
  - rewrite (step_ineligible _ _ _ _ _ _ true _ r He).
    cbn [ps_out ps_firm_counts]. destruct (IH fc) as [IH1 IH2].
    split; [exact IH1|]. simpl. exact IH2.
Qed.

(** X1. With [only_recipients] off the preview has one entry for each
    row, in the order of the rows, with the email and the eligibility of
    the row; an entry that is not eligible has no template. *)
Theorem preview_all_rows_shown (rows : list Row) :
  map (fun e => (p_email e, p_is_eligible e)) (build_preview_rows parse_name_fn is_generate_true_fn
       is_email_valid_fn rows headers_lower templates overrides false)
  = map (fun r => (email_of r, eligible r)) rows /\
  Forall (fun e => p_is_eligible e = false ->
                   p_template_id e = None /\
                   p_template_name e = NO_TEMPLATE_NAME /\
                   p_is_manual e = false)
    (build_preview_rows parse_name_fn is_generate_true_fn
       is_email_valid_fn rows headers_lower templates overrides false).
Proof.
  rewrite build_eq. generalize (∅ : gmap string nat).
  induction rows as [|r rows IH]; intros fc; [split; [reflexivity|constructor]|].
  rewrite from_cons. cbv zeta.
  destruct (step_cases false fc r) as [(He & ch & m & fc' & Hc & ->)
                                      | (He & ->)];
    cbn [ps_out ps_firm_counts]; destruct (IH fc') as [IH1 IH2] || destruct (IH fc) as [IH1 IH2].
  - split.
    + simpl. rewrite IH1, He. reflexivity.
    + constructor; [|exact IH2]. cbn. discriminate.
  - split.
    + simpl. rewrite IH1, He. reflexivity.
    + constructor; [|exact IH2]. intros _. repeat split.
Qed.

(** X2. The entries of the eligible rows are the same whether the rows
    that are not eligible are shown or not: switching [only_recipients]
    changes no template assignment. *)
Theorem preview_flag_keeps_assignments (rows : list Row) :
  List.filter p_is_eligible
    (build_preview_rows parse_name_fn is_generate_true_fn is_email_valid_fn
       rows headers_lower templates overrides false)
  = build_preview_rows parse_name_fn is_generate_true_fn is_email_valid_fn
      rows headers_lower templates overrides true /\
  Forall (fun e => p_is_eligible e = true)
    (build_preview_rows parse_name_fn is_generate_true_fn is_email_valid_fn
       rows headers_lower templates overrides true).
Proof.
  split.
  - rewrite !build_eq. apply modes_agree.
  - rewrite build_eq, <- (proj2 (modes_agree rows ∅)).
    apply List.Forall_forall. intros e He. now apply filter_In in He.
Qed.

(** Rows that are not eligible can be removed before the pass. *)
Lemma from_filter_eligible (rows : list Row) (fc : gmap string nat) :
  from true fc (List.filter eligible rows) = from true fc rows.
Proof.
  revert fc. induction rows as [|r rows IH]; intros fc; [reflexivity|].
  simpl. destruct (eligible r) eqn:He.
  - rewrite !from_cons. cbv zeta. now rewrite !IH.
  - rewrite IH, from_cons. cbv zeta.
    rewrite (step_ineligible _ _ _ _ _ _ true _ r He).
    cbn [ps_out ps_firm_counts]. now rewrite pass_state_eta.
Qed.

(** What [choose_template_for_row] returns with the manual flag on, and
    with the manual flag off. *)
Lemma choose_flag (r : Row) (fc fc' : gmap string nat)
    (ch : option Template) (m : bool) :
  choose_template_for_row parse_name_fn r headers_lower templates overrides fc
  = (ch, m, fc') ->
  (m = true ->
   exists t, ch = Some t /\ fc' = fc /\
             email_norm_of parse_name_fn headers_lower r <> "" /\
             overrides !! email_norm_of parse_name_fn headers_lower r
             = Some (t_id t) /\
             In t templates) /\
  (m = false ->
   forall t, ch = Some t ->
             In t (_rotatable_templates templates) /\ t_manual_only t = false).
Proof.
  rewrite choose_spec. unfold override_of. cbv zeta.
  assert (Hrot : rotate templates (firm_of parse_name_fn headers_lower r) fc
                 = (ch, m, fc') ->
                 m = false /\
                 forall t, ch = Some t ->
                   In t (_rotatable_templates templates) /\ t_manual_only t = false).
  { unfold rotate. destruct (_rotatable_templates templates) as [|a l] eqn:E.
    - intros [= <- <- <-]. split; [reflexivity | discriminate].
    - intros [= <- <- <-]. split; [reflexivity|]. intros t Ht.
      apply list_elem_of_lookup_2, list_elem_of_In in Ht.
      split; [exact Ht|]. rewrite <- E in Ht. unfold _rotatable_templates in Ht.
      apply filter_In in Ht as [_ Ht]. now apply negb_true_iff in Ht. }
  destruct (truthy _) eqn:Et.
  2:{ intros H. destruct (Hrot H) as [-> H2]. split; [discriminate | now intros _]. }
  destruct (overrides !! _) as [tid|] eqn:Eo.
  2:{ intros H. destruct (Hrot H) as [-> H2]. split; [discriminate | now intros _]. }
  destruct (_template_by_id templates tid) as [t|] eqn:Ef.
  2:{ intros H. destruct (Hrot H) as [-> H2]. split; [discriminate | now intros _]. }
  intros [= <- <- <-]. split; [|discriminate]. intros _.
  apply template_by_id_Some in Ef as [Hin <-].
  exists t. repeat split; try assumption. now apply truthy_true.
Qed.

(** X3. An entry marked manual belongs to a recipient whose non-empty
    normalized email is a key of the override map, and names the template
    of the mapped id; an entry with a template that is not marked manual
    names a template of the rotation, so a manual-only template is never
    given out by the rotation. *)
Theorem preview_manual_flag (rows : list Row) (only : bool) :
  Forall
    (fun e =>
       (p_is_manual e = true ->
        p_email_norm e <> "" /\
        exists t, overrides !! p_email_norm e = Some (t_id t) /\
                  In t templates /\
                  p_template_id e = Some (t_id t) /\
                  p_template_name e = t_name t) /\
       (p_is_manual e = false ->
        forall tid, p_template_id e = Some tid ->
          exists t, In t (_rotatable_templates templates) /\
                    t_manual_only t = false /\
                    t_id t = tid /\ p_template_name e = t_name t))
    (build_preview_rows parse_name_fn is_generate_true_fn
       is_email_valid_fn rows headers_lower templates overrides only).
Proof.
  rewrite build_eq. generalize (∅ : gmap string nat).
  induction rows as [|r rows IH]; intros fc; [constructor|].
  rewrite from_cons. cbv zeta.
  destruct (step_cases only fc r) as [(He & ch & m & fc' & Hc & ->)
                                     | (He & ->)];
    cbn [ps_out ps_firm_counts].
  - simpl. constructor; [|apply IH].
    destruct (choose_flag r fc fc' ch m Hc) as [Hman Hrot].
    unfold entry_for. cbn [p_is_manual p_email_norm p_template_id p_template_name].
    split.
    + destruct ch as [t0|]; [|discriminate]. intros ->.
      destruct (Hman eq_refl) as (t & [= ->] & _ & Hne & Hov & Hin).
      split; [exact Hne|]. exists t. repeat split; assumption.
    + destruct ch as [t0|]; [|discriminate]. intros -> tid [= <-].
      destruct (Hrot eq_refl t0 eq_refl) as [Hin Hm].
      exists t0. repeat split; assumption.
  - destruct only; simpl; [apply IH|].
    constructor; [|apply IH]. split; discriminate.
Qed.

(** The preview of the eligible rows has one entry for each of them. *)
Lemma from_true_length (rows : list Row) (fc : gmap string nat) :
  length (ps_out (from true fc rows)) = length (List.filter eligible rows).
Proof.
  revert fc. induction rows as [|r rows IH]; intros fc; [reflexivity|].
  rewrite from_cons. cbv zeta.
  destruct (step_cases true fc r) as [(He & ch & m & fc' & Hc & ->)
                                     | (He & ->)];
    cbn [ps_out ps_firm_counts]; simpl; rewrite He; simpl; now rewrite IH.
Qed.

End PreviewMore.

(** ** Generation *)

Section GeneratorMore.

Import Preview Generator.

Variable parse_name_fn : string -> string * string.
Variable is_generate_true_fn : Row -> bool.
Variable is_email_valid_fn : string -> bool.
Variable headers_lower : list string.
Variable templates : list Template.
Variable overrides : gmap string string.

Local Abbreviation norm := (email_norm_of parse_name_fn headers_lower).
Local Abbreviation rows_by_email rows :=
  (_build_rows_by_email parse_name_fn rows headers_lower).
Local Abbreviation generate rows subject resume dry_run :=
  (generate_emails parse_name_fn is_generate_true_fn is_email_valid_fn rows
     headers_lower templates overrides subject resume dry_run).

(** Whether the loop body makes a draft for an entry, and which, depends
    neither on [dry_run] nor on the count and the drafts so far. *)
Lemma generate_step_outcome (by_email : gmap string Row)
    (by_id : gmap string Template) (subject : string) (resume : option string)
    (e : PreviewEntry) :
  exists o : option Draft,
    forall dry_run c ds,
      generate_step parse_name_fn headers_lower by_email by_id subject resume
        dry_run (c, ds) e
      = match o with
        | None => (c, ds)
        | Some d => (c + 1, if dry_run then ds else ds ++ [d])
        end.
Proof.
  unfold generate_step.
  destruct (p_template_id e) as [tid|]; [|now exists None].
  destruct (negb _ || negb (truthy tid)); [now exists None|].
  destruct (by_email !! _) as [[|kv r]|]; [now exists None| |now exists None].
  destruct (by_id !! tid) as [tpl|]; [|now exists None].
  eexists (Some _). intros [] c ds; reflexivity.
Qed.

Lemma generate_fold_outcome (by_email : gmap string Row)
    (by_id : gmap string Template) (subject : string) (resume : option string)
    (es : list PreviewEntry) :
  exists made : list Draft,
    length made <= length es /\
    forall dry_run c ds,
      fold_left
        (generate_step parse_name_fn headers_lower by_email by_id subject resume
           dry_run) es (c, ds)
      = (c + length made, if dry_run then ds else ds ++ made).
Proof.
  induction es as [|e es (made & Hlen & IH)].
  - exists []. split; [reflexivity|]. intros dry c ds. simpl.
    rewrite Nat.add_0_r, app_nil_r. now destruct dry.
  - destruct (generate_step_outcome by_email by_id subject resume e) as [[d|] Ho].
    + exists (d :: made). split; [simpl; lia|]. intros dry c ds.
      cbn [fold_left]. rewrite Ho, IH. simpl length.
      f_equal; [lia|]. destruct dry; [reflexivity|]. now rewrite <- app_assoc.
    + exists made. split; [simpl; lia|]. intros dry c ds.
      cbn [fold_left]. now rewrite Ho, IH.
Qed.

(** X4. [dry_run] changes nothing but the hand-over to the mail sink: a
    dry run makes no draft and returns the count of the real run, the
    real run returns the number of drafts it made, and neither count
    exceeds the number of eligible rows shown by the preview. *)
Theorem dry_run_counts_the_same (rows : list Row) (subject : string)
    (resume : option string) :
  fst (generate rows subject resume true) = fst (generate rows subject resume false) /\
  snd (generate rows subject resume true) = [] /\
  length (snd (generate rows subject resume false))
  = fst (generate rows subject resume false) /\
  fst (generate rows subject resume false)
  <= length (build_preview_rows parse_name_fn is_generate_true_fn
               is_email_valid_fn rows headers_lower templates overrides true).
Proof.
  unfold generate_emails.
  destruct (generate_fold_outcome (rows_by_email rows) (templates_by_id templates)
              subject resume
              (build_preview_rows parse_name_fn is_generate_true_fn
                 is_email_valid_fn rows headers_lower templates overrides true))
    as (made & Hlen & H).
  rewrite !H. cbn [fst snd]. repeat split; simpl; lia.
Qed.

Local Abbreviation add_row :=
  (fun (result : gmap string Row) (r : Row) =>
     let email :=
       strip (lower (Resolver.get_email (Resolver.new parse_name_fn headers_lower r))) in
     if truthy email then <[email := r]> result else result).

Lemma rbe_fold_other (l : list Row) (acc : gmap string Row) (k : string) :
  (forall r, In r l -> norm r <> k) ->
  fold_left add_row l acc !! k = acc !! k.
Proof.
  revert acc. induction l as [|a l IH]; intros acc H; [reflexivity|].
  simpl. rewrite IH by (intros r Hr; apply H; now right).
  destruct (truthy _); [|reflexivity].
  apply lookup_insert_ne, (H a). now left.
Qed.

Lemma rbe_fold_member (l : list Row) (acc : gmap string Row) (k : string)
    (r : Row) :
  fold_left add_row l acc !! k = Some r -> In r l \/ acc !! k = Some r.
Proof.
  revert acc. induction l as [|a l IH]; intros acc; [now right|].
  simpl. intros H. apply IH in H as [H|H]; [left; now right|].
  destruct (truthy _); [|now right].
  match type of H with <[?e := _]> _ !! _ = _ =>
    destruct (String.eqb_spec e k) as [<-|Hne] end.
  - rewrite lookup_insert_eq in H. injection H as <-. left. now left.
  - rewrite lookup_insert_ne in H by assumption. now right.
Qed.

(** X5. The dictionary of rows by email: the last row of a non-empty
    normalized email is the one registered under it, a registered row is a
    row of the list with that email, and nothing is registered under the
    empty email. *)
Theorem rows_by_email_last_wins (rows : list Row) :
  (forall pre r post,
     rows = pre ++ r :: post ->
     email_norm_of parse_name_fn headers_lower r <> "" ->
     (forall r', In r' post ->
        email_norm_of parse_name_fn headers_lower r'
        <> email_norm_of parse_name_fn headers_lower r) ->
     _build_rows_by_email parse_name_fn rows headers_lower
       !! email_norm_of parse_name_fn headers_lower r = Some r) /\
  (forall k r,
     _build_rows_by_email parse_name_fn rows headers_lower !! k = Some r ->
     In r rows /\ email_norm_of parse_name_fn headers_lower r = k /\ k <> "") /\
  _build_rows_by_email parse_name_fn rows headers_lower !! "" = None.
Proof.
  assert (Hsound : forall k r, rows_by_email rows !! k = Some r ->
                               In r rows /\ norm r = k /\ k <> "").
  { intros k r H. split.
    - apply rbe_fold_member in H as [H|H]; [exact H|].
      now rewrite lookup_empty in H.
    - apply (rbe_fold_sound parse_name_fn headers_lower rows ∅); [|exact H].
      intros k' v Hkv. now rewrite lookup_empty in Hkv. }
  split; [|split; [exact Hsound|]].
  - intros pre r post -> Hne Hpost. unfold _build_rows_by_email.
    rewrite fold_left_app. cbn [fold_left].
    rewrite rbe_fold_other by exact Hpost.
    apply truthy_true in Hne. unfold email_norm_of in Hne |- *.
    rewrite Hne. apply lookup_insert_eq.
  - destruct (rows_by_email rows !! "") as [r|] eqn:E; [|reflexivity].
    now destruct (Hsound "" r E) as (_ & _ & []).
Qed.

End GeneratorMore.

(** ** The desktop application *)

Section PruneFacts.

Import Preview.

Variable templates : list Template.

Lemma find_id_some (l : list Template) (t : Template) :
  In t l -> is_Some (find (fun t' => String.eqb (t_id t') (t_id t)) l).
Proof.
  induction l as [|a l IH]; [contradiction|]. simpl.
  destruct (String.eqb_spec (t_id a) (t_id t)); [eauto|].
  intros [->|Hin]; [contradiction | now apply IH].
Qed.

Lemma valid_ids_spec (tid : string) :
  tid ∈ App.valid_ids templates <-> is_Some (_template_by_id templates tid).
Proof.
  unfold App.valid_ids, _template_by_id.
  rewrite elem_of_list_to_set, list_elem_of_In, in_map_iff. split.
  - intros (t & <- & Hin). now apply find_id_some.
  - intros [t Ht]. apply find_some in Ht as [Hin E].
    apply String.eqb_eq in E. now exists t.
Qed.

Lemma fold_delete_lookup (l : list string) (m : gmap string string) (k : string) :
  fold_left (fun m email => delete email m) l m !! k
  = if bool_decide (k ∈ l) then None else m !! k.
Proof.
  revert m. induction l as [|a l IH]; intros m; [reflexivity|].
  cbn [fold_left]. rewrite IH.
  destruct (bool_decide_reflect (k ∈ l)) as [Hin|Hin].
  - rewrite bool_decide_eq_true_2; [reflexivity | now right].
  - destruct (String.eqb_spec a k) as [->|Hne].
    + rewrite lookup_delete_eq. rewrite bool_decide_eq_true_2; [reflexivity | now left].
    + rewrite lookup_delete_ne by assumption.
      rewrite bool_decide_eq_false_2; [reflexivity|].
      intros E. apply list_elem_of_In in E as [E|E]; [congruence|].
      now apply Hin, list_elem_of_In.
Qed.

Lemma dead_emails_spec (overrides : gmap string string) (k : string) :
  In k (App.dead_emails templates overrides)
  <-> exists tid, overrides !! k = Some tid /\ _template_by_id templates tid = None.
Proof.
  unfold App.dead_emails. rewrite in_map_iff. split.
  - intros ([k' tid] & <- & Hin). apply filter_In in Hin as [Hin Hd].
    apply list_elem_of_In, elem_of_map_to_list in Hin.
    exists tid. split; [exact Hin|]. cbn [snd] in Hd.
    apply negb_true_iff, bool_decide_eq_false in Hd.
    rewrite valid_ids_spec in Hd.
    destruct (_template_by_id templates tid); [elim Hd; eauto | reflexivity].
  - intros (tid & Hk & Hf). exists (k, tid). split; [reflexivity|].
    apply filter_In. split.
    + now apply list_elem_of_In, elem_of_map_to_list.
    + cbn [snd]. apply negb_true_iff, bool_decide_eq_false.
      rewrite valid_ids_spec, Hf. now intros [t Ht].
Qed.

(** The override map after the pruning, key by key. *)
Lemma prune_lookup (overrides : gmap string string) (k : string) :
  App._prune_recipient_overrides templates overrides !! k
  = match overrides !! k with
    | Some tid =>
        match _template_by_id templates tid with
        | Some _ => Some tid
        | None => None
        end
    | None => None
    end.
Proof.
  unfold App._prune_recipient_overrides. rewrite fold_delete_lookup.
  destruct (bool_decide_reflect (k ∈ App.dead_emails templates overrides))
    as [Hd|Hd].
  - apply list_elem_of_In, dead_emails_spec in Hd as (tid & -> & ->). reflexivity.
  - destruct (overrides !! k) as [tid|] eqn:Ek; [|reflexivity].
    destruct (_template_by_id templates tid) eqn:Ef; [reflexivity|].
    elim Hd. apply list_elem_of_In, dead_emails_spec. eauto.
Qed.

(** X6. [_prune_recipient_overrides] keeps exactly the overrides whose
    template id is the id of a current template, with their ids; pruning
    a pruned map changes nothing. *)
Theorem prune_keeps_live_overrides (overrides : gmap string string) :
  (forall email tid,
     App._prune_recipient_overrides templates overrides !! email = Some tid
     <-> overrides !! email = Some tid /\
         is_Some (_template_by_id templates tid)) /\
  App._prune_recipient_overrides templates
    (App._prune_recipient_overrides templates overrides)
  = App._prune_recipient_overrides templates overrides.
Proof.
  split.
  - intros email tid. rewrite prune_lookup.
    destruct (overrides !! email) as [tid'|]; [|split; [discriminate | now intros [? _]]].
    destruct (_template_by_id templates tid') as [t|] eqn:Ef.
    + split.
      * intros [= <-]. rewrite Ef. eauto.
      * now intros [[= <-] _].
    + split; [discriminate|]. intros [[= <-] [t Ht]]. congruence.
  - apply map_eq. intros k. rewrite !prune_lookup.
    destruct (overrides !! k) as [tid|]; [|reflexivity].
    destruct (_template_by_id templates tid) eqn:Ef; [now rewrite Ef | reflexivity].
Qed.

Variable parse_name_fn : string -> string * string.
Variable is_generate_true_fn : Row -> bool.
Variable is_email_valid_fn : string -> bool.
Variable headers_lower : list string.

Lemma override_of_prune (overrides : gmap string string) (r : Row) :
  override_of parse_name_fn headers_lower templates
    (App._prune_recipient_overrides templates overrides) r
  = override_of parse_name_fn headers_lower templates overrides r.
Proof.
  unfold override_of. cbv zeta. destruct (truthy _); [|reflexivity].
  rewrite prune_lookup. destruct (overrides !! _) as [tid|]; [|reflexivity].
  now destruct (_template_by_id templates tid) eqn:Ef.
Qed.

Lemma preview_step_prune (overrides : gmap string string) (only : bool)
    (st : PassState) (r : Row) :
  preview_step parse_name_fn is_generate_true_fn is_email_valid_fn headers_lower
    templates (App._prune_recipient_overrides templates overrides) only st r
  = preview_step parse_name_fn is_generate_true_fn is_email_valid_fn headers_lower
      templates overrides only st r.
Proof.
  destruct (eligible_of parse_name_fn is_generate_true_fn is_email_valid_fn
              headers_lower r) eqn:He.
  - destruct (choose_template_for_row parse_name_fn r headers_lower templates
                overrides (ps_firm_counts st)) as [[ch m] fc'] eqn:Hc.
    rewrite (step_eligible _ _ _ _ _ overrides only st r ch m fc' He Hc).
    apply step_eligible; [exact He|].
    rewrite choose_spec, override_of_prune, <- choose_spec. exact Hc.
  - now rewrite !step_ineligible by exact He.
Qed.

(** X7. Pruning the stale overrides changes neither the preview nor the
    generation: a stale override has no effect on the engine. *)
Theorem prune_keeps_preview (overrides : gmap string string) (rows : list Row)
    (only : bool) (subject : string) (resume : option string) (dry_run : bool) :
  build_preview_rows parse_name_fn is_generate_true_fn is_email_valid_fn rows
    headers_lower templates (App._prune_recipient_overrides templates overrides)
    only
  = build_preview_rows parse_name_fn is_generate_true_fn is_email_valid_fn rows
      headers_lower templates overrides only /\
  Generator.generate_emails parse_name_fn is_generate_true_fn is_email_valid_fn
    rows headers_lower templates
    (App._prune_recipient_overrides templates overrides) subject resume dry_run
  = Generator.generate_emails parse_name_fn is_generate_true_fn is_email_valid_fn
      rows headers_lower templates overrides subject resume dry_run.
Proof.
  assert (Hpass : forall only st,
            preview_pass parse_name_fn is_generate_true_fn is_email_valid_fn
              headers_lower templates
              (App._prune_recipient_overrides templates overrides) only st rows
            = preview_pass parse_name_fn is_generate_true_fn is_email_valid_fn
                headers_lower templates overrides only st rows).
  { intros only'. induction rows as [|r rows' IH]; intros st; [reflexivity|].
    rewrite !pass_cons, preview_step_prune. apply IH. }
  split.
  - unfold build_preview_rows. now rewrite Hpass.
  - unfold Generator.generate_emails, build_preview_rows. now rewrite Hpass.
Qed.

End PruneFacts.

Section AppCallbacks.

Lemma span_chars_app (p : ascii -> bool) (s a b : string) :
  Cli.span_chars p s = (a, b) -> s = a +:+ b.
Proof.
  revert a b. induction s as [|c s IH]; intros a b; simpl.
  - now intros [= <- <-].
  - destruct (p c).
    + destruct (Cli.span_chars p s) as [a' b']. intros [= <- <-].
      rewrite sapp_cons. f_equal. now apply IH.
    + now intros [= <- <-].
Qed.

(** A text that the pattern matches holds an at sign. *)
Lemma email_re_has_at (s : string) :
  App.email_re_to_end s = true -> has_char "@"%char s = true.
Proof.
  unfold App.email_re_to_end.
  destruct (Cli.span_chars Cli.addr_char s) as [a b] eqn:E.
  apply span_chars_app in E. subst s.
  destruct a as [|x a]; [discriminate|].
  destruct b as [|c dom]; [discriminate|].
  destruct (Ascii.eqb_spec c "@"%char) as [->|Hc].
  - intros _. rewrite has_char_app, has_char_cons. simpl.
    now rewrite orb_true_r.
  - destruct c as [[] [] [] [] [] [] [] []]; try discriminate. now elim Hc.
Qed.

Lemma rstrip_last_char (p : ascii -> bool) (s : string) (c : ascii) :
  App.last_char (rstrip_by p s) = Some c -> p c = false.
Proof.
  induction s as [|d s IH]; [discriminate|]. simpl.
  destruct (rstrip_by p s) as [|e r] eqn:E.
  - destruct (p d) eqn:Ed; [discriminate|]. now intros [= <-].
  - exact IH.
Qed.

Lemma cli_email_valid_trimmed (e : string) :
  strip e = e ->
  Cli._is_email_valid e
  = truthy e && has_char "@"%char e && App.email_re_to_end e.
Proof.
  intros Hs. unfold Cli._is_email_valid, App.email_re_to_end. rewrite Hs.
  destruct (truthy e); [|reflexivity]. simpl.
  now destruct (has_char "@"%char e).
Qed.

(** X8. The two validity callbacks (the desktop application's and the
    command line's) agree on trimmed text, hence on every email that the
    resolver returns. *)
Theorem email_checks_agree_on_trimmed (e : string) (Htrim : strip e = e) :
  App._is_email_valid e = Cli._is_email_valid e /\
  (forall parse_name_fn hs r,
     App._is_email_valid (Resolver.get_email (Resolver.new parse_name_fn hs r))
     = Cli._is_email_valid (Resolver.get_email (Resolver.new parse_name_fn hs r))).
Proof.
  assert (H : forall e, strip e = e -> App._is_email_valid e = Cli._is_email_valid e).
  { clear e Htrim. intros e Htrim.
    rewrite (cli_email_valid_trimmed e Htrim). unfold App._is_email_valid, App.email_re_match.
    assert (Hlast : match App.last_char e with
                    | Some c => Ascii.eqb c (ascii_of_nat 10)
                                && App.email_re_to_end (App.drop_last e)
                    | None => false
                    end = false).
    { destruct (App.last_char e) as [c|] eqn:El; [|reflexivity].
      rewrite <- Htrim in El. unfold strip in El.
      apply rstrip_last_char in El.
      destruct (Ascii.eqb_spec c (ascii_of_nat 10)) as [->|]; [discriminate|reflexivity]. }
    rewrite Hlast, orb_false_r.
    destruct (truthy e); [|reflexivity]. simpl.
    destruct (App.email_re_to_end e) eqn:Em; [|now rewrite andb_false_r].
    now rewrite (email_re_has_at e Em). }
  split; [now apply H|].
  intros parse_name_fn hs r. apply H. unfold Resolver.get_email.
  destruct (Resolver._email_header _); apply strip_idem.
Qed.

(** X9. On a row of the loader (distinct lower-case keys) that has a
    column "generate", the two generate callbacks agree. Without that
    column the desktop application's callback refuses the row, while
    the command line's accepts it unless a column "gen" says otherwise. *)
Theorem generate_flags_compared (r : Row)
    (Hdict : NoDup (map fst r))
    (Hlower : forall k v, In (k, v) r -> lower k = k) :
  (forall v, In ("generate", v) r ->
     App._is_generate_true r = Cli._parse_bool v /\
     Cli._is_generate_true r = Cli._parse_bool v) /\
  ((forall v, ~ In ("generate", v) r) ->
   App._is_generate_true r = false /\
   ((forall v, ~ In ("gen", v) r) -> Cli._is_generate_true r = true)).
Proof.
  split.
  - intros v Hin. apply in_split in Hin as (pre & post & ->).
    unfold App._is_generate_true, App._parse_bool.
    rewrite (row_get_at pre post "generate" v Hdict).
    split; [reflexivity|].
    unfold Cli._is_generate_true. cbv zeta.
    rewrite (lower_keys_last pre post "generate" v "generate" eq_refl).
    + now rewrite (row_get_at pre post "generate" v Hdict).
    + intros k' v' Hin' Hk'.
      assert (Hk : k' = "generate").
      { rewrite <- Hk'. symmetry. apply (Hlower k' v').
        apply in_or_app. right. now right. }
      subst k'. rewrite map_app in Hdict. cbn [map fst] in Hdict.
      apply NoDup_app in Hdict as (_ & _ & Hnd).
      apply NoDup_cons in Hnd as [Hnot _]. apply Hnot.
      apply list_elem_of_In, in_map_iff. now exists ("generate", v').
  - intros Hno. split.
    + unfold App._is_generate_true.
      assert (Hget : row_get r "generate" = "").
      { clear Hdict Hlower. induction r as [|[k v] r' IH]; [reflexivity|]. simpl.
        destruct (String.eqb_spec k "generate") as [->|Hne].
        - elim (Hno v). now left.
        - apply IH. intros v' Hv'. apply (Hno v'). now right. }
      now rewrite Hget.
    + intros Hnogen. unfold Cli._is_generate_true. cbv zeta.
      rewrite !lower_keys_none; [reflexivity| |].
      * intros k v Hin Hk. apply (Hnogen v).
        now rewrite <- Hk, (Hlower k v Hin).
      * intros k v Hin Hk. apply (Hno v).
        now rewrite <- Hk, (Hlower k v Hin).
Qed.

(** X10. The desktop application filters the rows with
    [_read_eligible_rows] before it calls the engine with the same
    callbacks: the preview of the filtered rows is the preview of all the
    rows, and filtering twice is filtering once. *)
Theorem read_eligible_rows_keeps_preview (hs : list string) (rows : list Row)
    (templates : list Template) (overrides : gmap string string) :
  Preview.build_preview_rows App._parse_name App._is_generate_true
    App._is_email_valid (App._read_eligible_rows hs rows) hs templates
    overrides true
  = Preview.build_preview_rows App._parse_name App._is_generate_true
      App._is_email_valid rows hs templates overrides true /\
  App._read_eligible_rows hs (App._read_eligible_rows hs rows)
  = App._read_eligible_rows hs rows /\
  length (Preview.build_preview_rows App._parse_name App._is_generate_true
            App._is_email_valid rows hs templates overrides true)
  = length (App._read_eligible_rows hs rows).
Proof.
  split; [|split].
  - rewrite !build_eq. unfold App._read_eligible_rows.
    exact (f_equal Preview.ps_out
             (from_filter_eligible App._parse_name App._is_generate_true
                App._is_email_valid hs templates overrides rows ∅)).
  - unfold App._read_eligible_rows.
    induction rows as [|r rows' IH]; [reflexivity|]. simpl.
    destruct (App._is_generate_true r && _) eqn:E; [|exact IH].
    simpl. rewrite E. now f_equal.
  - rewrite build_eq. unfold App._read_eligible_rows.
    exact (from_true_length App._parse_name App._is_generate_true
             App._is_email_valid hs templates overrides rows ∅).
Qed.

End AppCallbacks.

(** ** Escaping for AppleScript, file names *)

Section EscapeFacts.

Import Applescript.

Lemma replace_one_cons (o : ascii) (new : string) (c : ascii) (r : string) :
  replace (String o EmptyString) new (String c r)
  = if Ascii.eqb o c then new +:+ replace (String o EmptyString) new r
    else String c (replace (String o EmptyString) new r).
Proof.
  unfold replace. cbn [replace_from starts_with String.length Nat.sub].
  now rewrite andb_true_r.
Qed.

Lemma replace_one_nil (o : ascii) (new : string) :
  replace (String o EmptyString) new "" = "".
Proof. reflexivity. Qed.

(** The two replacements act on each character by itself. *)
Lemma escape_by_chars (s : string) :
  replace (String (ascii_of_nat 34) "")
    (String (ascii_of_nat 92) (String (ascii_of_nat 34) ""))
    (replace (String (ascii_of_nat 92) "")
       (String (ascii_of_nat 92) (String (ascii_of_nat 92) "")) s)
  = escape_chars s.
Proof.
  induction s as [|c s IH]; [reflexivity|].
  rewrite (replace_one_cons (ascii_of_nat 92)). cbn [escape_chars].
  unfold escape_char, BACKSLASH, DQUOTE.
  rewrite (Ascii.eqb_sym c (ascii_of_nat 92)), (Ascii.eqb_sym c (ascii_of_nat 34)).
  destruct (Ascii.eqb_spec (ascii_of_nat 92) c) as [<-|Hb].
  - repeat (rewrite sapp_cons || rewrite sapp_nil_l).
    rewrite !(replace_one_cons (ascii_of_nat 34)).
    change (Ascii.eqb (ascii_of_nat 34) (ascii_of_nat 92)) with false.
    cbv iota. now rewrite IH.
  - rewrite (replace_one_cons (ascii_of_nat 34)).
    destruct (Ascii.eqb (ascii_of_nat 34) c).
    + rewrite IH. now repeat (rewrite sapp_cons || rewrite sapp_nil_l).
    + rewrite IH. now repeat (rewrite sapp_cons || rewrite sapp_nil_l).
Qed.

Lemma escape_is_by_chars (s : string) : _escape_applescript s = escape_chars s.
Proof.
  unfold _escape_applescript. destruct s as [|c s]; [reflexivity|].
  exact (escape_by_chars (String c s)).
Qed.

Lemma unescaped_pair (d : ascii) (r : string) :
  unescaped (String (ascii_of_nat 92) (String d r)) = String d (unescaped r).
Proof. reflexivity. Qed.

Lemma well_escaped_pair (d : ascii) (r : string) :
  well_escaped (String (ascii_of_nat 92) (String d r))
  = (Ascii.eqb d (ascii_of_nat 92) || Ascii.eqb d (ascii_of_nat 34))
    && well_escaped r.
Proof. reflexivity. Qed.

(** X11. The escaped text is well formed as the body of an AppleScript
    string literal: no quote stands outside an escape pair, so the literal
    ends where the script closes it; and it stands for the text that was
    escaped, so different texts stay different. *)
Theorem escape_applescript_sound (s : string) :
  well_escaped (_escape_applescript s) = true /\
  unescaped (_escape_applescript s) = s /\
  (forall s', _escape_applescript s' = _escape_applescript s -> s' = s).
Proof.
  assert (Hw : forall s, well_escaped (escape_chars s) = true).
  { clear s. induction s as [|c s IH]; [reflexivity|].
    cbn [escape_chars]. unfold escape_char, BACKSLASH, DQUOTE.
    destruct (Ascii.eqb c (ascii_of_nat 92)) eqn:Eb.
    - repeat (rewrite sapp_cons || rewrite sapp_nil_l). rewrite well_escaped_pair, IH. reflexivity.
    - destruct (Ascii.eqb c (ascii_of_nat 34)) eqn:Eq.
      + repeat (rewrite sapp_cons || rewrite sapp_nil_l). rewrite well_escaped_pair, IH. reflexivity.
      + rewrite sapp_cons, sapp_nil_l. cbn [well_escaped]. now rewrite Eb, Eq. }
  assert (Hu : forall s, unescaped (escape_chars s) = s).
  { clear s. induction s as [|c s IH]; [reflexivity|].
    cbn [escape_chars]. unfold escape_char, BACKSLASH, DQUOTE.
    destruct (Ascii.eqb_spec c (ascii_of_nat 92)) as [->|Hb].
    - repeat (rewrite sapp_cons || rewrite sapp_nil_l). now rewrite unescaped_pair, IH.
    - destruct (Ascii.eqb_spec c (ascii_of_nat 34)) as [->|Hq].
      + repeat (rewrite sapp_cons || rewrite sapp_nil_l). now rewrite unescaped_pair, IH.
      + rewrite sapp_cons, sapp_nil_l. cbn [unescaped].
        apply Ascii.eqb_neq in Hb. now rewrite Hb, IH. }
  rewrite escape_is_by_chars. split; [apply Hw|]. split; [apply Hu|].
  intros s' H. rewrite !escape_is_by_chars in H.
  now rewrite <- (Hu s'), H, Hu.
Qed.

End EscapeFacts.

Section FileNameFacts.

Import FileName.

Variable isalnum : N -> bool.
Variable isspace : N -> bool.

Lemma forallb_lstrip (q p : N -> bool) (t : list N) :
  forallb q t = true -> forallb q (lstrip p t) = true.
Proof.
  induction t as [|c t IH]; [reflexivity|]. intros H. simpl.
  destruct (p c); [|exact H]. simpl in H. apply andb_true_iff in H as [_ H].
  now apply IH.
Qed.

Lemma forallb_rstrip (q p : N -> bool) (t : list N) :
  forallb q t = true -> forallb q (rstrip p t) = true.
Proof.
  induction t as [|c t IH]; [reflexivity|]. intros H. simpl in H |- *.
  apply andb_true_iff in H as [Hc H]. specialize (IH H).
  destruct (rstrip p t) as [|a r].
  - destruct (p c); [reflexivity|]. simpl. now rewrite Hc.
  - change (q c && forallb q (a :: r) = true). now rewrite Hc, IH.
Qed.

Lemma forallb_firstn (q : N -> bool) (n : nat) (t : list N) :
  forallb q t = true -> forallb q (firstn n t) = true.
Proof.
  revert t. induction n as [|n IH]; intros [|c t] H; try reflexivity.
  simpl in H |- *. apply andb_true_iff in H as [Hc H]. now rewrite Hc, IH.
Qed.

Lemma forallb_slice_to (q : N -> bool) (n : Z) (t : list N) :
  forallb q t = true -> forallb q (slice_to n t) = true.
Proof. intros H. unfold slice_to. destruct (0 <=? n)%Z; now apply forallb_firstn. Qed.

Lemma lstrip_points_length (p : N -> bool) (t : list N) :
  length (lstrip p t) <= length t.
Proof.
  induction t as [|c t IH]; [reflexivity|]. simpl.
  destruct (p c); simpl; lia.
Qed.

Lemma rstrip_points_length (p : N -> bool) (t : list N) :
  length (rstrip p t) <= length t.
Proof.
  induction t as [|c t IH]; [reflexivity|]. simpl.
  destruct (rstrip p t); [destruct (p c)|]; simpl in *; lia.
Qed.

Lemma lstrip_head_not (p : N -> bool) (t : list N) (c : N) :
  head (lstrip p t) = Some c -> p c = false.
Proof.
  induction t as [|d t IH]; [discriminate|]. simpl.
  destruct (p d) eqn:E; [exact IH|]. now intros [= <-].
Qed.

Lemma rstrip_head_keeps (p : N -> bool) (t : list N) (c : N) :
  head (rstrip p t) = Some c -> head t = Some c.
Proof.
  destruct t as [|d t]; [discriminate|]. simpl.
  destruct (rstrip p t); [destruct (p d)|]; [discriminate| |]; now intros [= <-].
Qed.

Lemma firstn_head_keeps (n : nat) (t : list N) (c : N) :
  head (firstn n t) = Some c -> head t = Some c.
Proof. destruct n, t; simpl; congruence. Qed.

Lemma slice_to_head_keeps (n : Z) (t : list N) (c : N) :
  head (slice_to n t) = Some c -> head t = Some c.
Proof. unfold slice_to. destruct (0 <=? n)%Z; apply firstn_head_keeps. Qed.

Lemma slice_to_length (n : Z) (t : list N) :
  (0 <= n)%Z -> (Z.of_nat (length (slice_to n t)) <= n)%Z.
Proof.
  intros Hn. unfold slice_to.
  destruct (Z.leb_spec 0 n) as [_|]; [|lia].
  rewrite length_firstn. lia.
Qed.

(** The text before the cut to [max_len], and its properties. *)
Lemma safe_filename_base (name : list N)
    (Halnum : forallb isalnum TEMPLATE = true) :
  exists base,
    (forall max_len,
       _safe_filename isalnum isspace name max_len
       = if (Z.of_nat (length base) >? max_len)%Z then slice_to max_len base
         else base) /\
    forallb (is_kept isalnum) base = true /\
    head base <> Some DOT /\
    base <> [] /\
    length base <= length name + 8.
Proof.
  set (name' := match name with [] => TEMPLATE | _ => name end).
  set (mapped := map (fun ch => if is_kept isalnum ch then ch else UNDERSCORE) name').
  set (base0 := rstrip (N.eqb DOT) (lstrip (N.eqb DOT)
                  (rstrip isspace (lstrip isspace mapped)))).
  set (base := match base0 with [] => TEMPLATE | _ => base0 end).
  exists base.
  assert (Htpl : forallb (is_kept isalnum) TEMPLATE = true).
  { apply forallb_forall. intros c Hc. unfold is_kept.
    now rewrite (proj1 (forallb_forall _ _) Halnum c Hc). }
  assert (Hmapped : forallb (is_kept isalnum) mapped = true).
  { subst mapped. generalize name'. intros t.
    induction t as [|c t IH]; [reflexivity|]. cbn [map forallb].
    rewrite IH, andb_true_r.
    destruct (is_kept isalnum c) eqn:E; [exact E|].
    unfold is_kept. now rewrite orb_true_r. }
  assert (Hlen0 : length base0 <= length name + 8).
  { subst base0.
    etransitivity; [apply rstrip_points_length|].
    etransitivity; [apply lstrip_points_length|].
    etransitivity; [apply rstrip_points_length|].
    etransitivity; [apply lstrip_points_length|].
    subst mapped. rewrite length_map. subst name'.
    destruct name; simpl; lia. }
  split; [reflexivity|]. split; [|split; [|split]].
  - subst base. destruct base0 eqn:E; [exact Htpl|]. rewrite <- E. subst base0.
    now repeat (apply forallb_rstrip || apply forallb_lstrip).
  - subst base. destruct base0 as [|c r] eqn:E; [discriminate|].
    rewrite <- E. intros H. subst base0.
    apply rstrip_head_keeps, lstrip_head_not in H. discriminate.
  - subst base. now destruct base0.
  - subst base. destruct base0; [simpl; lia | exact Hlen0].
Qed.

(** X12. Whatever characters [isalnum] and [isspace] accept, provided
    that the letters of "template" are alphanumeric: a file name made by
    [_safe_filename] holds only characters that are alphanumeric or among
    space, hyphen, underscore and dot, and does not begin with a dot; when
    [max_len] is not negative the name is at most [max_len] characters
    long, and when [max_len] is positive it is not empty; when [max_len]
    is negative the name is the uncut name without its last [-max_len]
    characters. *)
Theorem safe_filename_is_safe (name : list N) (max_len : Z)
    (Halnum : forallb isalnum TEMPLATE = true) :
  let f := _safe_filename isalnum isspace name max_len in
  forallb (is_kept isalnum) f = true /\
  head f <> Some DOT /\
  ((0 <= max_len)%Z -> (Z.of_nat (length f) <= max_len)%Z) /\
  ((0 < max_len)%Z -> f <> []) /\
  ((max_len < 0)%Z ->
   f = slice_to max_len
         (_safe_filename isalnum isspace name (Z.of_nat (length name + 8)))).
Proof.
  cbv zeta.
  destruct (safe_filename_base name Halnum) as (base & Hf & Hkept & Hdot & Hne & Hlen).
  rewrite !Hf.
  destruct (Z.gtb_spec (Z.of_nat (length base)) (Z.of_nat (length name + 8)))
    as [Hbig|_]; [lia|].
  destruct (Z.gtb_spec (Z.of_nat (length base)) max_len) as [Hgt|Hle].
  - split; [now apply forallb_slice_to|]. split; [|split; [|split]].
    + intros H. destruct (slice_to max_len base) as [|c r] eqn:E; [discriminate|].
      injection H as ->. apply Hdot.
      apply slice_to_head_keeps with (n := max_len). now rewrite E.
    + apply slice_to_length.
    + intros Hpos. unfold slice_to.
      destruct (Z.leb_spec 0 max_len) as [_|]; [|lia].
      destruct base as [|c r]; [now elim Hne|].
      destruct (Z.to_nat max_len) eqn:E; [lia | discriminate].
    + reflexivity.
  - split; [exact Hkept|]. split; [exact Hdot|]. split; [|split].
    + intros _. exact Hle.
    + intros _. exact Hne.
    + intros Hneg. lia.
Qed.

End FileNameFacts.

(** ** Header roles and derived placeholders *)

Section HeaderFacts.

Import Resolver.

(** [_first_contains_header] returns the first header, in the order of the
    header list, that holds one of the texts and none of the excluded
    ones. *)
Lemma first_contains_spec (hs : list string) (subs excl : list string) :
  match _first_contains_header hs subs excl with
  | Some h =>
      exists pre post,
        hs = pre ++ h :: post /\
        header_contains subs h = true /\ header_contains excl h = false /\
        forall h', In h' pre ->
          header_contains subs h' = false \/ header_contains excl h' = true
  | None =>
      forall h', In h' hs ->
        header_contains subs h' = false \/ header_contains excl h' = true
  end.
Proof.
  induction hs as [|h hs IH]; [intros h' []|]. cbn [_first_contains_header].
  fold (header_contains subs h). fold (header_contains excl h).
  destruct (header_contains subs h) eqn:Es.
  - destruct (header_contains excl h) eqn:Ee.
    + destruct (_first_contains_header hs subs excl) as [h0|].
      * destruct IH as (pre & post & -> & H1 & H2 & H3).
        exists (h :: pre), post. repeat split; try assumption.
        intros h' [<-|Hin]; [now right | now apply H3].
      * intros h' [<-|Hin]; [now right | now apply IH].
    + exists [], hs. repeat split; try assumption. intros h' [].
  - destruct (_first_contains_header hs subs excl) as [h0|].
    + destruct IH as (pre & post & -> & H1 & H2 & H3).
      exists (h :: pre), post. repeat split; try assumption.
      intros h' [<-|Hin]; [now left | now apply H3].
    + intros h' [<-|Hin]; [now left | now apply IH].
Qed.

Lemma first_exact_spec (hs candidates : list string) (h : string) :
  _first_exact_header hs candidates = Some h -> In h hs /\ In h candidates.
Proof.
  induction hs as [|a hs IH]; [discriminate|]. simpl.
  destruct (str_in a candidates) eqn:E.
  - intros [= <-]. split; [now left | now apply str_in_In].
  - intros H. destruct (IH H). split; [now right | assumption].
Qed.

Section WithRow.

Variable parse_name_fn : string -> string * string.
Variable hs : list string.
Variable r : Row.

(** X13. The email column is the first header that holds "email", and
    without such a header the key "email" of the row is read. The firm
    column is a header of the list and never one that holds "email", so a
    column such as "firm email" is not taken for the firm. *)
Theorem header_roles :
  let self := new parse_name_fn hs r in
  match _email_header self with
  | Some h =>
      (exists pre post,
         hs = pre ++ h :: post /\ contains "email" (lower h) = true /\
         forall h', In h' pre -> contains "email" (lower h') = false) /\
      get_email self = strip (row_get r h)
  | None =>
      (forall h', In h' hs -> contains "email" (lower h') = false) /\
      get_email self = strip (row_get r "email")
  end /\
  (forall h, _company_header self = Some h ->
     In h hs /\ contains "email" (lower h) = false /\
     get_firm self = strip (row_get r h)) /\
  (_company_header self = None -> get_firm self = "").
Proof.
  cbv zeta. split; [|split].
  - unfold get_email, new. cbn [_email_header row].
    pose proof (first_contains_spec hs [EMAIL_SUBSTR] []) as H.
    destruct (_first_contains_header hs [EMAIL_SUBSTR] []) as [h|].
    + destruct H as (pre & post & -> & H1 & _ & H3). split; [|reflexivity].
      exists pre, post. split; [reflexivity|]. unfold header_contains in H1, H3.
      cbn [existsb] in H1, H3. rewrite orb_false_r in H1. split; [exact H1|].
      intros h' Hin. destruct (H3 h' Hin) as [H|H]; [|discriminate].
      now rewrite orb_false_r in H.
    + split; [|reflexivity]. intros h' Hin. destruct (H h' Hin) as [H'|H']; [|discriminate].
      unfold header_contains in H'. cbn [existsb] in H'. now rewrite orb_false_r in H'.
  - intros h Hh.
    assert (Hin : In h hs /\ contains "email" (lower h) = false).
    { unfold new in Hh. cbn [_company_header] in Hh.
      destruct (_first_exact_header hs _) as [h0|] eqn:Ex.
      - injection Hh as ->. apply first_exact_spec in Ex as [Hin Hc].
        split; [exact Hin|].
        destruct Hc as [<-|[<-|[<-|[<-|[<-|[]]]]]]; reflexivity.
      - pose proof (first_contains_spec hs COMPANY_OR_FIRM_SUBSTRS ["email"]) as H.
        rewrite Hh in H. destruct H as (pre & post & -> & _ & H2 & _).
        split; [apply in_or_app; right; now left|].
        unfold header_contains in H2. cbn [existsb] in H2.
        now rewrite orb_false_r in H2. }
    destruct Hin as [Hin Hc]. split; [exact Hin|]. split; [exact Hc|].
    unfold get_firm, derived_get. unfold new in Hh |- *.
    cbn [_company_header _derived] in Hh |- *. rewrite Hh.
    unfold _build_derived_defaults, header_value.
    repeat case_match; now simplify_map_eq.
  - intros Hh. unfold get_firm, derived_get. unfold new in Hh |- *.
    cbn [_company_header _derived] in Hh |- *. rewrite Hh.
    unfold _build_derived_defaults, header_value.
    repeat case_match; now simplify_map_eq.
Qed.

End WithRow.

End HeaderFacts.

Section DerivedFacts.

Import Resolver.

Variable parse_name_fn : string -> string * string.
Variable hs : list string.
Variable r : Row.

Local Abbreviation self := (new parse_name_fn hs r).

(** A text made of one token. *)
Lemma resolve_one_token (tok : string) :
  tok <> "" ->
  has_char "{"%char tok = false -> has_char "}"%char tok = false ->
  resolve_text self ("{" +:+ tok +:+ "}") = _resolve_token self tok.
Proof.
  intros Hne Ho Hc. rewrite resolve_text_sub_all.
  pose proof (sub_all_token (_resolve_token self) "" tok "" eq_refl Hne Ho Hc) as H.
  rewrite !sapp_nil_l in H. rewrite sapp_nil_r in H. rewrite H.
  now rewrite sapp_nil_r.
Qed.

Lemma resolve_derived (tok key : string) :
  lower (strip tok) = key -> In key DERIVED_KEYS ->
  _resolve_token self tok = derived_get self key.
Proof.
  intros Hk Hin. unfold _resolve_token, derived_get. rewrite Hk.
  apply (derived_keys parse_name_fn hs r) in Hin as [v Hv]. now rewrite Hv.
Qed.

(** X14. The tokens of the derived placeholders give what the getters
    give, in any letter case and with spaces around the name: the firm for
    "firm" and for "firm name", the full name, and the first and last
    names. *)
Theorem derived_tokens_match_getters :
  resolve_text self "{firm}" = get_firm self /\
  resolve_text self "{ Firm Name }" = get_firm self /\
  resolve_text self "{FULL NAME}" = get_full_name self /\
  resolve_text self "{First Name} {last name}"
  = fst (get_first_last self) +:+ " " +:+ snd (get_first_last self) /\
  (forall tok, tok <> "" ->
     has_char "{"%char tok = false -> has_char "}"%char tok = false ->
     lower (strip tok) = "firm" \/ lower (strip tok) = "firm name" ->
     resolve_text self ("{" +:+ tok +:+ "}") = get_firm self).
Proof.
  assert (Hfn : derived_get self "firm name" = derived_get self "firm").
  { unfold derived_get, new. cbn [_derived]. unfold _build_derived_defaults.
    repeat case_match; now simplify_map_eq. }
  split; [|split; [|split; [|split]]].
  - change "{firm}" with ("{" +:+ "firm" +:+ "}").
    rewrite (resolve_one_token "firm") by (reflexivity || discriminate).
    apply resolve_derived; [reflexivity | unfold DERIVED_KEYS; simpl; tauto].
  - change "{ Firm Name }" with ("{" +:+ " Firm Name " +:+ "}").
    rewrite (resolve_one_token " Firm Name ") by (reflexivity || discriminate).
    rewrite (resolve_derived " Firm Name " "firm name");
      [exact Hfn | reflexivity | unfold DERIVED_KEYS; simpl; tauto].
  - change "{FULL NAME}" with ("{" +:+ "FULL NAME" +:+ "}").
    rewrite (resolve_one_token "FULL NAME") by (reflexivity || discriminate).
    apply resolve_derived; [reflexivity | unfold DERIVED_KEYS; simpl; tauto].
  - rewrite resolve_text_sub_all.
    change "{First Name} {last name}"
      with ("" +:+ "{" +:+ "First Name" +:+ "}" +:+ " {last name}").
    rewrite sub_all_token by (reflexivity || discriminate).
    change " {last name}" with (" " +:+ "{" +:+ "last name" +:+ "}" +:+ "").
    rewrite sub_all_token by (reflexivity || discriminate).
    rewrite (resolve_derived "First Name" "first name");
      [|reflexivity | unfold DERIVED_KEYS; simpl; tauto].
    rewrite (resolve_derived "last name" "last name");
      [|reflexivity | unfold DERIVED_KEYS; simpl; tauto].
    rewrite sapp_nil_l. now rewrite sapp_nil_r.
  - intros tok Hne Ho Hc Hk. rewrite resolve_one_token by assumption.
    destruct Hk as [Hk|Hk].
    + apply resolve_derived; [exact Hk | unfold DERIVED_KEYS; simpl; tauto].
    + rewrite (resolve_derived tok "firm name");
        [exact Hfn | exact Hk | unfold DERIVED_KEYS; simpl; tauto].
Qed.

(** X15. The prefix rule: with a header "prefix" and a non-empty prefix
    in the row, the first name is the prefix, a dot and the last name, or
    the prefix and a dot when there is no last name; the last name is the
    one that the name parser gave. *)
Theorem prefix_rule (Hprefix : In "prefix" hs)
    (Hvalue : strip (row_get r "prefix") <> "") :
  let prefix_val := strip (row_get r "prefix") in
  let first := fst (get_first_last self) in
  let last := snd (get_first_last self) in
  first = (if truthy last then prefix_val +:+ ". " +:+ last
           else prefix_val +:+ ".") /\
  resolve_text self "{first name}" = first.
Proof.
  cbv zeta. split.
  - unfold get_first_last, derived_get, new. cbn [_derived fst snd].
    unfold _build_derived_defaults.
    rewrite (find_eqb_In hs "prefix" Hprefix).
    apply truthy_true in Hvalue. rewrite Hvalue.
    repeat case_match; simplify_map_eq; congruence.
  - change "{first name}" with ("{" +:+ "first name" +:+ "}").
    rewrite (resolve_one_token "first name") by (reflexivity || discriminate).
    apply resolve_derived; [reflexivity | unfold DERIVED_KEYS; simpl; tauto].
Qed.

Lemma span_no_brace_spec (s a b : string) :
  span_no_brace s = (a, b) ->
  s = a +:+ b /\
  match b with
  | EmptyString => True
  | String c _ => is_brace c = true
  end.
Proof.
  revert a b. induction s as [|c s IH]; intros a b; simpl.
  - intros [= <- <-]. now split.
  - destruct (is_brace c) eqn:Ec.
    + intros [= <- <-]. split; [reflexivity | exact Ec].
    + destruct (span_no_brace s) as [a' b'] eqn:E. intros [= <- <-].
      destruct (IH a' b' eq_refl) as [-> Hb]. now split.
Qed.

Lemma match_token_needs_close (s : string) :
  has_char "}"%char s = false -> match_token s = None.
Proof.
  intros H. unfold match_token.
  destruct (span_no_brace s) as [a b] eqn:E.
  apply span_no_brace_spec in E as [-> Hb].
  destruct a as [|x a]; [reflexivity|].
  destruct b as [|c b]; [reflexivity|].
  destruct (Ascii.eqb_spec c "}"%char) as [->|Hc].
  - rewrite has_char_app, has_char_cons in H. simpl in H.
    rewrite orb_true_r in H. discriminate.
  - destruct c as [[] [] [] [] [] [] [] []]; try reflexivity. now elim Hc.
Qed.

(** X16. A text without a closing brace holds no token and is returned
    as it is, whatever opening braces it holds. *)
Theorem unclosed_braces_are_kept (text : string)
    (Hopen : has_char "}"%char text = false) :
  resolve_text self text = text.
Proof.
  rewrite resolve_text_sub_all.
  induction text as [|c s IH]; [reflexivity|].
  rewrite has_char_cons in Hopen. apply orb_false_iff in Hopen as [Hc Hs].
  destruct (Ascii.eqb_spec c "{"%char) as [->|Hne].
  - rewrite sub_all_no_match by now apply match_token_needs_close.
    now rewrite IH.
  - rewrite sub_all_other by now apply Ascii.eqb_neq.
    now rewrite IH.
Qed.

End DerivedFacts.

(** ** Trimming, the HTML body and the name parser *)

Section TrimFacts.

Lemma lstrip_app_fixed (p : ascii -> bool) (c : ascii) (a b : string) :
  p c = false -> lstrip_by p (String c a +:+ b) = String c a +:+ b.
Proof. intros H. rewrite sapp_cons. simpl. now rewrite H. Qed.

Lemma rstrip_app_fixed (p : ascii -> bool) (s t : string) :
  rstrip_by p t = t -> t <> "" -> rstrip_by p (s +:+ t) = s +:+ t.
Proof.
  intros Ht Hne. induction s as [|c s IH]; [now rewrite sapp_nil_l|].
  rewrite sapp_cons. simpl. rewrite IH.
  destruct (s +:+ t) eqn:E; [|reflexivity].
  destruct s; [now rewrite sapp_nil_l in E | now rewrite sapp_cons in E].
Qed.

Lemma lstrip_length (p : ascii -> bool) (s : string) :
  String.length (lstrip_by p s) <= String.length s.
Proof.
  induction s as [|c s IH]; [reflexivity|]. simpl.
  destruct (p c); simpl; lia.
Qed.

Lemma rstrip_length (p : ascii -> bool) (s : string) :
  String.length (rstrip_by p s) <= String.length s.
Proof.
  induction s as [|c s IH]; [reflexivity|]. simpl.
  destruct (rstrip_by p s); [destruct (p c)|]; simpl in *; lia.
Qed.

Lemma lstrip_same_length (p : ascii -> bool) (s : string) :
  String.length (lstrip_by p s) = String.length s -> lstrip_by p s = s.
Proof.
  destruct s as [|c s]; [reflexivity|]. simpl.
  destruct (p c); [|reflexivity].
  pose proof (lstrip_length p s). simpl. lia.
Qed.

(** A trimmed text is trimmed on each side. *)
Lemma strip_fixed_sides (s : string) :
  strip s = s -> lstrip_by is_space s = s /\ rstrip_by is_space s = s.
Proof.
  intros H. unfold strip in H.
  assert (Hl : lstrip_by is_space s = s).
  { apply lstrip_same_length.
    pose proof (rstrip_length is_space (lstrip_by is_space s)) as H1.
    pose proof (lstrip_length is_space s) as H2.
    rewrite H in H1. lia. }
  split; [exact Hl|]. now rewrite Hl in H.
Qed.

Lemma lstrip_fixed_head (p : ascii -> bool) (c : ascii) (s : string) :
  lstrip_by p (String c s) = String c s -> p c = false.
Proof.
  simpl. destruct (p c); [|reflexivity]. intros H.
  pose proof (lstrip_length p s) as Hl. rewrite H in Hl. simpl in Hl. lia.
Qed.

Lemma has_char_lstrip (c : ascii) (p : ascii -> bool) (s : string) :
  has_char c s = false -> has_char c (lstrip_by p s) = false.
Proof.
  induction s as [|d s IH]; [reflexivity|]. intros H. simpl.
  destruct (p d); [|exact H].
  rewrite has_char_cons in H. apply orb_false_iff in H as [_ H]. now apply IH.
Qed.

Lemma has_char_rstrip (c : ascii) (p : ascii -> bool) (s : string) :
  has_char c s = false -> has_char c (rstrip_by p s) = false.
Proof.
  induction s as [|d s IH]; [reflexivity|]. intros H.
  rewrite has_char_cons in H. apply orb_false_iff in H as [Hd H].
  specialize (IH H). simpl. destruct (rstrip_by p s) as [|e r].
  - destruct (p d); [reflexivity|]. now rewrite has_char_cons, Hd.
  - now rewrite has_char_cons, Hd, IH.
Qed.

Lemma has_char_strip (c : ascii) (s : string) :
  has_char c s = false -> has_char c (strip s) = false.
Proof. intros H. unfold strip. now apply has_char_rstrip, has_char_lstrip. Qed.

Lemma replace_one_removes (o : ascii) (new s : string) :
  has_char o new = false ->
  has_char o (replace (String o EmptyString) new s) = false.
Proof.
  intros Hn. induction s as [|c s IH]; [reflexivity|].
  rewrite replace_one_cons. destruct (Ascii.eqb o c) eqn:E.
  - now rewrite has_char_app, Hn, IH.
  - now rewrite has_char_cons, E, IH.
Qed.

(** X17. The HTML body is the resolved text between the opening and the
    closing of the envelope, and holds no line feed; a text of white space
    alone gives the empty envelope. *)
Theorem wrap_in_html_envelope (text : string) :
  (exists content,
     Generator._wrap_in_html text
     = "<html><body style='margin:0;padding:0;font-family:Arial,sans-serif;'>"
       +:+ content +:+ "</body></html>" /\
     has_char (ascii_of_nat 10) content = false) /\
  (strip text = "" ->
   Generator._wrap_in_html text
   = "<html><body style='margin:0;padding:0;font-family:Arial,sans-serif;'></body></html>").
Proof.
  unfold Generator._wrap_in_html. cbv zeta.
  set (content := rstrip_by (char_in "<br>") _).
  assert (Hwrap : forall content,
            strip ("<html><body style='margin:0;padding:0;font-family:Arial,sans-serif;'>"
                   +:+ content +:+ "</body></html>")
            = "<html><body style='margin:0;padding:0;font-family:Arial,sans-serif;'>"
              +:+ content +:+ "</body></html>").
  { intros x. unfold strip.
    rewrite (lstrip_app_fixed is_space "<"%char) by reflexivity.
    rewrite <- sapp_assoc. apply rstrip_app_fixed; [reflexivity | discriminate]. }
  split.
  - exists content. split; [apply Hwrap|].
    subst content. apply has_char_rstrip, has_char_lstrip, has_char_strip.
    unfold Generator.NL. now apply replace_one_removes.
  - intros Hblank. rewrite Hwrap. subst content. now rewrite Hblank.
Qed.

End TrimFacts.

Section NameFacts.

Lemma no_space_strip (s : string) : no_space s = true -> strip s = s.
Proof.
  intros H. unfold strip.
  assert (Hr : rstrip_by is_space s = s).
  { induction s as [|c s IH]; [reflexivity|]. simpl in H |- *.
    apply andb_true_iff in H as [Hc H]. rewrite (IH H).
    destruct s; [|reflexivity]. apply negb_true_iff in Hc. now rewrite Hc. }
  destruct s as [|c s]; [reflexivity|]. simpl in H.
  apply andb_true_iff in H as [Hc _]. apply negb_true_iff in Hc.
  rewrite (lstrip_fixed _ _ _ Hc). exact Hr.
Qed.

Lemma split_ws_token (t cur rest : string) :
  no_space t = true ->
  split_ws_from cur (t +:+ rest) = split_ws_from (cur +:+ t) rest.
Proof.
  revert cur. induction t as [|c t IH]; intros cur H.
  - now rewrite sapp_nil_l, sapp_nil_r.
  - simpl in H. apply andb_true_iff in H as [Hc H]. apply negb_true_iff in Hc.
    rewrite sapp_cons. cbn [split_ws_from]. rewrite Hc, (IH _ H).
    now rewrite sapp_assoc.
Qed.

Lemma split_ws_space (a b cur : string) :
  split_ws_from cur (a +:+ " " +:+ b)
  = split_ws_from cur a ++ split_ws_from "" b.
Proof.
  revert cur. induction a as [|c a IH]; intros cur.
  - rewrite sapp_nil_l. reflexivity.
  - rewrite sapp_cons. cbn [split_ws_from]. destruct (is_space c).
    + now rewrite IH, app_assoc.
    + apply IH.
Qed.

Lemma split_ws_one (t : string) :
  no_space t = true -> t <> "" -> split_ws t = [t].
Proof.
  intros H Hne. unfold split_ws.
  rewrite <- (sapp_nil_r t) at 1. rewrite split_ws_token by exact H.
  rewrite sapp_nil_l. simpl. apply truthy_true in Hne. now rewrite Hne.
Qed.

Lemma split_once_at (sep : ascii) (a b : string) :
  has_char sep a = false ->
  split_once sep (a +:+ String sep b) = (a, b).
Proof.
  intros H. induction a as [|c a IH].
  - rewrite sapp_nil_l. simpl. now rewrite Ascii.eqb_refl.
  - rewrite has_char_cons in H. apply orb_false_iff in H as [Hc H].
    rewrite sapp_cons. simpl. rewrite Ascii.eqb_sym, Hc. now rewrite (IH H).
Qed.

Lemma no_space_head (c : ascii) (s : string) :
  no_space (String c s) = true -> is_space c = false.
Proof. simpl. intros H. apply andb_true_iff in H as [H _]. now apply negb_true_iff. Qed.

(** X18. The name parser: "First Last" gives the two words; with words
    in between, the first and the last word are kept; "Last, First" gives
    the trimmed parts in the other order; one word is a first name. *)
Theorem parse_name_forms (first last : string)
    (Hfirst : first <> "") (Hlast : last <> "") :
  (no_space first = true -> no_space last = true ->
   has_char ","%char first = false -> has_char ","%char last = false ->
   Cli._parse_name (first +:+ " " +:+ last) = (first, last) /\
   Cli._parse_name first = (first, "") /\
   forall middle, has_char ","%char middle = false ->
     Cli._parse_name (first +:+ " " +:+ middle +:+ " " +:+ last) = (first, last)) /\
  (strip first = first -> strip last = last ->
   has_char ","%char last = false ->
   Cli._parse_name (last +:+ ", " +:+ first) = (first, last)).
Proof.
  split.
  - intros Hf Hl Hcf Hcl.
    assert (Hgen : forall rest,
              has_char ","%char rest = false ->
              Cli._parse_name (first +:+ " " +:+ rest +:+ last)
              = (first, List.last (split_ws_from "" (rest +:+ last)) "")).
    { intros rest Hcr. unfold Cli._parse_name.
      destruct first as [|c f] eqn:Ef; [now elim Hfirst|]. rewrite <- Ef in *.
      assert (Htr : truthy (first +:+ " " +:+ rest +:+ last) = true)
        by now rewrite Ef.
      rewrite Htr. cbn [negb].
      assert (Hstrip : strip (first +:+ " " +:+ rest +:+ last)
                       = first +:+ " " +:+ rest +:+ last).
      { unfold strip. rewrite Ef.
        rewrite (lstrip_app_fixed is_space c f) by (rewrite Ef in Hf; now apply no_space_head in Hf).
        rewrite <- Ef. rewrite <- !sapp_assoc.
        apply rstrip_app_fixed; [|exact Hlast].
        apply no_space_strip in Hl. now apply strip_fixed_sides in Hl. }
      rewrite Hstrip.
      assert (Hcomma : has_char ","%char (first +:+ " " +:+ rest +:+ last) = false).
      { rewrite !has_char_app, Hcf, Hcr, Hcl. reflexivity. }
      rewrite Hcomma. unfold split_ws. rewrite split_ws_space.
      fold (split_ws first). rewrite (split_ws_one first Hf Hfirst).
      cbn [app].
      destruct (split_ws_from "" (rest +:+ last)) as [|x l] eqn:Es; [|reflexivity].
      exfalso. revert Es. clear -Hl Hlast.
      destruct last as [|c l]; [now elim Hlast|].
      assert (H : forall cur, split_ws_from cur (rest +:+ String c l) <> []).
      { induction rest as [|d rest IH]; intros cur.
        - rewrite sapp_nil_l.
          rewrite <- (sapp_nil_r (String c l)), split_ws_token by exact Hl.
          simpl. destruct (cur +:+ String c l) eqn:E; [|discriminate].
          destruct cur; discriminate.
        - rewrite sapp_cons. cbn [split_ws_from].
          destruct (is_space d); [|apply IH].
          intros H. apply app_eq_nil in H as [_ H]. now apply (IH "") in H. }
      intros Es. now apply (H "") in Es. }
    split; [|split].
    + pose proof (Hgen "" eq_refl) as H. rewrite sapp_nil_l in H. rewrite H.
      fold (split_ws last). now rewrite (split_ws_one last Hl Hlast).
    + unfold Cli._parse_name. apply truthy_true in Hfirst. rewrite Hfirst.
      cbn [negb]. rewrite (no_space_strip first Hf), Hcf.
      apply truthy_true in Hfirst. now rewrite (split_ws_one first Hf Hfirst).
    + intros middle Hcm.
      pose proof (Hgen (middle +:+ " ")) as H.
      rewrite !sapp_assoc in H. rewrite H.
      * rewrite split_ws_space. fold (split_ws last).
        rewrite (split_ws_one last Hl Hlast). now rewrite last_last.
      * now rewrite has_char_app, Hcm.
  - intros Hf Hl Hcl. unfold Cli._parse_name.
    destruct last as [|c l] eqn:El; [now elim Hlast|]. rewrite <- El in *.
    assert (Htr : truthy (last +:+ ", " +:+ first) = true) by now rewrite El.
    rewrite Htr. cbn [negb].
    apply strip_fixed_sides in Hf as [Hf1 Hf2].
    apply strip_fixed_sides in Hl as [Hl1 Hl2].
    assert (Hstrip : strip (last +:+ ", " +:+ first) = last +:+ ", " +:+ first).
    { unfold strip. rewrite El.
      rewrite (lstrip_app_fixed is_space c l)
        by (rewrite El in Hl1; now apply lstrip_fixed_head in Hl1).
      rewrite <- El, <- sapp_assoc. now apply rstrip_app_fixed. }
    rewrite Hstrip.
    assert (Hcomma : has_char ","%char (last +:+ ", " +:+ first) = true).
    { rewrite !has_char_app. change (has_char ","%char ", ") with true.
      now rewrite orb_true_r. }
    rewrite Hcomma.
    change (last +:+ ", " +:+ first) with (last +:+ String ","%char (" " +:+ first)).
    rewrite (split_once_at ","%char last (" " +:+ first) Hcl).
    f_equal.
    + unfold strip. change (lstrip_by is_space (" " +:+ first))
        with (lstrip_by is_space first). now rewrite Hf1.
    + unfold strip. now rewrite Hl1.
Qed.

End NameFacts.

(** ** The firm counters *)

Section CounterFacts.

Import Preview.

Variable parse_name_fn : string -> string * string.
Variable is_generate_true_fn : Row -> bool.
Variable is_email_valid_fn : string -> bool.
Variable headers_lower : list string.
Variable templates : list Template.
Variable overrides : gmap string string.

Local Abbreviation from only :=
  (pass_from parse_name_fn is_generate_true_fn is_email_valid_fn headers_lower
     templates overrides only).
Local Abbreviation rotated :=
  (rotated_at parse_name_fn is_generate_true_fn is_email_valid_fn headers_lower
     templates overrides).
Local Abbreviation eligible :=
  (eligible_of parse_name_fn is_generate_true_fn is_email_valid_fn headers_lower).
Local Abbreviation override :=
  (override_of parse_name_fn headers_lower templates overrides).
Local Abbreviation firm := (firm_of parse_name_fn headers_lower).

(** The counters after the loop body. *)
Lemma step_counts (only : bool) (fc : gmap string nat) (r : Row) :
  ps_firm_counts
    (preview_step parse_name_fn is_generate_true_fn is_email_valid_fn
       headers_lower templates overrides only
       {| ps_out := []; ps_firm_counts := fc |} r)
  = if eligible r then
      match override r with
      | Some _ => fc
      | None =>
          match _rotatable_templates templates with
          | [] => fc
          | _ => <[firm r := default 0 (fc !! firm r) + 1]> fc
          end
      end
    else fc.
Proof.
  destruct (eligible r) eqn:He.
  - destruct (choose_template_for_row parse_name_fn r headers_lower templates
                overrides fc) as [[ch m] fc'] eqn:Hc.
    rewrite (step_eligible _ _ _ _ _ _ only
               {| ps_out := []; ps_firm_counts := fc |} r ch m fc' He Hc).
    cbn [ps_firm_counts]. rewrite choose_spec in Hc.
    destruct (override r); [now injection Hc as _ _ <-|].
    unfold rotate in Hc. destruct (_rotatable_templates templates);
      now injection Hc as _ _ <-.
  - rewrite (step_ineligible _ _ _ _ _ _ only _ r He). now destruct only.
Qed.

(** X19. After a pass the counter of a firm key is the number of
    eligible rows of that firm key to which no override applied, when some
    template can rotate; without a rotatable template no counter is ever
    created. The flag [only_recipients] plays no part. *)
Theorem counters_count_rotated_rows (only : bool) (rows : list Row) :
  (_rotatable_templates templates <> [] ->
   forall f, default 0 (ps_firm_counts (from only ∅ rows) !! f)
             = length (List.filter (rotated f) rows)) /\
  (_rotatable_templates templates = [] ->
   ps_firm_counts (from only ∅ rows) = ∅).
Proof.
  split.
  - intros Hrot f.
    assert (H : forall fc,
              default 0 (ps_firm_counts (from only fc rows) !! f)
              = default 0 (fc !! f) + length (List.filter (rotated f) rows)).
    { induction rows as [|r rows' IH]; intros fc; [simpl; lia|].
      rewrite from_cons. cbv zeta. cbn [ps_firm_counts].
      rewrite IH, step_counts. cbn [List.filter]. unfold rotated_at at 2.
      rewrite eligible_at_spec.
      destruct (eligible r); [|simpl; lia]. cbn [andb].
      destruct (override r).
      - rewrite andb_false_r. simpl. lia.
      - rewrite andb_true_r.
        destruct (_rotatable_templates templates) eqn:E; [contradiction|].
        destruct (String.eqb_spec (firm r) f) as [<-|Hne].
        + rewrite lookup_insert_eq. simpl. lia.
        + rewrite lookup_insert_ne by assumption. simpl. lia. }
    rewrite H, lookup_empty. reflexivity.
  - intros Hrot.
    assert (H : forall fc, ps_firm_counts (from only fc rows) = fc); [|apply H].
    induction rows as [|r rows' IH]; intros fc; [reflexivity|].
    rewrite from_cons. cbv zeta. cbn [ps_firm_counts].
    rewrite step_counts, Hrot.
    replace (if eligible r then match override r with Some _ => fc | None => fc end
             else fc) with fc by (destruct (eligible r), (override r); reflexivity).
    apply IH.
Qed.

End CounterFacts.

(** ** The rows of the loader *)

Section LoaderFacts.

Import DataSources.

Lemma lower_char_idem (c : ascii) : lower_char (lower_char c) = lower_char c.
Proof. destruct c as [[] [] [] [] [] [] [] []]; reflexivity. Qed.

Lemma lower_idem (s : string) : lower (lower s) = lower s.
Proof.
  induction s as [|c s IH]; [reflexivity|]. simpl.
  now rewrite lower_char_idem, IH.
Qed.

Lemma dict_set_keys (d : Row) (key value : string) (k : string) :
  In k (map fst (dict_set d key value)) <-> k = key \/ In k (map fst d).
Proof.
  induction d as [|[k' v'] d IH]; simpl.
  - split; [intros [<-|[]]; now left | intros [->|[]]; now left].
  - destruct (String.eqb_spec k' key) as [->|Hne]; simpl.
    + split; [intros [<-|H]; [now left | right; now right]
             | intros [->|[<-|H]]; [now left | now left | now right]].
    + rewrite IH. split.
      * intros [<-|[->|H]]; [right; now left | now left | right; now right].
      * intros [->|[<-|H]]; [right; now left | now left | right; now right].
Qed.

Lemma dict_set_nodup (d : Row) (key value : string) :
  NoDup (map fst d) -> NoDup (map fst (dict_set d key value)).
Proof.
  induction d as [|[k' v'] d IH]; intros Hnd; simpl.
  - constructor; [|constructor]. intros H. now apply list_elem_of_In in H.
  - simpl in Hnd. apply NoDup_cons in Hnd as [Hnot Hnd].
    destruct (String.eqb_spec k' key) as [->|Hne]; simpl.
    + now constructor.
    + constructor; [|now apply IH].
      intros H. apply list_elem_of_In, dict_set_keys in H as [->|H]; [now elim Hne|].
      now apply Hnot, list_elem_of_In.
Qed.

Lemma dict_set_get (d : Row) (key value k : string) :
  row_get (dict_set d key value) k
  = if String.eqb key k then value else row_get d k.
Proof.
  induction d as [|[k' v'] d IH]; simpl.
  - reflexivity.
  - destruct (String.eqb_spec k' key) as [->|Hne]; simpl.
    + now destruct (String.eqb key k).
    + rewrite IH. destruct (String.eqb_spec k' k) as [->|Hk]; [|reflexivity].
      destruct (String.eqb_spec key k) as [->|]; [now elim Hne | reflexivity].
Qed.

Lemma dict_set_entries (d : Row) (key value : string) (P : string * string -> Prop) :
  P (key, value) -> Forall P d -> Forall P (dict_set d key value).
Proof.
  intros HP. induction d as [|[k' v'] d IH]; intros Hd; simpl.
  - now constructor.
  - apply Forall_cons in Hd as [H1 H2].
    destruct (String.eqb k' key); constructor; auto.
Qed.

(** X20. A row of the loader is a dictionary whose keys are trimmed and
    in lower case and whose values are trimmed; each of its keys is a
    normalized key of the record; under a key it holds the trimmed value
    of the last item of the record that has this key once normalized. *)
Theorem normalized_rows (items : list (string * string)) :
  let r := normalize_row items in
  NoDup (map fst r) /\
  Forall (fun kv => lower (fst kv) = fst kv /\ strip (fst kv) = fst kv /\
                    strip (snd kv) = snd kv) r /\
  (forall k, In k (map fst r)
             <-> In k (normalize_headers (map fst items))) /\
  (forall pre k v post,
     items = pre ++ (k, v) :: post ->
     (forall kv, In kv post -> lower (strip (fst kv)) <> lower (strip k)) ->
     row_get r (lower (strip k)) = strip v).
Proof.
  cbv zeta. unfold normalize_row, normalize_headers.
  assert (Hgen : forall acc,
            NoDup (map fst acc) ->
            Forall (fun kv => lower (fst kv) = fst kv /\ strip (fst kv) = fst kv /\
                              strip (snd kv) = snd kv) acc ->
            let r := fold_left
                       (fun norm kv =>
                          dict_set norm (lower (strip (fst kv))) (strip (snd kv)))
                       items acc in
            NoDup (map fst r) /\
            Forall (fun kv => lower (fst kv) = fst kv /\ strip (fst kv) = fst kv /\
                              strip (snd kv) = snd kv) r /\
            (forall k, In k (map fst r)
                       <-> In k (map (fun h => lower (strip h)) (map fst items))
                           \/ In k (map fst acc))).
  { induction items as [|[k v] items' IH]; intros acc Hnd Hacc; cbv zeta.
    - simpl. split; [exact Hnd|]. split; [exact Hacc|]. intros k. tauto.
    - cbn [fold_left fst snd].
      destruct (IH (dict_set acc (lower (strip k)) (strip v))) as (H1 & H2 & H3).
      + now apply dict_set_nodup.
      + apply dict_set_entries; [|exact Hacc]. cbn [fst snd].
        split; [apply lower_idem|]. split; [|apply strip_idem].
        rewrite <- lower_strip, strip_idem. reflexivity.
      + split; [exact H1|]. split; [exact H2|]. intros k0. rewrite H3.
        rewrite dict_set_keys. simpl. intuition. }
  destruct (Hgen [] (NoDup_nil_2) (Forall_nil_2 _)) as (H1 & H2 & H3).
  split; [exact H1|]. split; [exact H2|]. split.
  - intros k. rewrite H3. simpl. tauto.
  - intros pre k v post -> Hpost. rewrite fold_left_app. cbn [fold_left fst snd].
    generalize (fold_left
                  (fun norm kv =>
                     dict_set norm (lower (strip (fst kv))) (strip (snd kv)))
                  pre []).
    intros acc.
    assert (Hkeep : forall l d,
              (forall kv, In kv l -> lower (strip (fst kv)) <> lower (strip k)) ->
              row_get (fold_left
                         (fun norm kv =>
                            dict_set norm (lower (strip (fst kv))) (strip (snd kv)))
                         l d) (lower (strip k))
              = row_get d (lower (strip k))).
    { induction l as [|kv l IHl]; intros d Hl; [reflexivity|]. cbn [fold_left].
      rewrite IHl by (intros kv' Hkv'; apply Hl; now right).
      rewrite dict_set_get.
      destruct (String.eqb_spec (lower (strip (fst kv))) (lower (strip k))) as [E|E];
        [|reflexivity].
      elim (Hl kv); [now left | exact E]. }
    rewrite Hkeep by exact Hpost. rewrite dict_set_get.
    now rewrite String.eqb_refl.
Qed.

End LoaderFacts.

(** ** The further properties at the sample data *)

Section MoreSamples.

Lemma email_checks_agree_on_trimmed_witness :
  strip "ada@uni.edu" = "ada@uni.edu" /\
  App._is_email_valid "ada@uni.edu" = Cli._is_email_valid "ada@uni.edu".
Proof.
  assert (Htrim : strip "ada@uni.edu" = "ada@uni.edu") by reflexivity.
  split; [exact Htrim|].
  exact (proj1 (email_checks_agree_on_trimmed "ada@uni.edu" Htrim)).
Defined.

Lemma generate_flags_compared_witness :
  (NoDup (map fst Sample.zed) /\
   (forall k v, In (k, v) Sample.zed -> lower k = k)) /\
  App._is_generate_true Sample.zed = Cli._parse_bool "no" /\
  Cli._is_generate_true Sample.zed = Cli._parse_bool "no".
Proof.
  assert (Hdict : NoDup (map fst Sample.zed)).
  { apply (bool_decide_unpack _). vm_compute. exact I. }
  assert (Hlower : forall k v, In (k, v) Sample.zed -> lower k = k).
  { intros k v [[= <- <-]|[[= <- <-]|[[= <- <-]|[[= <- <-]|[[= <- <-]|[]]]]]];
      reflexivity. }
  split; [split; assumption|].
  apply (proj1 (generate_flags_compared Sample.zed Hdict Hlower) "no").
  vm_compute. tauto.
Defined.

Lemma prefix_rule_witness :
  (In "prefix" Sample2.hs /\ strip (row_get Sample2.smith "prefix") <> "") /\
  fst (Resolver.get_first_last (Resolver.new Cli._parse_name Sample2.hs Sample2.smith))
  = "Dr. Smith" /\
  Resolver.resolve_text (Resolver.new Cli._parse_name Sample2.hs Sample2.smith)
    "{first name}" = "Dr. Smith".
Proof.
  assert (Hprefix : In "prefix" Sample2.hs) by (now left).
  assert (Hvalue : strip (row_get Sample2.smith "prefix") <> "")
    by (vm_compute; discriminate).
  split; [split; assumption|].
  pose proof (prefix_rule Cli._parse_name Sample2.hs Sample2.smith Hprefix Hvalue)
    as [H1 H2].
  split; [rewrite H1 | rewrite H2, H1]; vm_compute; reflexivity.
Defined.

Lemma unclosed_braces_are_kept_witness :
  has_char "}"%char "Hi {first name, see {firm" = false /\
  Resolver.resolve_text (Resolver.new Cli._parse_name Sample.hs Sample.jane)
    "Hi {first name, see {firm" = "Hi {first name, see {firm".
Proof.
  assert (Hopen : has_char "}"%char "Hi {first name, see {firm" = false)
    by reflexivity.
  split; [exact Hopen|].
  exact (unclosed_braces_are_kept Cli._parse_name Sample.hs Sample.jane
           "Hi {first name, see {firm" Hopen).
Defined.

Lemma parse_name_forms_witness :
  ("Ada" <> "" /\ "Lovelace" <> "") /\
  Cli._parse_name "Ada Lovelace" = ("Ada", "Lovelace") /\
  Cli._parse_name "Lovelace, Ada" = ("Ada", "Lovelace").
Proof.
  assert (Hfirst : "Ada" <> "") by discriminate.
  assert (Hlast : "Lovelace" <> "") by discriminate.
  split; [split; assumption|].
  pose proof (parse_name_forms "Ada" "Lovelace" Hfirst Hlast) as [H1 H2].
  split.
  - exact (proj1 (H1 eq_refl eq_refl eq_refl eq_refl)).
  - exact (H2 eq_refl eq_refl eq_refl).
Defined.

(** File names: letters beyond ASCII are kept, other characters become
    underscores, outer spaces and dots go, an empty result becomes
    "template", and a negative [max_len] cuts from the end. *)
Example safe_filename_samples :
  let safe := FileName._safe_filename FileName.sample_isalnum
                FileName.sample_isspace in
  safe FileName.resume_name 60%Z = FileName.resume_name /\
  safe (FileName.of_string " ..a/b?.txt. ") 60%Z = FileName.of_string "a_b_.txt" /\
  safe [] 60%Z = FileName.of_string "template" /\
  safe (FileName.of_string " ... ") 60%Z = FileName.of_string "template" /\
  safe (FileName.of_string "abcdef") 3%Z = FileName.of_string "abc" /\
  safe (FileName.of_string "abcdef") 0%Z = [] /\
  safe (FileName.of_string "abcdef") (-2)%Z = FileName.of_string "abcd" /\
  safe (FileName.of_string "abcdef") (-9)%Z = [].
Proof. vm_compute. repeat split. Qed.

Lemma safe_filename_is_safe_witness :
  forallb FileName.sample_isalnum FileName.TEMPLATE = true /\
  (let f := FileName._safe_filename FileName.sample_isalnum
              FileName.sample_isspace FileName.resume_name 4%Z in
   forallb (FileName.is_kept FileName.sample_isalnum) f = true /\
   head f <> Some FileName.DOT /\
   ((0 <= 4)%Z -> (Z.of_nat (length f) <= 4)%Z) /\
   ((0 < 4)%Z -> f <> []) /\
   ((4 < 0)%Z ->
    f = FileName.slice_to 4%Z
          (FileName._safe_filename FileName.sample_isalnum
             FileName.sample_isspace FileName.resume_name
             (Z.of_nat (length FileName.resume_name + 8))))).
Proof.
  assert (Halnum : forallb FileName.sample_isalnum FileName.TEMPLATE = true)
    by reflexivity.
  split; [exact Halnum|].
  exact (safe_filename_is_safe FileName.sample_isalnum FileName.sample_isspace
           FileName.resume_name 4%Z Halnum).
Defined.

End MoreSamples.
